(** * BitFunnel/Calc: a recursive-descent calculator, embedded and verified

    The development follows [calc.cpp].  A [Calc] object is a record holding
    the source string, the scan position and the two symbol tables; every
    member function is a computation in a state-and-exception monad over
    that record.  C++ [double] is IEEE-754 binary64, modelled by Rocq's
    primitive floats. *)

From Stdlib Require Import ZArith Lia String Ascii Bool DecimalString.
From Stdlib Require Import Floats.PrimFloat Floats.SpecFloat Floats.FloatOps.
From stdpp Require Import base option gmap strings.

Local Open Scope nat_scope.

(** ** The C and C++ library functions the program calls *)

(** *** <ctype.h>, in the "C" locale

    A [char] is a byte.  The classes hold ASCII characters only, so bytes
    from 128 on belong to none of them. *)
Module ctype.

Definition code (c : ascii) : N := N_of_ascii c.

Definition in_range (lo hi : N) (c : ascii) : bool :=
  (lo <=? code c)%N && (code c <=? hi)%N.

Definition isdigit (c : ascii) : bool := in_range 48 57 c.

Definition isupper (c : ascii) : bool := in_range 65 90 c.

Definition islower (c : ascii) : bool := in_range 97 122 c.

Definition isalpha (c : ascii) : bool := isupper c || islower c.

Definition isalnum (c : ascii) : bool := isalpha c || isdigit c.

(** space, and the five control characters \t \n \v \f \r *)
Definition isspace (c : ascii) : bool :=
  (code c =? 32)%N || in_range 9 13 c.

End ctype.

(** *** <math.h>

    [sqrt] is correctly rounded by IEEE-754 and so is [PrimFloat.sqrt]; the
    transcendental functions have no such definition and are taken as given. *)
Record libm : Type := MkLibm {
  libm_exp : float -> float;
  libm_atan : float -> float;
  libm_cos : float -> float;
  libm_sin : float -> float
}.

(** *** std::stod

    [GetConstant] hands the text it gathered to the C++ library's [stod],
    which is not part of the sources.  The texts it can get are made of a
    sign, digits, a point and an exponent only, so white space, hexadecimal
    numerals, "inf" and "nan" need no model. *)
Module stod_model.

Inductive stod_result : Type :=
| stod_value (d : float)
| stod_invalid_argument
| stod_out_of_range.

Definition is_sign (c : ascii) : bool := Ascii.eqb c "+" || Ascii.eqb c "-".

Definition is_exp_marker (c : ascii) : bool := Ascii.eqb c "e" || Ascii.eqb c "E".

Definition digit_value (c : ascii) : Z := Z.of_N (ctype.code c) - 48.

(** Longest run of digits at the head of [s], and what follows it. *)
Fixpoint span_digits (s : string) : list ascii * string :=
  match s with
  | String c rest =>
      if ctype.isdigit c
      then let '(ds, tl) := span_digits rest in (c :: ds, tl)
      else (nil, s)
  | EmptyString => (nil, s)
  end.

Definition digits_to_Z (ds : list ascii) : Z :=
  fold_left (fun acc c => 10 * acc + digit_value c)%Z ds 0%Z.

Definition take_sign (s : string) : bool * string :=
  match s with
  | String c rest => if is_sign c then (Ascii.eqb c "-", rest) else (false, s)
  | EmptyString => (false, s)
  end.

(** The exponent of a numeral: [e], optional sign, at least one digit;
    anything else is left unread and counts as exponent 0. *)
Definition take_exponent (s : string) : Z :=
  match s with
  | String c rest =>
      if is_exp_marker c then
        let '(neg, rest') := take_sign rest in
        match span_digits rest' with
        | (nil, _) => 0%Z
        | (ds, _) => if neg then (- digits_to_Z ds)%Z else digits_to_Z ds
        end
      else 0%Z
  | EmptyString => 0%Z
  end.

(** Sign, decimal mantissa [m] and decimal exponent [e] of the numeral at
    the head of [s]: its value is [m * 10^e].  [None]: no digit in the
    mantissa, nothing to convert. *)
Definition scan (s : string) : option (bool * Z * Z) :=
  let '(neg, s1) := take_sign s in
  let '(ipart, s2) := span_digits s1 in
  let '(fpart, s3) :=
    match s2 with
    | String c rest => if Ascii.eqb c "." then span_digits rest else (nil, s2)
    | EmptyString => (nil, s2)
    end in
  match ipart ++ fpart with
  | nil => None
  | ds => Some (neg, digits_to_Z ds, (take_exponent s3 - Z.of_nat (length fpart))%Z)
  end.

(** [m * 10^e] rounded to binary64. *)
Definition round_decimal (neg : bool) (m e : Z) : spec_float :=
  match m with
  | Zpos p =>
      match e with
      | Zneg q =>
          let '(mz, ez, lz) :=
            SFdiv_core_binary prec emax (Zpos p) 0 (Z.pow_pos 10 q) 0 in
          binary_round_aux prec emax neg mz ez lz
      | _ => binary_round prec emax neg (p * Z.to_pos (10 ^ e)) 0
      end
  | _ => S754_zero neg
  end.

(** Modelled from the spec: [std::stod], which the sources call and do not
    define.  The spec says the gathered text "is then converted to a
    floating-point value; if the substring does not form a valid number
    (e.g., empty), fail", and of the two digit runs of the mantissa that
    "one of the two must be non-empty".  The model scans the way [strtod]
    does (optional sign, digits, optional point and digits, and an exponent
    that is taken only when it has digits), throws [invalid_argument] when
    the mantissa has no digit, rounds the decimal value to the nearest
    binary64, ties to even, and throws [out_of_range] when the value
    overflows.  Whether an underflow is reported is implementation-defined;
    the model returns the rounded value. *)
Definition stod (s : string) : stod_result :=
  match scan s with
  | None => stod_invalid_argument
  | Some (neg, m, e) =>
      match round_decimal neg m e with
      | S754_infinity _ => stod_out_of_range
      | x => stod_value (SF2Prim x)
      end
  end.

End stod_model.
Import stod_model.

Module Calc.

(** ** Data model *)

(** The four data members of [class Calc].  [m_src] is [const]; the
    position is a [size_t], which the guard in [GetChar] keeps at or below
    [m_src.length()], itself a [size_t]: the increment never wraps
    ([GetChar_within]), and the position is a natural number here. *)
Record state : Type := MkState {
  m_src : string;
  m_currentPosition : nat;
  m_constants : gmap string float;
  m_functions : gmap string (float -> float)
}.

(** What a call can throw: [Calc::ParseError] with its message and
    [m_position], or the [std::out_of_range] of [stod], which the handler
    in [GetConstant] does not catch. *)
Inductive exception : Type :=
| ParseError (what : string) (m_position : nat)
| std_out_of_range.

(** How a call ends.  [OutOfFuel] is not an outcome of the program: the
    loops and the recursion of the model are bounded by a fuel argument,
    and [OutOfFuel] marks a bound that was too small. *)
Inductive outcome (A : Type) : Type :=
| Ok (a : A)
| Throw (e : exception)
| OutOfFuel.
Arguments Ok {A} a.
Arguments Throw {A} e.
Arguments OutOfFuel {A}.

(** A member function: from the object before the call to how the call
    ends and the object after it. *)
Definition M (A : Type) : Type := state -> outcome A * state.

Definition ret {A} (a : A) : M A := fun c => (Ok a, c).

Definition bind {A B} (m : M A) (k : A -> M B) : M B :=
  fun c =>
    match m c with
    | (Ok a, c') => k a c'
    | (Throw e, c') => (Throw e, c')
    | (OutOfFuel, c') => (OutOfFuel, c')
    end.

Definition throw {A} (e : exception) : M A := fun c => (Throw e, c).

Definition out_of_fuel {A} : M A := fun c => (OutOfFuel, c).

Definition get_state : M state := fun c => (Ok c, c).

#[global] Instance M_ret : MRet M := @ret.
#[global] Instance M_bind : MBind M := fun A B k m => bind m k.

(** [throw ParseError(message, m_currentPosition)] *)
Definition throw_ParseError {A} (message : string) : M A :=
  c ← get_state; throw (ParseError message (m_currentPosition c)).

Definition NUL : ascii := Ascii.zero.

Definition dquote : string := String (ascii_of_nat 34) EmptyString.

(** ** The cursor *)

Definition PeekChar : M ascii :=
  c ← get_state;
  if String.length (m_src c) <=? m_currentPosition c
  then mret NUL
  else mret (default NUL (String.get (m_currentPosition c) (m_src c))).

(** [++m_currentPosition] *)
Definition moved (c : state) : state :=
  MkState (m_src c) (S (m_currentPosition c)) (m_constants c) (m_functions c).

Definition advance : M unit := fun c => (Ok tt, moved c).

Definition GetChar : M ascii :=
  result ← PeekChar;
  (if Ascii.eqb result NUL then mret tt else advance);;
  mret result.

Definition Consume (ch : ascii) : M unit :=
  next ← PeekChar;
  if negb (Ascii.eqb next ch)
  then throw_ParseError ("Expected '" +:+ String ch "'.")
  else GetChar;; mret tt.

(** [while (test(PeekChar())) { ... GetChar() ... }], the shape of every
    loop of the program: the body reads one character and folds it into
    the local [acc] ([s.push_back(GetChar())], or nothing at all in
    [SkipWhite]). *)
Fixpoint while_peek {A} (fuel : nat) (test : ascii -> bool)
    (f : A -> ascii -> A) (acc : A) : M A :=
  match fuel with
  | O => out_of_fuel
  | S fuel' =>
      next ← PeekChar;
      if test next
      then ch ← GetChar; while_peek fuel' test f (f acc ch)
      else mret acc
  end.

Definition SkipWhite (fuel : nat) : M unit :=
  while_peek fuel ctype.isspace (fun _ _ => tt) tt.

Definition push_back (s : string) (ch : ascii) : string :=
  s +:+ String ch EmptyString.

Definition IsFirstCharOfDouble (c : ascii) : bool :=
  ctype.isdigit c || Ascii.eqb c "-" || Ascii.eqb c "+" || Ascii.eqb c ".".

(** ** The grammar engine *)

Definition GetSymbol (fuel : nat) : M string :=
  SkipWhite fuel;;
  next ← PeekChar;
  if negb (ctype.isalpha next)
  then throw_ParseError "Expected alpha character at beginning of symbol."
  else while_peek fuel ctype.isalnum push_back EmptyString.

(** [PeekChar() == '+' || PeekChar() == '-'] and the like: [PeekChar]
    leaves the object as it is ([PeekChar_state]), so the two reads of one
    condition are one read here. *)
Definition GetConstant_sign (s : string) : M string :=
  next ← PeekChar;
  if Ascii.eqb next "+" || Ascii.eqb next "-"
  then ch ← GetChar; mret (push_back s ch)
  else mret s.

Definition GetConstant_fraction (fuel : nat) (s : string) : M string :=
  next ← PeekChar;
  if Ascii.eqb next "."
  then ch ← GetChar; while_peek fuel ctype.isdigit push_back (push_back s ch)
  else mret s.

Definition GetConstant_exponent (fuel : nat) (s : string) : M string :=
  next ← PeekChar;
  if Ascii.eqb next "e" || Ascii.eqb next "E" then
    ch ← GetChar;
    s ← GetConstant_sign (push_back s ch);
    next ← PeekChar;
    if negb (ctype.isdigit next)
    then throw_ParseError "Expected exponent in floating point constant."
    else while_peek fuel ctype.isdigit push_back s
  else mret s.

(** "Gather in s the longest possible sequence of characters that will
    parse as a floating point number." *)
Definition GetConstant_gather (fuel : nat) : M string :=
  SkipWhite fuel;;
  s ← GetConstant_sign EmptyString;
  s ← while_peek fuel ctype.isdigit push_back s;
  s ← GetConstant_fraction fuel s;
  GetConstant_exponent fuel s.

(** "Parse s into a floating point value." *)
Definition GetConstant (fuel : nat) : M float :=
  s ← GetConstant_gather fuel;
  match stod s with
  | stod_value d => mret d
  | stod_invalid_argument => throw_ParseError "Invalid float."
  | stod_out_of_range => throw std_out_of_range
  end.

(** The four mutually recursive procedures, each with its callees as
    arguments; [ParseSum] and the others below tie the knot. *)
Definition ParseSum_body (fuel : nat) (ParseProduct : M float) : M float :=
  left ← ParseProduct;
  SkipWhite fuel;;
  next ← PeekChar;
  if Ascii.eqb next "+" then
    GetChar;;
    right ← ParseProduct;
    mret (left + right)%float
  else
    next ← PeekChar;
    if Ascii.eqb next "-" then
      GetChar;;
      right ← ParseProduct;
      mret (left - right)%float
    else mret left.

Definition ParseProduct_body (fuel : nat) (ParseTerm ParseSum : M float)
    : M float :=
  left ← ParseTerm;
  SkipWhite fuel;;
  next ← PeekChar;
  if Ascii.eqb next "*" then
    GetChar;;
    right ← ParseSum;
    mret (left * right)%float
  else
    next ← PeekChar;
    if Ascii.eqb next "/" then
      GetChar;;
      right ← ParseSum;
      mret (left / right)%float
    else mret left.

Definition ParseTerm_body (fuel : nat) (ParseSum ParseIdentifier : M float)
    : M float :=
  SkipWhite fuel;;
  next ← PeekChar;
  if Ascii.eqb next "(" then
    GetChar;;
    result ← ParseSum;
    SkipWhite fuel;;
    Consume ")";;
    mret result
  else if IsFirstCharOfDouble next then GetConstant fuel
  else if ctype.isalpha next then ParseIdentifier
  else throw_ParseError
         "Expected a number, symbol or parenthesized expression.".

Definition unknown_function (symbol : string) : string :=
  "Unknown function " +:+ dquote +:+ symbol +:+ dquote +:+ ".".

Definition unknown_symbol (symbol : string) : string :=
  "Unknown symbol " +:+ dquote +:+ symbol +:+ dquote +:+ ".".

(** [m_functions.find(symbol)] and [m_constants.find(symbol)] *)
Definition find_function (symbol : string) : M (option (float -> float)) :=
  fun c => (Ok (m_functions c !! symbol), c).

Definition find_constant (symbol : string) : M (option float) :=
  fun c => (Ok (m_constants c !! symbol), c).

Definition ParseIdentifier_body (fuel : nat) (ParseSum : M float) : M float :=
  symbol ← GetSymbol fuel;
  SkipWhite fuel;;
  next ← PeekChar;
  if Ascii.eqb next "(" then
    it ← find_function symbol;
    match it with
    | Some f =>
        Consume "(";;
        parameter ← ParseSum;
        Consume ")";;
        mret (f parameter)
    | None => throw_ParseError (unknown_function symbol)
    end
  else
    it ← find_constant symbol;
    match it with
    | Some v => mret v
    | None => throw_ParseError (unknown_symbol symbol)
    end.

Fixpoint ParseSum (fuel : nat) (c : state) : outcome float * state :=
  match fuel with
  | O => out_of_fuel c
  | S n => ParseSum_body fuel (ParseProduct n) c
  end

with ParseProduct (fuel : nat) (c : state) : outcome float * state :=
  match fuel with
  | O => out_of_fuel c
  | S n => ParseProduct_body fuel (ParseTerm n) (ParseSum n) c
  end

with ParseTerm (fuel : nat) (c : state) : outcome float * state :=
  match fuel with
  | O => out_of_fuel c
  | S n => ParseTerm_body fuel (ParseSum n) (ParseIdentifier n) c
  end

with ParseIdentifier (fuel : nat) (c : state) : outcome float * state :=
  match fuel with
  | O => out_of_fuel c
  | S n => ParseIdentifier_body fuel (ParseSum n) c
  end.

Definition ParseExpression (fuel : nat) : M float :=
  expression ← (ParseSum fuel : M float);
  SkipWhite fuel;;
  next ← PeekChar;
  if negb (Ascii.eqb next NUL)
  then throw_ParseError "Syntax error."
  else mret expression.

Definition Evaluate (fuel : nat) : M float := ParseExpression fuel.

(** The constructor [Calc::Calc(src)]. *)
Definition Calc (L : libm) (src : string) : state :=
  MkState src 0
    (<["pi" := (libm_atan L 1 * 4)%float]> (<["e" := libm_exp L 1%float]> ∅))
    (<["sqrt" := PrimFloat.sqrt]>
       (<["sin" := libm_sin L]> (<["cos" := libm_cos L]> ∅))).

(** Fuel that is enough for a source of this length ([fuel_for_enough]). *)
Definition fuel_for (src : string) : nat := 4 * String.length src + 5.

(** [Calc parser(src); parser.Evaluate()], as [Test] and the
    read-eval-print loop of [main] run each input. *)
Definition Evaluate_source (L : libm) (src : string) : outcome float :=
  (Evaluate (fuel_for src) (Calc L src)).1.

(** *** A math library to run examples with

    The transcendental functions are truncated power series (the
    arctangent after two argument halvings), good to about an ulp on the
    arguments used here. *)
Fixpoint series (n i : nat) (ratio : nat -> float) (t acc : float) : float :=
  match n with
  | O => acc
  | S n' =>
      let t' := (t * ratio i)%float in
      series n' (S i) ratio t' (acc + t')%float
  end.

Definition of_nat (n : nat) : float :=
  SF2Prim (binary_normalize prec emax (Z.of_nat n) 0 false).

Definition series_exp (x : float) : float :=
  series 30 0 (fun i => x / of_nat (S i))%float 1 1.

Definition series_cos (x : float) : float :=
  series 30 0
    (fun i => - (x * x) / of_nat ((2 * i + 1) * (2 * i + 2)))%float 1 1.

Definition series_sin (x : float) : float :=
  (x * series 30 0
         (fun i => - (x * x) / of_nat ((2 * i + 2) * (2 * i + 3))) 1 1)%float.

Definition halve_atan (x : float) : float :=
  (x / (1 + PrimFloat.sqrt (1 + x * x)))%float.

Definition series_atan (x : float) : float :=
  let y := halve_atan (halve_atan x) in
  (4 * (y * series 30 0
              (fun i => - (y * y) * of_nat (2 * i + 1) / of_nat (2 * i + 3))
              1 1))%float.

Definition series_libm : libm :=
  MkLibm series_exp series_atan series_cos series_sin.

(** ** Output, the tests and the read-eval-print loop *)

(** [std::string(n, ' ')] *)
Fixpoint spaces (n : nat) : string :=
  match n with
  | O => EmptyString
  | S n' => String " " (spaces n')
  end.

(** [std::endl], as the characters it writes. *)
Definition endl : string := String (ascii_of_nat 10) EmptyString.

(** [out << n] for a [size_t]: the decimal numeral. *)
Definition print_size_t (n : nat) : string := NilEmpty.string_of_uint (Nat.to_uint n).

(** [operator<<] for a [ParseError]: a caret under the position, then the
    position and the message. *)
Definition print_ParseError (what : string) (m_position : nat) : string :=
  spaces m_position +:+ "^" +:+ endl
  +:+ "Calc error (position = " +:+ print_size_t m_position +:+ "): "
  +:+ what +:+ endl.

(** [TestCase::Run]: what it writes and what it returns.  How the stream
    formats a [double] is the library's business: [show]. *)
Definition TestCase_Run (L : libm) (show : float -> string)
    (m_input : string) (m_output : float) : string * bool :=
  let banner := dquote +:+ m_input +:+ dquote +:+ " ==> " in
  match Evaluate_source L m_input with
  | Ok result =>
      if (result =? m_output)%float
      then (banner +:+ show result +:+ " OK" +:+ endl, true)
      else (banner +:+ show result +:+ " FAILED: expected " +:+ show m_output
            +:+ endl, false)
  | _ => (banner +:+ "FAILED: exception." +:+ endl, false)
  end.

Definition tab : ascii := ascii_of_nat 9.

#[local] Set Warnings "-inexact-float".

(** The table of [Test]. *)
Definition cases (L : libm) : list (string * float) :=
  ( ("1", 1) :: ("1.234", 1.234) :: (".1", 0.1) :: ("-2", -2) :: ("-.1", -0.1)
    :: ("1e9", 1e9) :: ("2e-8", 2e-8) :: ("3e+7", 3e+7)
    :: ("456.789e+5", 456.789e+5)
    :: ("e", libm_exp L 1) :: ("pi", libm_atan L 1 * 4)
    :: ("1+2", 3) :: ("3+e", 3 + libm_exp L 1)
    :: ("4-5", -1)
    :: ("2*3", 6)
    :: ("(3+4)", 7) :: ("(3+4)*(2+3)", 35)
    :: ("1+-2", -1)
    :: (String tab " 1  + ( 2 * 10 )    ", 21)
    :: ("sqrt(4)", 2) :: ("sqrt((3+4)*(2+3))", PrimFloat.sqrt 35)
    :: ("sqrt(1 + 2 )", PrimFloat.sqrt 3)
    :: ("cos(pi)", -1) :: ("sin(0)", 0) :: nil )%float.

#[local] Set Warnings "+inexact-float".

(** [Test]: every case is run, [success &= ...]. *)
Definition Test (L : libm) (show : float -> string) : string * bool :=
  fold_left
    (fun acc case =>
       let '(out, ok) := TestCase_Run L show case.1 case.2 in
       (acc.1 +:+ out, acc.2 && ok))
    (cases L) (EmptyString, true).

Definition prompt : string := ">> ".

(** How [main] ends: it returns, or an exception that nothing catches
    ends the program.  [Unfinished]: the model ran out of fuel. *)
Inductive termination : Type :=
| Returned (status : Z)
| Uncaught (e : exception)
| Unfinished.

(** The loop of [main] over the lines of the input.  [getline] leaves the
    line empty at the end of the input, which ends the loop as an empty
    line does. *)
Fixpoint read_eval_print (L : libm) (show : float -> string) (lines : list string)
    : string * termination :=
  match lines with
  | nil => (prompt, Returned 0)
  | line :: rest =>
      if String.length line =? 0 then (prompt, Returned 0)
      else
        match Evaluate_source L line with
        | Ok result =>
            let '(out, t) := read_eval_print L show rest in
            (prompt +:+ show result +:+ endl +:+ out, t)
        | Throw (ParseError what pos) =>
            let '(out, t) := read_eval_print L show rest in
            (prompt +:+ spaces (String.length prompt)
             +:+ print_ParseError what pos +:+ out, t)
        | Throw std_out_of_range => (prompt, Uncaught std_out_of_range)
        | OutOfFuel => (prompt, Unfinished)
        end
  end.

Definition main (L : libm) (show : float -> string) (lines : list string)
    : string * termination :=
  let '(tests, success) := Test L show in
  let '(out, t) := read_eval_print L show lines in
  ("Running test cases ..." +:+ endl +:+ tests
   +:+ (if success then "All tests succeeded." else "One or more tests failed.")
   +:+ endl +:+ endl
   +:+ "Type an expression and press return to evaluate." +:+ endl
   +:+ "Enter an empty line to exit." +:+ endl +:+ out, t).

(** ** Predicates of the verification *)

(** The invariant of the cursor. *)
Definition cursor_inv (c : state) : Prop :=
  m_currentPosition c <= String.length (m_src c).

(** A call that keeps the invariant and never moves the cursor back. *)
Definition keeps_cursor {A} (m : M A) : Prop :=
  forall c, cursor_inv c ->
    cursor_inv (m c).2 /\ m_currentPosition c <= m_currentPosition (m c).2.

(** The character under the cursor, NUL at the end of the text. *)
Definition peek (c : state) : ascii :=
  if String.length (m_src c) <=? m_currentPosition c then NUL
  else default NUL (String.get (m_currentPosition c) (m_src c)).

(** The object after [n] more characters have been read. *)
Definition skip (n : nat) (c : state) : state :=
  MkState (m_src c) (n + m_currentPosition c) (m_constants c) (m_functions c).

(** The source is [pre] followed by [rest], and the cursor sits between
    the two. *)
Record at_cursor (c : state) (pre rest : string) : Prop := MkAtCursor {
  at_src : m_src c = pre +:+ rest;
  at_pos : m_currentPosition c = String.length pre
}.

(** First character of a text, NUL when there is none: what [PeekChar]
    returns with the cursor before the text. *)
Definition head (t : string) : ascii :=
  match t with
  | String ch _ => ch
  | EmptyString => NUL
  end.

Fixpoint every (test : ascii -> bool) (t : string) : bool :=
  match t with
  | String ch r => test ch && every test r
  | EmptyString => true
  end.

(** The longest prefix of [t] whose characters pass [test], and the rest. *)
Fixpoint span (test : ascii -> bool) (t : string) : string * string :=
  match t with
  | String ch r =>
      if test ch
      then let '(run, rest) := span test r in (String ch run, rest)
      else (EmptyString, t)
  | EmptyString => (EmptyString, EmptyString)
  end.

Fixpoint fold_string {A} (f : A -> ascii -> A) (acc : A) (t : string) : A :=
  match t with
  | String ch r => fold_string f (f acc ch) r
  | EmptyString => acc
  end.

(** The object [c] with its cursor moved to just after the prefix [pre]
    of the source. *)
Definition zip (c : state) (pre : string) : state :=
  MkState (m_src c) (String.length pre) (m_constants c) (m_functions c).

(** What [GetConstant] reads, told on the text after the cursor instead of
    on the object: each stage moves characters from the front of the text
    [t] to the end of the numeral [s] gathered so far.  [zip_GetConstant]
    proves that the procedure does just this. *)
Definition lex_sign (s t : string) : string * string :=
  match t with
  | String ch r =>
      if Ascii.eqb ch "+" || Ascii.eqb ch "-" then (push_back s ch, r) else (s, t)
  | EmptyString => (s, t)
  end.

Definition lex_digits (s t : string) : string * string :=
  (s +:+ (span ctype.isdigit t).1, (span ctype.isdigit t).2).

Definition lex_fraction (s t : string) : string * string :=
  match t with
  | String ch r =>
      if Ascii.eqb ch "." then lex_digits (push_back s ch) r else (s, t)
  | EmptyString => (s, t)
  end.

Definition lex_mantissa (t : string) : string * string :=
  let '(s1, t1) := lex_sign EmptyString t in
  let '(s2, t2) := lex_digits s1 t1 in
  lex_fraction s2 t2.

(** [false]: an exponent marker without digits; the strings are then
    what was read up to the missing digit. *)
Definition lex_exponent (s t : string) : bool * (string * string) :=
  match t with
  | String ch r =>
      if Ascii.eqb ch "e" || Ascii.eqb ch "E" then
        let '(s1, t1) := lex_sign (push_back s ch) r in
        if ctype.isdigit (head t1) then (true, lex_digits s1 t1)
        else (false, (s1, t1))
      else (true, (s, t))
  | EmptyString => (true, (s, t))
  end.

(** The optional sign of a numeral: nothing, [+] or [-]. *)
Definition sign_text (sgn : string) : bool :=
  match sgn with
  | EmptyString => true
  | String ch EmptyString => is_sign ch
  | _ => false
  end.

(** The optional fraction of a numeral: nothing, or a point and digits. *)
Definition fraction_text (frac : string) : bool :=
  match frac with
  | EmptyString => true
  | String ch ds => Ascii.eqb ch "." && every ctype.isdigit ds
  end.

(** A run of digits, one at least: an unsigned integer numeral. *)
Definition digits_text (ds : string) : bool :=
  match ds with
  | EmptyString => false
  | _ => every ctype.isdigit ds
  end.

(** A character that does not continue an unsigned integer numeral. *)
Definition ends_numeral (ch : ascii) : bool :=
  negb (ctype.isdigit ch || Ascii.eqb ch "." || is_exp_marker ch).

(** A character that can follow an operand with nothing lost: it continues
    neither the numeral nor the Product, and is not white space.  The
    additive operators, the parentheses and NUL are such characters. *)
Definition ends_product (ch : ascii) : bool :=
  ends_numeral ch
  && negb (ctype.isspace ch || Ascii.eqb ch "*" || Ascii.eqb ch "/").

(** The operators as the program computes them. *)
Definition additive (op : ascii) (x y : float) : float :=
  if Ascii.eqb op "+" then (x + y)%float else (x - y)%float.

Definition multiplicative (op : ascii) (x y : float) : float :=
  if Ascii.eqb op "*" then (x * y)%float else (x / y)%float.

Definition is_times_or_divide (ch : ascii) : bool :=
  Ascii.eqb ch "*" || Ascii.eqb ch "/".

(** A point or nothing: the fraction of a numeral without digits. *)
Definition point_text (point : bool) : string :=
  if point then String "." EmptyString else EmptyString.

(** A symbol: a letter, then letters and digits. *)
Definition symbol_text (name : string) : bool :=
  ctype.isalpha (head name) && every ctype.isalnum name.

(** The text [GetConstant] gathers and hands to [stod], or where it gives
    up on the exponent. *)
Definition lex_constant (t : string) : bool * (string * string) :=
  let '(s3, t3) := lex_mantissa (span ctype.isspace t).2 in
  lex_exponent s3 t3.

(** Characters still to be read. *)
Definition remaining (c : state) : nat :=
  String.length (m_src c) - m_currentPosition c.

(** What a call may do to the object: nothing but move the position
    forward, and not past the end of the text. *)
Record step (c c' : state) : Prop := MkStep {
  step_src : m_src c' = m_src c;
  step_constants : m_constants c' = m_constants c;
  step_functions : m_functions c' = m_functions c;
  step_forward : m_currentPosition c <= m_currentPosition c';
  step_bound :
    m_currentPosition c' <= Nat.max (m_currentPosition c) (String.length (m_src c))
}.

Definition stepM {A} (m : M A) : Prop := forall c, step c (m c).2.

(** The call ends in this state: it returns or throws. *)
Definition safe {A} (m : M A) (c : state) : Prop := (m c).1 <> OutOfFuel.

(** [m] ends whenever fewer than [n] characters remain. *)
Definition safeM {A} (n : nat) (m : M A) : Prop :=
  forall c, remaining c < n -> safe m c.

(** [m'] does what [m] does wherever [m] has fuel enough. *)
Definition refines {A} (m m' : M A) : Prop :=
  forall c, (m c).1 <> OutOfFuel -> m' c = m c.

(** [c2] is [c1] with a NUL and more text appended to the source. *)
Record truncated (c1 c2 : state) : Prop := MkTruncated {
  trunc_src : exists tail, m_src c2 = m_src c1 +:+ String NUL tail;
  trunc_pos : m_currentPosition c2 = m_currentPosition c1;
  trunc_constants : m_constants c2 = m_constants c1;
  trunc_functions : m_functions c2 = m_functions c1;
  trunc_inv : cursor_inv c1
}.

(** A call that cannot tell the two apart. *)
Definition simM {A} (m : M A) : Prop :=
  forall c1 c2, truncated c1 c2 ->
    (m c2).1 = (m c1).1 /\ truncated (m c1).2 (m c2).2.

(** *** One source inside another *)

(** The character at an offset of a text, NUL past its end. *)
Definition char_at (n : nat) (s : string) : ascii := default NUL (String.get n s).

(** A character with which nothing of the grammar begins or continues, and
    which is not white space.  NUL and [)] are such characters. *)
Definition closing (ch : ascii) : bool :=
  negb (ctype.isspace ch || ctype.isalnum ch || IsFirstCharOfDouble ch
        || is_times_or_divide ch || Ascii.eqb ch "(").

(** White space, or a closing character: what may follow an expression. *)
Definition trailing (ch : ascii) : bool := ctype.isspace ch || closing ch.

(** A test that no trailing character passes. *)
Definition quiet (test : ascii -> bool) : Prop :=
  forall ch, trailing ch = true -> test ch = false.

(** A test that cannot tell a trailing character from the end of the text. *)
Definition blind (test : ascii -> bool) : Prop :=
  forall ch, trailing ch = true -> test ch = test NUL.

(** The source of [c2] is the source of [c1] with [pre] before it and with
    white space [ws] and then [tail] after it, and the cursor of [c2] is
    where the cursor of [c1] is, or, once [c1] is at its end, somewhere in
    [ws]. *)
Record embedded (pre ws tail : string) (c1 c2 : state) : Prop := MkEmbedded {
  emb_src : m_src c2 = pre +:+ m_src c1 +:+ ws +:+ tail;
  emb_constants : m_constants c2 = m_constants c1;
  emb_functions : m_functions c2 = m_functions c1;
  emb_inv : cursor_inv c1;
  emb_ws : every ctype.isspace ws = true;
  emb_tail : closing (head tail) = true;
  emb_pos : exists k,
      m_currentPosition c2 = String.length pre + m_currentPosition c1 + k
      /\ k <= String.length ws
      /\ (0 < k -> m_currentPosition c1 = String.length (m_src c1))
}.

(** An exception of the inner run, as the outer run throws it. *)
Definition shift (k : nat) (e : exception) : exception :=
  match e with
  | ParseError what pos => ParseError what (k + pos)
  | std_out_of_range => std_out_of_range
  end.

Definition shift_outcome {A} (k : nat) (r : outcome A) : outcome A :=
  match r with
  | Throw e => Throw (shift k e)
  | _ => r
  end.

(** What [m] returns on [c1] it returns on [c2], fuel allowing; with
    nothing after the inner source, what it throws on [c1] it throws on
    [c2], at the position moved by the length of [pre]. *)
Definition emb_at {A} (pre ws tail : string) (c1 c2 : state) (m : M A) : Prop :=
  (m c2).1 = OutOfFuel
  \/ match m c1 with
     | (Ok a, c1') => exists c2', m c2 = (Ok a, c2') /\ embedded pre ws tail c1' c2'
     | (Throw e, _) =>
         ws +:+ tail = EmptyString -> (m c2).1 = Throw (shift (String.length pre) e)
     | (OutOfFuel, _) => True
     end.

Definition embM {A} (pre ws tail : string) (m : M A) : Prop :=
  forall c1 c2, embedded pre ws tail c1 c2 -> emb_at pre ws tail c1 c2 m.

(** No NUL in the text. *)
Definition no_NUL (s : string) : bool :=
  every (fun ch => negb (Ascii.eqb ch NUL)) s.

(** The optional exponent of a numeral: nothing, or a marker, a sign or
    none, and digits. *)
Definition exponent_text (expo : string) : bool :=
  match expo with
  | EmptyString => true
  | String mark (String ch r) =>
      is_exp_marker mark
      && (if is_sign ch then digits_text r else digits_text (String ch r))
  | _ => false
  end.

(** *** What a call can throw *)

(** The messages [Evaluate] can fail with. *)
Definition reported (what : string) : Prop :=
  what = "Syntax error."
  \/ what = "Expected a number, symbol or parenthesized expression."
  \/ what = "Expected ')'."
  \/ what = "Expected exponent in floating point constant."
  \/ what = "Invalid float."
  \/ (exists symbol, what = unknown_function symbol)
  \/ (exists symbol, what = unknown_symbol symbol).

(** What [m] throws from [c], if it throws, satisfies [P], which also sees
    the object as the throw leaves it. *)
Definition raises {A} (P : exception -> state -> Prop) (m : M A) (c : state) : Prop :=
  match m c with
  | (Throw e, c') => P e c'
  | _ => True
  end.

Definition raisesM {A} (P : exception -> state -> Prop) (m : M A) : Prop :=
  forall c, raises P m c.

Definition silent (e : exception) (c' : state) : Prop := False.

(** A [ParseError] with one of the messages above, at the position where
    the cursor is; or the [out_of_range] of [stod]. *)
Definition proper (e : exception) (c' : state) : Prop :=
  match e with
  | ParseError what pos => reported what /\ pos = m_currentPosition c'
  | std_out_of_range => True
  end.

(** A character with which a term can begin. *)
Definition starts_term (ch : ascii) : bool :=
  Ascii.eqb ch "(" || IsFirstCharOfDouble ch || ctype.isalpha ch.

(** *** The characters of the language *)

(** White space, letters, digits, and the characters [+ - . * / ( )]. *)
Definition in_alphabet (ch : ascii) : bool :=
  ctype.isspace ch || ctype.isalnum ch || IsFirstCharOfDouble ch
  || is_times_or_divide ch || Ascii.eqb ch "(" || Ascii.eqb ch ")".

(** Every character before the cursor is one of the language. *)
Definition read_so_far (c : state) : Prop :=
  forall i, i < m_currentPosition c -> in_alphabet (char_at i (m_src c)) = true.

(** A call that reads characters of the language only. *)
Definition readsM {A} (m : M A) : Prop :=
  forall c, read_so_far c -> read_so_far (m c).2.

(** A test that characters of the language pass only. *)
Definition lexical (test : ascii -> bool) : Prop :=
  forall ch, test ch = true -> in_alphabet ch = true.

(** *** Parentheses *)

Fixpoint count_of (ch0 : ascii) (s : string) : nat :=
  match s with
  | String ch r => (if Ascii.eqb ch ch0 then 1 else 0) + count_of ch0 r
  | EmptyString => 0
  end.

(** What a character adds to the number of parentheses that are open. *)
Definition weight (ch : ascii) : Z :=
  if Ascii.eqb ch "(" then 1%Z else if Ascii.eqb ch ")" then (-1)%Z else 0%Z.

(** The parentheses open after the first [n] characters of [s]. *)
Fixpoint opened (n : nat) (s : string) : Z :=
  match n, s with
  | S n', String ch r => (weight ch + opened n' r)%Z
  | _, _ => 0%Z
  end.

(** The parentheses open at the cursor. *)
Definition level (c : state) : Z := opened (m_currentPosition c) (m_src c).

(** A call that, when it returns, has closed what it has opened. *)
Definition levelM {A} (m : M A) : Prop :=
  forall c a c', m c = (Ok a, c') -> level c' = level c.

(** A test that no parenthesis passes. *)
Definition flat (test : ascii -> bool) : Prop :=
  forall ch, test ch = true -> weight ch = 0%Z.

End Calc.

Import Calc.

(** ** The monad *)

Lemma bind_eq {A B} (m : M A) (k : A -> M B) (c : state) :
  (m ≫= k) c =
  match m c with
  | (Ok a, c') => k a c'
  | (Throw e, c') => (Throw e, c')
  | (OutOfFuel, c') => (OutOfFuel, c')
  end.
Proof. reflexivity. Qed.

Lemma bind_Ok {A B} (m : M A) (k : A -> M B) c a c' :
  m c = (Ok a, c') -> (m ≫= k) c = k a c'.
Proof. intros E. rewrite bind_eq, E. reflexivity. Qed.

Lemma bind_Throw {A B} (m : M A) (k : A -> M B) c e c' :
  m c = (Throw e, c') -> (m ≫= k) c = (Throw e, c').
Proof. intros E. rewrite bind_eq, E. reflexivity. Qed.

Lemma throw_ParseError_eq {A} (message : string) (c : state) :
  @throw_ParseError A message c
  = (Throw (ParseError message (m_currentPosition c)), c).
Proof. reflexivity. Qed.

(** ** The cursor primitives *)

Lemma PeekChar_peek (c : state) : PeekChar c = (Ok (peek c), c).
Proof.
  unfold PeekChar, peek. rewrite bind_eq. simpl.
  destruct (String.length (m_src c) <=? m_currentPosition c); reflexivity.
Qed.

Lemma PeekChar_state (c : state) : (PeekChar c).2 = c.
Proof.
  unfold PeekChar. rewrite bind_eq. simpl.
  destruct (String.length (m_src c) <=? m_currentPosition c); reflexivity.
Qed.

Lemma PeekChar_Ok (c : state) : exists ch, PeekChar c = (Ok ch, c).
Proof.
  unfold PeekChar. rewrite bind_eq. simpl.
  destruct (String.length (m_src c) <=? m_currentPosition c); eauto.
Qed.

Lemma PeekChar_at_end (c : state) :
  String.length (m_src c) <= m_currentPosition c -> PeekChar c = (Ok NUL, c).
Proof.
  intros H. unfold PeekChar. rewrite bind_eq. simpl.
  destruct (Nat.leb_spec (String.length (m_src c)) (m_currentPosition c));
    [reflexivity | lia].
Qed.

(** A character other than NUL is read only before the end of the text. *)
Lemma PeekChar_not_NUL (c : state) (ch : ascii) :
  PeekChar c = (Ok ch, c) -> ch <> NUL ->
  m_currentPosition c < String.length (m_src c).
Proof.
  intros E Hch.
  destruct (Nat.le_gt_cases (String.length (m_src c)) (m_currentPosition c)) as [H|H];
    [|exact H].
  rewrite (PeekChar_at_end c H) in E. congruence.
Qed.

Lemma GetChar_eq (c : state) (ch : ascii) :
  PeekChar c = (Ok ch, c) ->
  GetChar c = (Ok ch, if Ascii.eqb ch NUL then c else moved c).
Proof.
  intros E. unfold GetChar. rewrite (bind_Ok _ _ _ _ _ E).
  destruct (Ascii.eqb ch NUL); reflexivity.
Qed.

Lemma GetChar_moves (c : state) (ch : ascii) :
  PeekChar c = (Ok ch, c) -> ch <> NUL -> GetChar c = (Ok ch, moved c).
Proof.
  intros E Hch. rewrite (GetChar_eq c ch E).
  destruct (Ascii.eqb_spec ch NUL); [contradiction | reflexivity].
Qed.

Lemma Consume_eq (ch : ascii) (c : state) (next : ascii) :
  PeekChar c = (Ok next, c) ->
  Consume ch c =
  if Ascii.eqb next ch
  then (Ok tt, if Ascii.eqb next NUL then c else moved c)
  else (Throw (ParseError ("Expected '" +:+ String ch "'.") (m_currentPosition c)), c).
Proof.
  intros E. unfold Consume. rewrite (bind_Ok _ _ _ _ _ E).
  destruct (Ascii.eqb next ch); simpl; [|reflexivity].
  rewrite bind_eq, (GetChar_eq c next E). reflexivity.
Qed.

(** ** Every call only moves the position forward, within the text *)

Lemma step_refl (c : state) : step c c.
Proof. constructor; auto; lia. Qed.

Lemma step_trans (c1 c2 c3 : state) : step c1 c2 -> step c2 c3 -> step c1 c3.
Proof.
  intros [S1 K1 F1 M1 B1] [S2 K2 F2 M2 B2].
  constructor; try congruence; try lia.
  rewrite S1 in B2. lia.
Qed.

Lemma step_inv (c c' : state) : step c c' -> cursor_inv c -> cursor_inv c'.
Proof. intros [S1 _ _ M1 B1] H. unfold cursor_inv in *. rewrite S1. lia. Qed.

Lemma step_remaining (c c' : state) : step c c' -> remaining c' <= remaining c.
Proof. intros [S1 _ _ M1 _]. unfold remaining. rewrite S1. lia. Qed.

Lemma stepM_ret {A} (a : A) : stepM (mret a : M A).
Proof. intros c. apply step_refl. Qed.

Lemma stepM_throw {A} (e : exception) : stepM (@throw A e).
Proof. intros c. apply step_refl. Qed.

Lemma stepM_out_of_fuel {A} : stepM (@out_of_fuel A).
Proof. intros c. apply step_refl. Qed.

Lemma stepM_get_state : stepM get_state.
Proof. intros c. apply step_refl. Qed.

Lemma stepM_bind {A B} (m : M A) (k : A -> M B) :
  stepM m -> (forall a, stepM (k a)) -> stepM (m ≫= k).
Proof.
  intros Hm Hk c. rewrite bind_eq. specialize (Hm c).
  destruct (m c) as [[a|e|] c']; simpl in *; auto.
  eapply step_trans; [exact Hm | apply Hk].
Qed.

Lemma stepM_throw_ParseError {A} (message : string) :
  stepM (@throw_ParseError A message).
Proof. intros c. apply step_refl. Qed.

Lemma stepM_find_function (symbol : string) : stepM (find_function symbol).
Proof. intros c. apply step_refl. Qed.

Lemma stepM_find_constant (symbol : string) : stepM (find_constant symbol).
Proof. intros c. apply step_refl. Qed.

Lemma stepM_PeekChar : stepM PeekChar.
Proof. intros c. rewrite PeekChar_state. apply step_refl. Qed.

Lemma step_moved (c : state) :
  m_currentPosition c < String.length (m_src c) -> step c (moved c).
Proof. intros H. constructor; simpl; auto; lia. Qed.

Lemma stepM_GetChar : stepM GetChar.
Proof.
  intros c. destruct (PeekChar_Ok c) as [ch E]. rewrite (GetChar_eq c ch E).
  destruct (Ascii.eqb_spec ch NUL); simpl; [apply step_refl|].
  apply step_moved. eapply PeekChar_not_NUL; eauto.
Qed.

Create HintDb stepM.

#[local] Hint Resolve stepM_ret stepM_throw_ParseError stepM_throw
  stepM_out_of_fuel stepM_get_state stepM_PeekChar stepM_GetChar
  stepM_find_function stepM_find_constant : stepM.

Lemma GetChar_within (c : state) :
  cursor_inv c -> m_currentPosition (GetChar c).2 <= String.length (m_src c).
Proof.
  intros H. pose proof (step_inv _ _ (stepM_GetChar c) H) as H'.
  unfold cursor_inv in H'. rewrite (step_src _ _ (stepM_GetChar c)) in H'.
  exact H'.
Qed.

Ltac stepM_go :=
  repeat first
    [ solve [auto 1 with stepM nocore]
    | apply stepM_bind; [|intros ?]
    | match goal with
      | |- stepM (match ?x with _ => _ end) => destruct x
      end ].

Lemma stepM_Consume (ch : ascii) : stepM (Consume ch).
Proof. unfold Consume. stepM_go. Qed.

Lemma stepM_while_peek {A} (fuel : nat) (test : ascii -> bool)
    (f : A -> ascii -> A) (acc : A) :
  stepM (while_peek fuel test f acc).
Proof.
  revert acc. induction fuel as [|fuel IH]; intros acc; simpl.
  - apply stepM_out_of_fuel.
  - stepM_go.
Qed.

Lemma stepM_SkipWhite (fuel : nat) : stepM (SkipWhite fuel).
Proof. apply stepM_while_peek. Qed.

#[local] Hint Resolve stepM_Consume stepM_while_peek stepM_SkipWhite : stepM.

Lemma stepM_GetSymbol (fuel : nat) : stepM (GetSymbol fuel).
Proof. unfold GetSymbol. stepM_go. Qed.

Lemma stepM_GetConstant_sign (s : string) : stepM (GetConstant_sign s).
Proof. unfold GetConstant_sign. stepM_go. Qed.

Lemma stepM_GetConstant_fraction (fuel : nat) (s : string) :
  stepM (GetConstant_fraction fuel s).
Proof. unfold GetConstant_fraction. stepM_go. Qed.

#[local] Hint Resolve stepM_GetSymbol stepM_GetConstant_sign
  stepM_GetConstant_fraction : stepM.

Lemma stepM_GetConstant_exponent (fuel : nat) (s : string) :
  stepM (GetConstant_exponent fuel s).
Proof. unfold GetConstant_exponent. stepM_go. Qed.

#[local] Hint Resolve stepM_GetConstant_exponent : stepM.

Lemma stepM_GetConstant_gather (fuel : nat) : stepM (GetConstant_gather fuel).
Proof. unfold GetConstant_gather. stepM_go. Qed.

#[local] Hint Resolve stepM_GetConstant_gather : stepM.

Lemma stepM_GetConstant (fuel : nat) : stepM (GetConstant fuel).
Proof. unfold GetConstant. stepM_go. Qed.

#[local] Hint Resolve stepM_GetConstant : stepM.

Lemma stepM_ParseSum_body (fuel : nat) (P : M float) :
  stepM P -> stepM (ParseSum_body fuel P).
Proof. intros HP. unfold ParseSum_body. stepM_go. Qed.

Lemma stepM_ParseProduct_body (fuel : nat) (T S : M float) :
  stepM T -> stepM S -> stepM (ParseProduct_body fuel T S).
Proof. intros HT HS. unfold ParseProduct_body. stepM_go. Qed.

Lemma stepM_ParseTerm_body (fuel : nat) (S I : M float) :
  stepM S -> stepM I -> stepM (ParseTerm_body fuel S I).
Proof. intros HS HI. unfold ParseTerm_body. stepM_go. Qed.

Lemma stepM_ParseIdentifier_body (fuel : nat) (S : M float) :
  stepM S -> stepM (ParseIdentifier_body fuel S).
Proof. intros HS. unfold ParseIdentifier_body. stepM_go. Qed.

Lemma stepM_Parse (fuel : nat) :
  stepM (ParseSum fuel) /\ stepM (ParseProduct fuel)
  /\ stepM (ParseTerm fuel) /\ stepM (ParseIdentifier fuel).
Proof.
  induction fuel as [|n (HS & HP & HT & HI)].
  - split; [|split; [|split]]; apply stepM_out_of_fuel.
  - split; [|split; [|split]].
    + apply (stepM_ParseSum_body (S n)), HP.
    + apply (stepM_ParseProduct_body (S n)); assumption.
    + apply (stepM_ParseTerm_body (S n)); assumption.
    + apply (stepM_ParseIdentifier_body (S n)), HS.
Qed.

Lemma stepM_ParseSum (fuel : nat) : stepM (ParseSum fuel).
Proof. apply stepM_Parse. Qed.

Lemma stepM_ParseProduct (fuel : nat) : stepM (ParseProduct fuel).
Proof. apply stepM_Parse. Qed.

Lemma stepM_ParseTerm (fuel : nat) : stepM (ParseTerm fuel).
Proof. apply stepM_Parse. Qed.

Lemma stepM_ParseIdentifier (fuel : nat) : stepM (ParseIdentifier fuel).
Proof. apply stepM_Parse. Qed.

#[local] Hint Resolve stepM_ParseSum stepM_ParseProduct stepM_ParseTerm
  stepM_ParseIdentifier : stepM.

Lemma stepM_ParseExpression (fuel : nat) : stepM (ParseExpression fuel).
Proof. unfold ParseExpression. stepM_go. Qed.

Lemma stepM_Evaluate (fuel : nat) : stepM (Evaluate fuel).
Proof. apply stepM_ParseExpression. Qed.

(** ** More fuel changes nothing once there is enough *)

Lemma refines_refl {A} (m : M A) : refines m m.
Proof. intros c _. reflexivity. Qed.

Lemma refines_trans {A} (m1 m2 m3 : M A) :
  refines m1 m2 -> refines m2 m3 -> refines m1 m3.
Proof.
  intros H12 H23 c H. rewrite <- (H12 c H). apply H23. rewrite (H12 c H). exact H.
Qed.

Lemma refines_out_of_fuel {A} (m : M A) : refines out_of_fuel m.
Proof. intros c H. contradiction H. reflexivity. Qed.

Lemma refines_bind {A B} (m m' : M A) (k k' : A -> M B) :
  refines m m' -> (forall a, refines (k a) (k' a)) ->
  refines (m ≫= k) (m' ≫= k').
Proof.
  intros Hm Hk c. rewrite !bind_eq. specialize (Hm c).
  destruct (m c) as [[a|e|] c1]; simpl in *; intros H.
  - rewrite Hm by discriminate. apply Hk, H.
  - rewrite Hm by discriminate. reflexivity.
  - contradiction H. reflexivity.
Qed.

Create HintDb refines.

#[local] Hint Resolve refines_refl refines_out_of_fuel : refines.

Ltac refines_go :=
  repeat first
    [ solve [auto 2 with refines nocore]
    | apply refines_bind; [|intros ?]
    | match goal with
      | |- refines (match ?x with _ => _ end) _ => destruct x
      end ].

Lemma refines_while_peek_S {A} (fuel : nat) (test : ascii -> bool)
    (f : A -> ascii -> A) (acc : A) :
  refines (while_peek fuel test f acc) (while_peek (S fuel) test f acc).
Proof.
  revert acc. induction fuel as [|fuel IH]; intros acc.
  - apply refines_out_of_fuel.
  - change (while_peek (S (S fuel)) test f acc)
      with (next ← PeekChar;
            if test next
            then ch ← GetChar; while_peek (S fuel) test f (f acc ch)
            else mret acc).
    simpl. refines_go.
Qed.

Lemma refines_while_peek {A} (fuel fuel' : nat) (test : ascii -> bool)
    (f : A -> ascii -> A) (acc : A) :
  fuel <= fuel' ->
  refines (while_peek fuel test f acc) (while_peek fuel' test f acc).
Proof.
  induction 1 as [|fuel' _ IH].
  - apply refines_refl.
  - eapply refines_trans; [exact IH | apply refines_while_peek_S].
Qed.

Lemma refines_SkipWhite (fuel fuel' : nat) :
  fuel <= fuel' -> refines (SkipWhite fuel) (SkipWhite fuel').
Proof. apply refines_while_peek. Qed.

#[local] Hint Resolve refines_while_peek refines_SkipWhite : refines.

Lemma refines_GetSymbol (fuel fuel' : nat) :
  fuel <= fuel' -> refines (GetSymbol fuel) (GetSymbol fuel').
Proof. intros H. unfold GetSymbol. refines_go. Qed.

Lemma refines_GetConstant_fraction (fuel fuel' : nat) (s : string) :
  fuel <= fuel' ->
  refines (GetConstant_fraction fuel s) (GetConstant_fraction fuel' s).
Proof. intros H. unfold GetConstant_fraction. refines_go. Qed.

Lemma refines_GetConstant_exponent (fuel fuel' : nat) (s : string) :
  fuel <= fuel' ->
  refines (GetConstant_exponent fuel s) (GetConstant_exponent fuel' s).
Proof. intros H. unfold GetConstant_exponent. refines_go. Qed.

#[local] Hint Resolve refines_GetSymbol refines_GetConstant_fraction
  refines_GetConstant_exponent : refines.

Lemma refines_GetConstant_gather (fuel fuel' : nat) :
  fuel <= fuel' -> refines (GetConstant_gather fuel) (GetConstant_gather fuel').
Proof. intros H. unfold GetConstant_gather. refines_go. Qed.

#[local] Hint Resolve refines_GetConstant_gather : refines.

Lemma refines_GetConstant (fuel fuel' : nat) :
  fuel <= fuel' -> refines (GetConstant fuel) (GetConstant fuel').
Proof. intros H. unfold GetConstant. refines_go. Qed.

#[local] Hint Resolve refines_GetConstant : refines.

Lemma refines_ParseSum_body (fuel fuel' : nat) (P P' : M float) :
  fuel <= fuel' -> refines P P' ->
  refines (ParseSum_body fuel P) (ParseSum_body fuel' P').
Proof. intros H HP. unfold ParseSum_body. refines_go. Qed.

Lemma refines_ParseProduct_body (fuel fuel' : nat) (T T' S S' : M float) :
  fuel <= fuel' -> refines T T' -> refines S S' ->
  refines (ParseProduct_body fuel T S) (ParseProduct_body fuel' T' S').
Proof. intros H HT HS. unfold ParseProduct_body. refines_go. Qed.

Lemma refines_ParseTerm_body (fuel fuel' : nat) (S S' I I' : M float) :
  fuel <= fuel' -> refines S S' -> refines I I' ->
  refines (ParseTerm_body fuel S I) (ParseTerm_body fuel' S' I').
Proof. intros H HS HI. unfold ParseTerm_body. refines_go. Qed.

Lemma refines_ParseIdentifier_body (fuel fuel' : nat) (S S' : M float) :
  fuel <= fuel' -> refines S S' ->
  refines (ParseIdentifier_body fuel S) (ParseIdentifier_body fuel' S').
Proof. intros H HS. unfold ParseIdentifier_body. refines_go. Qed.

Lemma refines_Parse_S (n : nat) :
  refines (ParseSum n) (ParseSum (S n))
  /\ refines (ParseProduct n) (ParseProduct (S n))
  /\ refines (ParseTerm n) (ParseTerm (S n))
  /\ refines (ParseIdentifier n) (ParseIdentifier (S n)).
Proof.
  induction n as [|n (HS & HP & HT & HI)].
  - split; [|split; [|split]]; apply refines_out_of_fuel.
  - split; [|split; [|split]].
    + apply (refines_ParseSum_body (S n) (S (S n))); [lia | exact HP].
    + apply (refines_ParseProduct_body (S n) (S (S n))); [lia | exact HT | exact HS].
    + apply (refines_ParseTerm_body (S n) (S (S n))); [lia | exact HS | exact HI].
    + apply (refines_ParseIdentifier_body (S n) (S (S n))); [lia | exact HS].
Qed.

Lemma refines_ParseSum (fuel fuel' : nat) :
  fuel <= fuel' -> refines (ParseSum fuel) (ParseSum fuel').
Proof.
  induction 1 as [|fuel' _ IH].
  - apply refines_refl.
  - eapply refines_trans; [exact IH | apply refines_Parse_S].
Qed.

#[local] Hint Resolve refines_ParseSum : refines.

Lemma refines_ParseExpression (fuel fuel' : nat) :
  fuel <= fuel' -> refines (ParseExpression fuel) (ParseExpression fuel').
Proof. intros H. unfold ParseExpression. refines_go. Qed.

Lemma refines_Evaluate (fuel fuel' : nat) :
  fuel <= fuel' -> refines (Evaluate fuel) (Evaluate fuel').
Proof. apply refines_ParseExpression. Qed.

(** ** Enough fuel: no call runs out of it *)

Lemma stepM_at {A} (m : M A) (c : state) (r : outcome A) (c' : state) :
  stepM m -> m c = (r, c') -> step c c'.
Proof. intros H E. specialize (H c). rewrite E in H. exact H. Qed.

Lemma remaining_moved (c : state) :
  m_currentPosition c < String.length (m_src c) ->
  S (remaining (moved c)) = remaining c.
Proof. unfold remaining. simpl. lia. Qed.

Lemma safeM_always {A} (n : nat) (m : M A) : (forall c, safe m c) -> safeM n m.
Proof. intros H c _. apply H. Qed.

Lemma safeM_ret {A} (n : nat) (a : A) : safeM n (mret a : M A).
Proof. apply safeM_always. intros c. discriminate. Qed.

Lemma safeM_throw {A} (n : nat) (e : exception) : safeM n (@throw A e).
Proof. apply safeM_always. intros c. discriminate. Qed.

Lemma safeM_throw_ParseError {A} (n : nat) (message : string) :
  safeM n (@throw_ParseError A message).
Proof. apply safeM_always. intros c. discriminate. Qed.

Lemma safeM_find_function (n : nat) (symbol : string) :
  safeM n (find_function symbol).
Proof. apply safeM_always. intros c. discriminate. Qed.

Lemma safeM_find_constant (n : nat) (symbol : string) :
  safeM n (find_constant symbol).
Proof. apply safeM_always. intros c. discriminate. Qed.

Lemma safeM_PeekChar (n : nat) : safeM n PeekChar.
Proof.
  apply safeM_always. intros c. unfold safe.
  destruct (PeekChar_Ok c) as [ch ->]. discriminate.
Qed.

Lemma safeM_GetChar (n : nat) : safeM n GetChar.
Proof.
  apply safeM_always. intros c. unfold safe.
  destruct (PeekChar_Ok c) as [ch E]. rewrite (GetChar_eq c ch E). discriminate.
Qed.

Lemma safeM_Consume (n : nat) (ch : ascii) : safeM n (Consume ch).
Proof.
  apply safeM_always. intros c. unfold safe.
  destruct (PeekChar_Ok c) as [next E]. rewrite (Consume_eq ch c next E).
  destruct (Ascii.eqb next ch); discriminate.
Qed.

Lemma safeM_weaken {A} (n n' : nat) (m : M A) :
  n' <= n -> safeM n m -> safeM n' m.
Proof. intros H Hm c Hc. apply Hm. lia. Qed.

Lemma safeM_bind {A B} (n : nat) (m : M A) (k : A -> M B) :
  safeM n m -> stepM m -> (forall a, safeM n (k a)) -> safeM n (m ≫= k).
Proof.
  intros Hm Hs Hk c Hc. unfold safe. rewrite bind_eq.
  specialize (Hm c Hc). unfold safe in Hm.
  destruct (m c) as [[a|e|] c'] eqn:E; simpl in *; try congruence.
  apply Hk. apply (stepM_at m c _ c' Hs) in E. apply step_remaining in E. lia.
Qed.

(** The call after a character has been read needs one unit less. *)
Lemma safeM_guard {A} (n : nat) (ch0 : ascii) (k1 : M A) (k2 : ascii -> M A) :
  ch0 <> NUL -> safeM n k1 -> (forall ch, safeM (S n) (k2 ch)) ->
  safeM (S n)
    (next ← PeekChar; if Ascii.eqb next ch0 then GetChar;; k1 else k2 next).
Proof.
  intros H0 H1 H2 c Hc. unfold safe.
  destruct (PeekChar_Ok c) as [ch E]. rewrite (bind_Ok _ _ _ _ _ E).
  destruct (Ascii.eqb_spec ch ch0) as [->|Hne].
  - rewrite (bind_Ok _ _ _ _ _ (GetChar_moves c ch0 E H0)).
    apply H1. pose proof (remaining_moved c (PeekChar_not_NUL c ch0 E H0)). lia.
  - apply H2, Hc.
Qed.

Lemma safeM_guard_else {A} (n : nat) (ch0 : ascii) (k1 k2 : M A) :
  ch0 <> NUL -> safeM n k1 -> safeM (S n) k2 ->
  safeM (S n)
    (next ← PeekChar; if Ascii.eqb next ch0 then GetChar;; k1 else k2).
Proof. intros H0 H1 H2. apply (safeM_guard n ch0 k1 (fun _ => k2)); auto. Qed.

Lemma safeM_Consume_then {A} (n : nat) (ch0 : ascii) (k : M A) :
  ch0 <> NUL -> safeM n k -> safeM (S n) (Consume ch0;; k).
Proof.
  intros H0 Hk c Hc. unfold safe. rewrite bind_eq.
  destruct (PeekChar_Ok c) as [next E]. rewrite (Consume_eq ch0 c next E).
  destruct (Ascii.eqb_spec next ch0) as [->|Hne]; [|discriminate].
  destruct (Ascii.eqb_spec ch0 NUL); [contradiction|].
  apply Hk. pose proof (remaining_moved c (PeekChar_not_NUL c ch0 E H0)). lia.
Qed.

Create HintDb safeM.

#[local] Hint Resolve safeM_ret safeM_throw_ParseError safeM_throw
  safeM_PeekChar safeM_GetChar safeM_Consume safeM_find_function
  safeM_find_constant : safeM.

#[local] Hint Extern 2 (safeM ?n' ?m) =>
  match goal with
  | H : safeM ?n m |- _ => apply (safeM_weaken n n' m); [lia | exact H]
  end : safeM.

Ltac not_NUL := unfold NUL, Ascii.zero; discriminate.

Ltac safeM_go :=
  repeat first
    [ solve [auto 1 with safeM nocore]
    | apply safeM_guard_else; [not_NUL | |]
    | apply safeM_guard; [not_NUL | | intros ?]
    | apply safeM_Consume_then; [not_NUL |]
    | apply safeM_bind; [| solve [auto 1 with stepM nocore] | intros ?]
    | match goal with
      | |- safeM _ (match ?x with _ => _ end) => destruct x
      end ].

Lemma safeM_while_peek {A} (n fuel : nat) (test : ascii -> bool)
    (f : A -> ascii -> A) (acc : A) :
  test NUL = false -> n <= fuel -> safeM n (while_peek fuel test f acc).
Proof.
  intros Ht Hn c Hc. assert (Hf : remaining c < fuel) by lia. clear n Hn Hc.
  revert c acc Hf. induction fuel as [|fuel IH]; intros c acc Hf; [lia|].
  unfold safe. simpl.
  destruct (PeekChar_Ok c) as [ch E]. rewrite (bind_Ok _ _ _ _ _ E).
  destruct (test ch) eqn:Hch; [|discriminate].
  assert (ch <> NUL) as Hnz by congruence.
  rewrite (bind_Ok _ _ _ _ _ (GetChar_moves c ch E Hnz)).
  apply IH. pose proof (remaining_moved c (PeekChar_not_NUL c ch E Hnz)). lia.
Qed.

Lemma safeM_SkipWhite (fuel n : nat) : n <= fuel -> safeM n (SkipWhite fuel).
Proof. apply safeM_while_peek. reflexivity. Qed.

#[local] Hint Extern 1 (safeM _ (SkipWhite _)) =>
  apply safeM_SkipWhite; lia : safeM.

#[local] Hint Extern 1 (safeM _ (while_peek _ _ _ _)) =>
  apply safeM_while_peek; [reflexivity | lia] : safeM.

Lemma safeM_GetSymbol (fuel n : nat) : n <= fuel -> safeM n (GetSymbol fuel).
Proof. intros H. unfold GetSymbol. safeM_go. Qed.

Lemma safeM_GetConstant_sign (n : nat) (s : string) : safeM n (GetConstant_sign s).
Proof. unfold GetConstant_sign. safeM_go. Qed.

#[local] Hint Resolve safeM_GetConstant_sign : safeM.

Lemma safeM_GetConstant_fraction (fuel n : nat) (s : string) :
  n <= fuel -> safeM n (GetConstant_fraction fuel s).
Proof. intros H. unfold GetConstant_fraction. safeM_go. Qed.

Lemma safeM_GetConstant_exponent (fuel n : nat) (s : string) :
  n <= fuel -> safeM n (GetConstant_exponent fuel s).
Proof. intros H. unfold GetConstant_exponent. safeM_go. Qed.

#[local] Hint Extern 1 (safeM _ (GetConstant_fraction _ _)) =>
  apply safeM_GetConstant_fraction; lia : safeM.

#[local] Hint Extern 1 (safeM _ (GetConstant_exponent _ _)) =>
  apply safeM_GetConstant_exponent; lia : safeM.

Lemma safeM_GetConstant_gather (fuel n : nat) :
  n <= fuel -> safeM n (GetConstant_gather fuel).
Proof. intros H. unfold GetConstant_gather. safeM_go. Qed.

#[local] Hint Extern 1 (safeM _ (GetConstant_gather _)) =>
  apply safeM_GetConstant_gather; lia : safeM.

Lemma safeM_GetConstant (fuel n : nat) : n <= fuel -> safeM n (GetConstant fuel).
Proof. intros H. unfold GetConstant. safeM_go. Qed.

#[local] Hint Extern 1 (safeM _ (GetConstant _)) =>
  apply safeM_GetConstant; lia : safeM.

#[local] Hint Extern 1 (safeM _ (GetSymbol _)) =>
  apply safeM_GetSymbol; lia : safeM.

Lemma safeM_ParseSum_body (fuel n : nat) (P : M float) :
  n <= fuel -> stepM P -> safeM n P -> safeM n (ParseSum_body fuel P).
Proof. intros H HsP HP. unfold ParseSum_body. safeM_go. Qed.

Lemma safeM_ParseProduct_body (fuel n : nat) (T S : M float) :
  Datatypes.S n <= fuel -> stepM T -> safeM (Datatypes.S n) T ->
  stepM S -> safeM n S ->
  safeM (Datatypes.S n) (ParseProduct_body fuel T S).
Proof.
  intros H HsT HT HsS HS. unfold ParseProduct_body.
  apply safeM_bind; [exact HT | exact HsT | intros left].
  apply safeM_bind; [safeM_go | auto with stepM | intros _].
  apply safeM_guard_else; [not_NUL | safeM_go |].
  apply safeM_guard_else; [not_NUL | safeM_go | safeM_go].
Qed.

Lemma safeM_ParseTerm_body (fuel n : nat) (S I : M float) :
  Datatypes.S n <= fuel -> safeM n S -> stepM S -> safeM (Datatypes.S n) I ->
  safeM (Datatypes.S n) (ParseTerm_body fuel S I).
Proof.
  intros H HS HsS HI. unfold ParseTerm_body.
  apply safeM_bind; [safeM_go | auto with stepM | intros _].
  apply safeM_guard; [not_NUL | safeM_go | intros ?; safeM_go].
Qed.

Lemma safeM_ParseIdentifier_body (fuel n : nat) (S : M float) :
  Datatypes.S n <= fuel -> safeM n S -> stepM S ->
  safeM (Datatypes.S n) (ParseIdentifier_body fuel S).
Proof.
  intros H HS HsS. unfold ParseIdentifier_body.
  apply safeM_bind; [safeM_go | auto with stepM | intros symbol].
  apply safeM_bind; [safeM_go | auto with stepM | intros _].
  apply safeM_bind; [safeM_go | auto with stepM | intros next].
  destruct (Ascii.eqb next "("); [|safeM_go].
  apply safeM_bind; [safeM_go | auto with stepM | intros [f|]]; [|safeM_go].
  apply safeM_Consume_then; [not_NUL | safeM_go].
Qed.

(** With [4 * n] units of fuel the parser gets through any text of which
    fewer than [n] characters remain. *)
Lemma safeM_Parse (n : nat) :
  (forall fuel, 4 * n <= fuel -> safeM n (ParseSum fuel))
  /\ (forall fuel, 4 * n <= S fuel -> safeM n (ParseProduct fuel))
  /\ (forall fuel, 4 * n <= S (S fuel) -> safeM n (ParseTerm fuel))
  /\ (forall fuel, 4 * n <= S (S (S fuel)) -> safeM n (ParseIdentifier fuel)).
Proof.
  induction n as [|n (HS & HP & HT & HI)].
  - split; [|split; [|split]]; intros fuel _ c Hc; lia.
  - assert (HI' : forall fuel, 4 * S n <= S (S (S fuel)) ->
                    safeM (S n) (ParseIdentifier fuel)).
    { intros [|fuel] Hf; [lia|].
      apply (safeM_ParseIdentifier_body (S fuel) n);
        [lia | apply HS; lia | apply stepM_ParseSum]. }
    assert (HT' : forall fuel, 4 * S n <= S (S fuel) ->
                    safeM (S n) (ParseTerm fuel)).
    { intros [|fuel] Hf; [lia|].
      apply (safeM_ParseTerm_body (S fuel) n);
        [lia | apply HS; lia | apply stepM_ParseSum | apply HI'; lia]. }
    assert (HP' : forall fuel, 4 * S n <= S fuel ->
                    safeM (S n) (ParseProduct fuel)).
    { intros [|fuel] Hf; [lia|].
      apply (safeM_ParseProduct_body (S fuel) n);
        [lia | apply stepM_ParseTerm | apply HT'; lia
        | apply stepM_ParseSum | apply HS; lia]. }
    split; [|split; [|split]]; try assumption.
    intros [|fuel] Hf; [lia|].
    apply (safeM_ParseSum_body (S fuel) (S n));
      [lia | apply stepM_ParseProduct | apply HP'; lia].
Qed.

Lemma safeM_ParseSum (fuel n : nat) : 4 * n <= fuel -> safeM n (ParseSum fuel).
Proof. apply safeM_Parse. Qed.

Lemma safeM_ParseExpression (fuel n : nat) :
  4 * n <= fuel -> safeM n (ParseExpression fuel).
Proof.
  intros H. unfold ParseExpression. pose proof (safeM_ParseSum fuel n H).
  safeM_go.
Qed.

Lemma fuel_for_enough (L : libm) (src : string) :
  safe (Evaluate (fuel_for src)) (Calc L src).
Proof.
  apply (safeM_ParseExpression (fuel_for src) (S (String.length src))).
  - unfold fuel_for. lia.
  - unfold remaining. simpl. lia.
Qed.

(** ** A NUL in the source is the end of the source *)

Lemma length_append (s1 s2 : string) :
  String.length (s1 +:+ s2) = String.length s1 + String.length s2.
Proof. induction s1 as [|ch s1 IH]; simpl; [reflexivity | now rewrite IH]. Qed.

Lemma get_append_NUL (s1 tail : string) :
  String.get (String.length s1) (s1 +:+ String NUL tail) = Some NUL.
Proof.
  change (String.length s1) with (0 + String.length s1) at 1.
  rewrite <- (String.append_correct2 s1 (String NUL tail) 0). reflexivity.
Qed.

Lemma truncated_peek (c1 c2 : state) : truncated c1 c2 -> peek c2 = peek c1.
Proof.
  intros [[tail Hsrc] Hpos _ _ Hinv]. unfold peek, cursor_inv in *.
  rewrite Hsrc, Hpos, length_append. simpl.
  destruct (Nat.leb_spec (String.length (m_src c1) + S (String.length tail))
              (m_currentPosition c1)); [lia|].
  destruct (Nat.leb_spec (String.length (m_src c1)) (m_currentPosition c1)).
  - assert (m_currentPosition c1 = String.length (m_src c1)) as -> by lia.
    rewrite get_append_NUL. reflexivity.
  - rewrite <- String.append_correct1 by assumption. reflexivity.
Qed.

Lemma truncated_moved (c1 c2 : state) :
  truncated c1 c2 -> peek c1 <> NUL -> truncated (moved c1) (moved c2).
Proof.
  intros [Hsrc Hpos Hk Hf Hinv] Hp.
  constructor; simpl; try assumption; try congruence.
  unfold cursor_inv. simpl.
  apply (PeekChar_not_NUL c1 (peek c1) (PeekChar_peek c1) Hp).
Qed.

Lemma simM_ret {A} (a : A) : simM (mret a : M A).
Proof. intros c1 c2 H. split; [reflexivity | exact H]. Qed.

Lemma simM_throw {A} (e : exception) : simM (@throw A e).
Proof. intros c1 c2 H. split; [reflexivity | exact H]. Qed.

Lemma simM_out_of_fuel {A} : simM (@out_of_fuel A).
Proof. intros c1 c2 H. split; [reflexivity | exact H]. Qed.

Lemma simM_throw_ParseError {A} (message : string) :
  simM (@throw_ParseError A message).
Proof.
  intros c1 c2 H. rewrite !throw_ParseError_eq. simpl.
  split; [|exact H]. now rewrite (trunc_pos _ _ H).
Qed.

Lemma simM_find_function (symbol : string) : simM (find_function symbol).
Proof.
  intros c1 c2 H. unfold find_function. simpl.
  split; [|exact H]. now rewrite (trunc_functions _ _ H).
Qed.

Lemma simM_find_constant (symbol : string) : simM (find_constant symbol).
Proof.
  intros c1 c2 H. unfold find_constant. simpl.
  split; [|exact H]. now rewrite (trunc_constants _ _ H).
Qed.

Lemma simM_PeekChar : simM PeekChar.
Proof.
  intros c1 c2 H. rewrite !PeekChar_peek. simpl.
  split; [|exact H]. now rewrite (truncated_peek _ _ H).
Qed.

Lemma simM_GetChar : simM GetChar.
Proof.
  intros c1 c2 H.
  rewrite (GetChar_eq c1 _ (PeekChar_peek c1)), (GetChar_eq c2 _ (PeekChar_peek c2)).
  rewrite (truncated_peek _ _ H). simpl. split; [reflexivity|].
  destruct (Ascii.eqb_spec (peek c1) NUL); [exact H|].
  apply truncated_moved; assumption.
Qed.

Lemma simM_bind {A B} (m : M A) (k : A -> M B) :
  simM m -> (forall a, simM (k a)) -> simM (m ≫= k).
Proof.
  intros Hm Hk c1 c2 H. rewrite !bind_eq.
  destruct (Hm c1 c2 H) as [Hr Hc].
  destruct (m c1) as [r1 c1'], (m c2) as [r2 c2']. simpl in *. subst r2.
  destruct r1 as [a|e|]; simpl; auto.
  apply Hk, Hc.
Qed.

Create HintDb simM.

#[local] Hint Resolve simM_ret simM_throw_ParseError simM_throw
  simM_out_of_fuel simM_PeekChar simM_GetChar simM_find_function
  simM_find_constant : simM.

Ltac simM_go :=
  repeat first
    [ solve [auto 1 with simM nocore]
    | apply simM_bind; [|intros ?]
    | match goal with
      | |- simM (match ?x with _ => _ end) => destruct x
      end ].

Lemma simM_Consume (ch : ascii) : simM (Consume ch).
Proof. unfold Consume. simM_go. Qed.

Lemma simM_while_peek {A} (fuel : nat) (test : ascii -> bool)
    (f : A -> ascii -> A) (acc : A) :
  simM (while_peek fuel test f acc).
Proof.
  revert acc. induction fuel as [|fuel IH]; intros acc; simpl; simM_go.
Qed.

Lemma simM_SkipWhite (fuel : nat) : simM (SkipWhite fuel).
Proof. apply simM_while_peek. Qed.

#[local] Hint Resolve simM_Consume simM_while_peek simM_SkipWhite : simM.

Lemma simM_GetSymbol (fuel : nat) : simM (GetSymbol fuel).
Proof. unfold GetSymbol. simM_go. Qed.

Lemma simM_GetConstant_sign (s : string) : simM (GetConstant_sign s).
Proof. unfold GetConstant_sign. simM_go. Qed.

Lemma simM_GetConstant_fraction (fuel : nat) (s : string) :
  simM (GetConstant_fraction fuel s).
Proof. unfold GetConstant_fraction. simM_go. Qed.

#[local] Hint Resolve simM_GetSymbol simM_GetConstant_sign
  simM_GetConstant_fraction : simM.

Lemma simM_GetConstant_exponent (fuel : nat) (s : string) :
  simM (GetConstant_exponent fuel s).
Proof. unfold GetConstant_exponent. simM_go. Qed.

#[local] Hint Resolve simM_GetConstant_exponent : simM.

Lemma simM_GetConstant_gather (fuel : nat) : simM (GetConstant_gather fuel).
Proof. unfold GetConstant_gather. simM_go. Qed.

#[local] Hint Resolve simM_GetConstant_gather : simM.

Lemma simM_GetConstant (fuel : nat) : simM (GetConstant fuel).
Proof. unfold GetConstant. simM_go. Qed.

#[local] Hint Resolve simM_GetConstant : simM.

Lemma simM_ParseSum_body (fuel : nat) (P : M float) :
  simM P -> simM (ParseSum_body fuel P).
Proof. intros HP. unfold ParseSum_body. simM_go. Qed.

Lemma simM_ParseProduct_body (fuel : nat) (T S : M float) :
  simM T -> simM S -> simM (ParseProduct_body fuel T S).
Proof. intros HT HS. unfold ParseProduct_body. simM_go. Qed.

Lemma simM_ParseTerm_body (fuel : nat) (S I : M float) :
  simM S -> simM I -> simM (ParseTerm_body fuel S I).
Proof. intros HS HI. unfold ParseTerm_body. simM_go. Qed.

Lemma simM_ParseIdentifier_body (fuel : nat) (S : M float) :
  simM S -> simM (ParseIdentifier_body fuel S).
Proof. intros HS. unfold ParseIdentifier_body. simM_go. Qed.

Lemma simM_Parse (fuel : nat) :
  simM (ParseSum fuel) /\ simM (ParseProduct fuel)
  /\ simM (ParseTerm fuel) /\ simM (ParseIdentifier fuel).
Proof.
  induction fuel as [|n (HS & HP & HT & HI)].
  - split; [|split; [|split]]; apply simM_out_of_fuel.
  - split; [|split; [|split]].
    + apply (simM_ParseSum_body (S n)), HP.
    + apply (simM_ParseProduct_body (S n)); assumption.
    + apply (simM_ParseTerm_body (S n)); assumption.
    + apply (simM_ParseIdentifier_body (S n)), HS.
Qed.

Lemma simM_ParseSum (fuel : nat) : simM (ParseSum fuel).
Proof. apply simM_Parse. Qed.

#[local] Hint Resolve simM_ParseSum : simM.

Lemma simM_ParseExpression (fuel : nat) : simM (ParseExpression fuel).
Proof. unfold ParseExpression. simM_go. Qed.

Lemma truncated_Calc (L : libm) (s1 s2 : string) :
  truncated (Calc L s1) (Calc L (s1 +:+ String NUL s2)).
Proof.
  constructor; simpl; try reflexivity.
  - exists s2. reflexivity.
  - unfold cursor_inv. simpl. lia.
Qed.

Lemma Evaluate_source_more_fuel (L : libm) (src : string) (fuel : nat) :
  fuel_for src <= fuel ->
  (Evaluate fuel (Calc L src)).1 = Evaluate_source L src.
Proof.
  intros H. unfold Evaluate_source.
  rewrite (refines_Evaluate (fuel_for src) fuel H (Calc L src)); [reflexivity|].
  apply fuel_for_enough.
Qed.

(** ** The cursor seen from the text *)

Lemma append_nil_r (s : string) : s +:+ EmptyString = s.
Proof. induction s as [|ch s IH]; [reflexivity|]. change (String ch (s +:+ EmptyString) = String ch s). now rewrite IH. Qed.

Lemma append_assoc (s1 s2 s3 : string) : (s1 +:+ s2) +:+ s3 = s1 +:+ (s2 +:+ s3).
Proof.
  induction s1 as [|ch s1 IH]; [reflexivity|].
  change (String ch ((s1 +:+ s2) +:+ s3) = String ch (s1 +:+ (s2 +:+ s3))).
  now rewrite IH.
Qed.

Lemma append_cons (ch : ascii) (s1 s2 : string) :
  String ch s1 +:+ s2 = String ch (s1 +:+ s2).
Proof. reflexivity. Qed.

Lemma push_back_append (s : string) (ch : ascii) (t : string) :
  push_back s ch +:+ t = s +:+ String ch t.
Proof. unfold push_back. rewrite append_assoc. reflexivity. Qed.

Lemma length_push_back (s : string) (ch : ascii) :
  String.length (push_back s ch) = S (String.length s).
Proof. unfold push_back. rewrite length_append. simpl. lia. Qed.

Lemma skip_0 (c : state) : skip 0 c = c.
Proof. destruct c. reflexivity. Qed.

Lemma skip_moved (n : nat) (c : state) : skip n (moved c) = skip (S n) c.
Proof. unfold skip, moved. simpl. f_equal. lia. Qed.

Lemma moved_skip (c : state) : moved c = skip 1 c.
Proof. reflexivity. Qed.

Lemma at_cursor_start (L : libm) (src : string) :
  at_cursor (Calc L src) EmptyString src.
Proof. constructor; reflexivity. Qed.

Lemma at_cursor_peek (c : state) (pre rest : string) :
  at_cursor c pre rest -> peek c = head rest.
Proof.
  intros [Hs Hp]. unfold peek. rewrite Hs, Hp, length_append.
  destruct rest as [|ch r]; simpl.
  - destruct (Nat.leb_spec (String.length pre + 0) (String.length pre)); [reflexivity | lia].
  - destruct (Nat.leb_spec (String.length pre + S (String.length r)) (String.length pre)); [lia|].
    change (String.length pre) with (0 + String.length pre) at 1.
    rewrite <- (String.append_correct2 pre (String ch r) 0). reflexivity.
Qed.

Lemma at_cursor_PeekChar (c : state) (pre rest : string) :
  at_cursor c pre rest -> PeekChar c = (Ok (head rest), c).
Proof. intros H. rewrite PeekChar_peek, (at_cursor_peek c pre rest H). reflexivity. Qed.

Lemma at_cursor_moved (c : state) (pre : string) (ch : ascii) (rest : string) :
  at_cursor c pre (String ch rest) -> at_cursor (moved c) (push_back pre ch) rest.
Proof.
  intros [Hs Hp]. constructor; simpl.
  - rewrite push_back_append. exact Hs.
  - rewrite length_push_back, Hp. reflexivity.
Qed.

Lemma at_cursor_GetChar (c : state) (pre : string) (ch : ascii) (rest : string) :
  at_cursor c pre (String ch rest) -> ch <> NUL -> GetChar c = (Ok ch, moved c).
Proof.
  intros H Hch. apply GetChar_moves; [|exact Hch].
  apply (at_cursor_PeekChar c pre (String ch rest) H).
Qed.

Lemma span_append (test : ascii -> bool) (t : string) :
  (span test t).1 +:+ (span test t).2 = t.
Proof.
  induction t as [|ch r IH]; simpl; [reflexivity|].
  destruct (test ch); [|reflexivity].
  destruct (span test r) as [run rest]. simpl in *.
  rewrite append_cons, IH. reflexivity.
Qed.

Lemma span_head (test : ascii -> bool) (t : string) :
  test NUL = false -> test (head (span test t).2) = false.
Proof.
  intros Ht. induction t as [|ch r IH]; simpl; [exact Ht|].
  destruct (test ch) eqn:E; [|exact E].
  destruct (span test r) as [run rest]. exact IH.
Qed.

Lemma span_run (test : ascii -> bool) (run rest : string) :
  every test run = true -> test (head rest) = false ->
  span test (run +:+ rest) = (run, rest).
Proof.
  intros Hrun Hrest. induction run as [|ch r IH].
  - change (EmptyString +:+ rest) with rest.
    destruct rest as [|ch r]; simpl in *; [reflexivity | now rewrite Hrest].
  - rewrite append_cons. simpl in *.
    apply andb_true_iff in Hrun as [-> Hr]. now rewrite (IH Hr).
Qed.

Lemma span_length (test : ascii -> bool) (t : string) :
  String.length (span test t).1 + String.length (span test t).2 = String.length t.
Proof.
  rewrite <- (span_append test t) at 3. rewrite length_append. reflexivity.
Qed.

Lemma fold_push_back (s run : string) : fold_string push_back s run = s +:+ run.
Proof.
  revert s. induction run as [|ch r IH]; intros s; simpl.
  - now rewrite append_nil_r.
  - rewrite IH. apply push_back_append.
Qed.

(** A loop reads the longest run of characters that pass its test. *)
Lemma while_peek_span {A} (fuel : nat) (test : ascii -> bool)
    (f : A -> ascii -> A) (acc : A) (c : state) (pre text : string) :
  test NUL = false -> at_cursor c pre text ->
  String.length (span test text).1 < fuel ->
  while_peek fuel test f acc c
  = (Ok (fold_string f acc (span test text).1),
     skip (String.length (span test text).1) c).
Proof.
  intros Ht. revert acc c pre text.
  induction fuel as [|fuel IH]; intros acc c pre text Hat Hlen; [lia|].
  simpl while_peek. rewrite (bind_Ok _ _ _ _ _ (at_cursor_PeekChar c pre text Hat)).
  destruct text as [|ch r]; simpl in *.
  - rewrite Ht, skip_0. reflexivity.
  - destruct (test ch) eqn:E; simpl; [|now rewrite skip_0].
    assert (ch <> NUL) as Hch by congruence.
    rewrite (bind_Ok _ _ _ _ _ (at_cursor_GetChar c pre ch r Hat Hch)).
    destruct (span test r) as [run rest] eqn:Er. simpl in *.
    pose proof (IH (f acc ch) (moved c) (push_back pre ch) r
                  (at_cursor_moved c pre ch r Hat)) as IH'.
    rewrite Er in IH'. simpl in IH'. rewrite IH' by lia.
    rewrite skip_moved. reflexivity.
Qed.

Lemma SkipWhite_span (fuel : nat) (c : state) (pre text : string) :
  at_cursor c pre text ->
  String.length (span ctype.isspace text).1 < fuel ->
  SkipWhite fuel c = (Ok tt, skip (String.length (span ctype.isspace text).1) c).
Proof.
  intros Hat Hlen. unfold SkipWhite.
  rewrite (while_peek_span fuel ctype.isspace _ tt c pre text eq_refl Hat Hlen).
  f_equal. now destruct (fold_string _ tt _).
Qed.

Lemma SkipWhite_none (fuel : nat) (c : state) (pre text : string) :
  at_cursor c pre text -> ctype.isspace (head text) = false -> 0 < fuel ->
  SkipWhite fuel c = (Ok tt, c).
Proof.
  intros Hat Hh Hf.
  pose proof (span_run ctype.isspace EmptyString text eq_refl Hh) as E.
  change (EmptyString +:+ text) with text in E.
  rewrite (SkipWhite_span fuel c pre text Hat); rewrite E; simpl; [|lia].
  now rewrite skip_0.
Qed.

(** ** The lexical procedures seen from the text *)

Lemma zip_at_cursor (c : state) (pre text : string) :
  m_src c = pre +:+ text -> at_cursor (zip c pre) pre text.
Proof. intros H. constructor; [exact H | reflexivity]. Qed.

Lemma skip_zip (n : nat) (c : state) (pre run : string) :
  String.length run = n -> skip n (zip c pre) = zip c (pre +:+ run).
Proof. intros <-. unfold skip, zip. simpl. rewrite length_append. f_equal. lia. Qed.

Lemma zip_start (L : libm) (src : string) : zip (Calc L src) EmptyString = Calc L src.
Proof. reflexivity. Qed.

Lemma zip_PeekChar (c : state) (pre text : string) :
  m_src c = pre +:+ text -> PeekChar (zip c pre) = (Ok (head text), zip c pre).
Proof. intros H. apply (at_cursor_PeekChar _ pre text), zip_at_cursor, H. Qed.

Lemma zip_GetChar (c : state) (pre : string) (ch : ascii) (text : string) :
  m_src c = pre +:+ String ch text -> ch <> NUL ->
  GetChar (zip c pre) = (Ok ch, zip c (push_back pre ch)).
Proof.
  intros H Hch.
  rewrite (at_cursor_GetChar _ pre ch text (zip_at_cursor c pre _ H) Hch).
  rewrite moved_skip, (skip_zip 1 c pre (String ch EmptyString) eq_refl).
  reflexivity.
Qed.

Lemma zip_while_peek {A} (fuel : nat) (test : ascii -> bool)
    (f : A -> ascii -> A) (acc : A) (c : state) (pre text : string) :
  test NUL = false -> m_src c = pre +:+ text -> String.length text < fuel ->
  while_peek fuel test f acc (zip c pre)
  = (Ok (fold_string f acc (span test text).1),
     zip c (pre +:+ (span test text).1)).
Proof.
  intros Ht H Hlen. pose proof (span_length test text).
  rewrite (while_peek_span fuel test f acc _ pre text Ht (zip_at_cursor c pre _ H))
    by lia.
  rewrite (skip_zip _ c pre _ eq_refl). reflexivity.
Qed.

Lemma zip_SkipWhite (fuel : nat) (c : state) (pre text : string) :
  m_src c = pre +:+ text -> String.length text < fuel ->
  SkipWhite fuel (zip c pre)
  = (Ok tt, zip c (pre +:+ (span ctype.isspace text).1)).
Proof.
  intros H Hlen. unfold SkipWhite.
  rewrite (zip_while_peek fuel ctype.isspace _ tt c pre text eq_refl H Hlen).
  f_equal. now destruct (fold_string _ tt _).
Qed.

Lemma zip_SkipWhite_none (fuel : nat) (c : state) (pre text : string) :
  m_src c = pre +:+ text -> ctype.isspace (head text) = false -> 0 < fuel ->
  SkipWhite fuel (zip c pre) = (Ok tt, zip c pre).
Proof.
  intros H Hh Hf. apply (SkipWhite_none fuel _ pre text); auto using zip_at_cursor.
Qed.

(** Each stage keeps the text as a whole. *)
Lemma lex_sign_append (s t : string) :
  (lex_sign s t).1 +:+ (lex_sign s t).2 = s +:+ t.
Proof.
  unfold lex_sign. destruct t as [|ch r]; [reflexivity|].
  destruct (Ascii.eqb ch "+" || Ascii.eqb ch "-"); simpl; [|reflexivity].
  apply push_back_append.
Qed.

Lemma lex_digits_append (s t : string) :
  (lex_digits s t).1 +:+ (lex_digits s t).2 = s +:+ t.
Proof. unfold lex_digits. simpl. rewrite append_assoc, span_append. reflexivity. Qed.

Lemma lex_fraction_append (s t : string) :
  (lex_fraction s t).1 +:+ (lex_fraction s t).2 = s +:+ t.
Proof.
  unfold lex_fraction. destruct t as [|ch r]; [reflexivity|].
  destruct (Ascii.eqb ch "."); [|reflexivity].
  rewrite lex_digits_append. apply push_back_append.
Qed.

Lemma append_push_back (pre s : string) (ch : ascii) (r : string) :
  (pre +:+ push_back s ch) +:+ r = (pre +:+ s) +:+ String ch r.
Proof. unfold push_back. rewrite !append_assoc. reflexivity. Qed.

Lemma zip_GetConstant_sign (s : string) (c : state) (pre t : string) :
  m_src c = (pre +:+ s) +:+ t ->
  GetConstant_sign s (zip c (pre +:+ s))
  = (Ok (lex_sign s t).1, zip c (pre +:+ (lex_sign s t).1)).
Proof.
  intros H. unfold GetConstant_sign, lex_sign.
  rewrite (bind_Ok _ _ _ _ _ (zip_PeekChar c _ t H)).
  destruct t as [|ch r]; simpl; [reflexivity|].
  destruct (Ascii.eqb ch "+" || Ascii.eqb ch "-") eqn:E; [|reflexivity].
  assert (ch <> NUL) as Hch by (intros ->; discriminate E).
  rewrite (bind_Ok _ _ _ _ _ (zip_GetChar c _ ch r H Hch)). simpl.
  unfold push_back. rewrite append_assoc. reflexivity.
Qed.

Lemma zip_digits (fuel : nat) (s : string) (c : state) (pre t : string) :
  m_src c = (pre +:+ s) +:+ t -> String.length t < fuel ->
  while_peek fuel ctype.isdigit push_back s (zip c (pre +:+ s))
  = (Ok (lex_digits s t).1, zip c (pre +:+ (lex_digits s t).1)).
Proof.
  intros H Hlen. unfold lex_digits. simpl.
  rewrite (zip_while_peek fuel ctype.isdigit _ s c _ t eq_refl H Hlen).
  rewrite fold_push_back, append_assoc. reflexivity.
Qed.

Lemma zip_GetConstant_fraction (fuel : nat) (s : string) (c : state)
    (pre t : string) :
  m_src c = (pre +:+ s) +:+ t -> String.length t < fuel ->
  GetConstant_fraction fuel s (zip c (pre +:+ s))
  = (Ok (lex_fraction s t).1, zip c (pre +:+ (lex_fraction s t).1)).
Proof.
  intros H Hlen. unfold GetConstant_fraction, lex_fraction.
  rewrite (bind_Ok _ _ _ _ _ (zip_PeekChar c _ t H)).
  destruct t as [|ch r]; simpl; [reflexivity|].
  destruct (Ascii.eqb_spec ch ".") as [->|Hne]; [|reflexivity].
  rewrite (bind_Ok _ _ _ _ _ (zip_GetChar c _ "." r H ltac:(discriminate))).
  assert (push_back (pre +:+ s) "." = pre +:+ push_back s ".") as ->
    by (unfold push_back; apply append_assoc).
  apply zip_digits.
  - rewrite append_push_back. exact H.
  - simpl in Hlen. lia.
Qed.

Lemma lex_sign_length (s t : string) :
  String.length (lex_sign s t).2 <= String.length t.
Proof.
  unfold lex_sign. destruct t as [|ch r]; [reflexivity|].
  destruct (Ascii.eqb ch "+" || Ascii.eqb ch "-"); simpl; lia.
Qed.

Lemma zip_GetConstant_exponent (fuel : nat) (s : string) (c : state)
    (pre t : string) :
  m_src c = (pre +:+ s) +:+ t -> String.length t < fuel ->
  GetConstant_exponent fuel s (zip c (pre +:+ s))
  = let '(ok, (s', _)) := lex_exponent s t in
    let c' := zip c (pre +:+ s') in
    if ok then (Ok s', c')
    else (Throw (ParseError "Expected exponent in floating point constant."
                   (m_currentPosition c')), c').
Proof.
  intros H Hlen. unfold GetConstant_exponent, lex_exponent.
  rewrite (bind_Ok _ _ _ _ _ (zip_PeekChar c _ t H)).
  destruct t as [|ch r]; cbn [head]; [reflexivity|].
  destruct (Ascii.eqb ch "e" || Ascii.eqb ch "E") eqn:E; [|reflexivity].
  assert (ch <> NUL) as Hch by (intros ->; discriminate E).
  rewrite (bind_Ok _ _ _ _ _ (zip_GetChar c _ ch r H Hch)).
  assert (push_back (pre +:+ s) ch = pre +:+ push_back s ch) as ->
    by (unfold push_back; apply append_assoc).
  assert (H1 : m_src c = (pre +:+ push_back s ch) +:+ r)
    by (rewrite append_push_back; exact H).
  rewrite (bind_Ok _ _ _ _ _ (zip_GetConstant_sign _ c pre r H1)).
  pose proof (lex_sign_append (push_back s ch) r) as Hs.
  pose proof (lex_sign_length (push_back s ch) r) as Hl.
  destruct (lex_sign (push_back s ch) r) as [s1 t1]. cbn [fst snd] in *.
  assert (H2 : m_src c = (pre +:+ s1) +:+ t1)
    by (rewrite append_assoc, Hs, <- append_assoc; exact H1).
  rewrite (bind_Ok _ _ _ _ _ (zip_PeekChar c _ t1 H2)).
  destruct (ctype.isdigit (head t1)); cbn [negb]; [|reflexivity].
  rewrite (zip_digits fuel s1 c pre t1 H2) by (simpl in Hlen; lia).
  destruct (lex_digits s1 t1). reflexivity.
Qed.


Lemma lex_digits_length (s t : string) :
  String.length (lex_digits s t).2 <= String.length t.
Proof. unfold lex_digits. pose proof (span_length ctype.isdigit t). simpl. lia. Qed.

Lemma lex_fraction_length (s t : string) :
  String.length (lex_fraction s t).2 <= String.length t.
Proof.
  unfold lex_fraction. destruct t as [|ch r]; [reflexivity|].
  destruct (Ascii.eqb ch "."); [|reflexivity].
  pose proof (lex_digits_length (push_back s ch) r).
  change (String.length (String ch r)) with (S (String.length r)). lia.
Qed.

Lemma zip_GetConstant_gather (fuel : nat) (c : state) (pre text : string) :
  m_src c = pre +:+ text -> String.length text < fuel ->
  GetConstant_gather fuel (zip c pre)
  = let '(ok, (s, _)) := lex_constant text in
    let c' := zip c ((pre +:+ (span ctype.isspace text).1) +:+ s) in
    if ok then (Ok s, c')
    else (Throw (ParseError "Expected exponent in floating point constant."
                   (m_currentPosition c')), c').
Proof.
  intros H Hlen. unfold GetConstant_gather, lex_constant, lex_mantissa.
  rewrite (bind_Ok _ _ _ _ _ (zip_SkipWhite fuel c pre text H Hlen)).
  pose proof (span_append ctype.isspace text) as Hw.
  pose proof (span_length ctype.isspace text) as Hwl.
  destruct (span ctype.isspace text) as [ws t0]. cbn [fst snd] in *.
  set (pre0 := pre +:+ ws).
  assert (H0 : m_src c = (pre0 +:+ EmptyString) +:+ t0).
  { rewrite append_nil_r. unfold pre0. rewrite append_assoc, Hw. exact H. }
  rewrite <- (append_nil_r pre0) at 1.
  rewrite (bind_Ok _ _ _ _ _ (zip_GetConstant_sign _ c pre0 t0 H0)).
  pose proof (lex_sign_append EmptyString t0) as Hs1.
  pose proof (lex_sign_length EmptyString t0) as Hl1.
  destruct (lex_sign EmptyString t0) as [s1 t1]. cbn [fst snd] in *.
  assert (H1 : m_src c = (pre0 +:+ s1) +:+ t1)
    by (rewrite append_assoc, Hs1, <- append_assoc; exact H0).
  rewrite (bind_Ok _ _ _ _ _ (zip_digits fuel s1 c pre0 t1 H1 ltac:(lia))).
  pose proof (lex_digits_append s1 t1) as Hs2.
  pose proof (lex_digits_length s1 t1) as Hl2.
  destruct (lex_digits s1 t1) as [s2 t2]. cbn [fst snd] in *.
  assert (H2 : m_src c = (pre0 +:+ s2) +:+ t2)
    by (rewrite append_assoc, Hs2, <- append_assoc; exact H1).
  rewrite (bind_Ok _ _ _ _ _
             (zip_GetConstant_fraction fuel s2 c pre0 t2 H2 ltac:(lia))).
  pose proof (lex_fraction_append s2 t2) as Hs3.
  pose proof (lex_fraction_length s2 t2) as Hl3.
  destruct (lex_fraction s2 t2) as [s3 t3]. cbn [fst snd] in *.
  assert (H3 : m_src c = (pre0 +:+ s3) +:+ t3)
    by (rewrite append_assoc, Hs3, <- append_assoc; exact H2).
  rewrite (zip_GetConstant_exponent fuel s3 c pre0 t3 H3 ltac:(lia)).
  destruct (lex_exponent s3 t3) as [[|] [s t]]; reflexivity.
Qed.

Lemma zip_GetConstant (fuel : nat) (c : state) (pre text : string) :
  m_src c = pre +:+ text -> String.length text < fuel ->
  GetConstant fuel (zip c pre)
  = let '(ok, (s, _)) := lex_constant text in
    let c' := zip c ((pre +:+ (span ctype.isspace text).1) +:+ s) in
    if ok then
      match stod s with
      | stod_value d => (Ok d, c')
      | stod_invalid_argument =>
          (Throw (ParseError "Invalid float." (m_currentPosition c')), c')
      | stod_out_of_range => (Throw std_out_of_range, c')
      end
    else (Throw (ParseError "Expected exponent in floating point constant."
                   (m_currentPosition c')), c').
Proof.
  intros H Hlen. unfold GetConstant.
  rewrite bind_eq, (zip_GetConstant_gather fuel c pre text H Hlen).
  destruct (lex_constant text) as [[|] [s t]]; cbv beta iota zeta;
    [|reflexivity].
  destruct (stod s); reflexivity.
Qed.

(** The gathered text is the text that stands in the source after the
    white space, and it is not empty when the first character can begin a
    numeral. *)
Lemma lex_exponent_append (s t : string) :
  (lex_exponent s t).2.1 +:+ (lex_exponent s t).2.2 = s +:+ t.
Proof.
  unfold lex_exponent. destruct t as [|ch r]; [reflexivity|].
  destruct (Ascii.eqb ch "e" || Ascii.eqb ch "E"); [|reflexivity].
  pose proof (lex_sign_append (push_back s ch) r) as Hs.
  destruct (lex_sign (push_back s ch) r) as [s1 t1]. simpl in Hs.
  destruct (ctype.isdigit (head t1)); cbn [fst snd].
  - rewrite lex_digits_append, Hs. apply push_back_append.
  - rewrite Hs. apply push_back_append.
Qed.

Lemma lex_constant_append (text : string) :
  (span ctype.isspace text).1
  +:+ (lex_constant text).2.1 +:+ (lex_constant text).2.2 = text.
Proof.
  unfold lex_constant, lex_mantissa.
  pose proof (span_append ctype.isspace text) as Hw.
  destruct (span ctype.isspace text) as [ws t0]. cbn [fst snd] in *.
  pose proof (lex_sign_append EmptyString t0) as H1.
  destruct (lex_sign EmptyString t0) as [s1 t1]. cbn [fst snd] in *.
  pose proof (lex_digits_append s1 t1) as H2.
  destruct (lex_digits s1 t1) as [s2 t2]. cbn [fst snd] in *.
  pose proof (lex_fraction_append s2 t2) as H3.
  destruct (lex_fraction s2 t2) as [s3 t3]. cbn [fst snd] in *.
  rewrite lex_exponent_append, H3, H2, H1. exact Hw.
Qed.

Lemma lex_digits_grows (s t : string) :
  String.length s <= String.length (lex_digits s t).1.
Proof. unfold lex_digits. cbn [fst]. rewrite length_append. lia. Qed.

Lemma lex_fraction_grows (s t : string) :
  String.length s <= String.length (lex_fraction s t).1.
Proof.
  unfold lex_fraction. destruct t as [|ch r]; [reflexivity|].
  destruct (Ascii.eqb ch "."); [|reflexivity].
  pose proof (lex_digits_grows (push_back s ch) r) as H.
  rewrite length_push_back in H. lia.
Qed.

Lemma lex_sign_grows (s t : string) :
  String.length s <= String.length (lex_sign s t).1.
Proof.
  unfold lex_sign. destruct t as [|ch r]; [reflexivity|].
  destruct (Ascii.eqb ch "+" || Ascii.eqb ch "-"); cbn [fst];
    [rewrite length_push_back|]; lia.
Qed.

Lemma lex_exponent_grows (s t : string) :
  String.length s <= String.length (lex_exponent s t).2.1.
Proof.
  unfold lex_exponent. destruct t as [|ch r]; [reflexivity|].
  destruct (Ascii.eqb ch "e" || Ascii.eqb ch "E"); [|reflexivity].
  pose proof (lex_sign_grows (push_back s ch) r) as H.
  rewrite length_push_back in H.
  destruct (lex_sign (push_back s ch) r) as [s1 t1]. cbn [fst] in H.
  destruct (ctype.isdigit (head t1)); cbn [fst snd]; [|lia].
  pose proof (lex_digits_grows s1 t1). lia.
Qed.

Lemma first_char_cases (ch : ascii) :
  IsFirstCharOfDouble ch = true ->
  Ascii.eqb ch "+" || Ascii.eqb ch "-" = true
  \/ (Ascii.eqb ch "+" || Ascii.eqb ch "-" = false /\ ctype.isdigit ch = true)
  \/ (Ascii.eqb ch "+" || Ascii.eqb ch "-" = false /\ ctype.isdigit ch = false
      /\ ch = "."%char).
Proof.
  destruct ch as [[] [] [] [] [] [] [] []]; vm_compute; intros H;
    try discriminate H; auto.
Qed.

Lemma lex_mantissa_nonempty (t : string) :
  IsFirstCharOfDouble (head t) = true -> 0 < String.length (lex_mantissa t).1.
Proof.
  intros H. unfold lex_mantissa, lex_sign.
  destruct t as [|ch r]; [discriminate H|]. cbn [head] in H.
  destruct (first_char_cases ch H) as [E | [[E Hd] | (E & Hd & ->)]]; rewrite E.
  - pose proof (lex_digits_grows (push_back EmptyString ch) r) as H2.
    destruct (lex_digits (push_back EmptyString ch) r) as [s2 t2].
    pose proof (lex_fraction_grows s2 t2). cbn [fst] in *.
    rewrite length_push_back in H2. lia.
  - unfold lex_digits. cbn [span]. rewrite Hd.
    destruct (span ctype.isdigit r) as [run rest]. cbn [fst snd].
    pose proof (lex_fraction_grows (EmptyString +:+ String ch run) rest) as H3.
    rewrite length_append in H3. simpl in H3. lia.
  - unfold lex_digits. cbn [span]. change (ctype.isdigit ".") with false.
    cbv iota. cbn [fst snd]. unfold lex_fraction. cbn [Ascii.eqb Bool.eqb].
    pose proof (lex_digits_grows (push_back (EmptyString +:+ EmptyString) ".") r).
    rewrite length_push_back in *. lia.
Qed.

Lemma lex_constant_nonempty (text : string) :
  IsFirstCharOfDouble (head (span ctype.isspace text).2) = true ->
  0 < String.length (lex_constant text).2.1.
Proof.
  intros H. unfold lex_constant.
  pose proof (lex_mantissa_nonempty _ H) as Hm.
  destruct (lex_mantissa (span ctype.isspace text).2) as [s3 t3]. cbn [fst] in Hm.
  pose proof (lex_exponent_grows s3 t3). lia.
Qed.

Lemma substring_append (a b c : string) :
  String.substring (String.length a) (String.length b) (a +:+ b +:+ c) = b.
Proof.
  induction a as [|ch a IH]; [|exact IH].
  change (EmptyString +:+ b +:+ c) with (b +:+ c). simpl String.length.
  induction b as [|ch b IH].
  - destruct c; reflexivity.
  - rewrite append_cons. simpl. now rewrite IH.
Qed.

Lemma zip_GetSymbol (fuel : nat) (c : state) (pre text : string) :
  m_src c = pre +:+ text -> String.length text < fuel ->
  GetSymbol fuel (zip c pre)
  = let '(ws, t0) := span ctype.isspace text in
    if ctype.isalpha (head t0)
    then (Ok (span ctype.isalnum t0).1,
          zip c ((pre +:+ ws) +:+ (span ctype.isalnum t0).1))
    else (Throw (ParseError "Expected alpha character at beginning of symbol."
                   (String.length (pre +:+ ws))), zip c (pre +:+ ws)).
Proof.
  intros H Hlen. unfold GetSymbol.
  rewrite (bind_Ok _ _ _ _ _ (zip_SkipWhite fuel c pre text H Hlen)).
  pose proof (span_append ctype.isspace text) as Hw.
  pose proof (span_length ctype.isspace text) as Hwl.
  destruct (span ctype.isspace text) as [ws t0]. cbn [fst snd] in *.
  assert (H0 : m_src c = (pre +:+ ws) +:+ t0)
    by (rewrite append_assoc, Hw; exact H).
  rewrite (bind_Ok _ _ _ _ _ (zip_PeekChar c _ t0 H0)).
  destruct (ctype.isalpha (head t0)); cbn [negb]; [|reflexivity].
  rewrite (zip_while_peek fuel ctype.isalnum _ EmptyString c _ t0 eq_refl H0)
    by lia.
  rewrite fold_push_back. reflexivity.
Qed.

(** ** One level of the recursion *)

Lemma ParseSum_S (n : nat) :
  ParseSum (S n) = ParseSum_body (S n) (ParseProduct n).
Proof. reflexivity. Qed.

Lemma ParseProduct_S (n : nat) :
  ParseProduct (S n) = ParseProduct_body (S n) (ParseTerm n) (ParseSum n).
Proof. reflexivity. Qed.

Lemma ParseTerm_S (n : nat) :
  ParseTerm (S n) = ParseTerm_body (S n) (ParseSum n) (ParseIdentifier n).
Proof. reflexivity. Qed.

Lemma ParseIdentifier_S (n : nat) :
  ParseIdentifier (S n) = ParseIdentifier_body (S n) (ParseSum n).
Proof. reflexivity. Qed.

(** ** Numerals and symbols, part by part *)

Lemma head_append (s t : string) :
  s <> EmptyString -> head (s +:+ t) = head s.
Proof. destruct s; [congruence | reflexivity]. Qed.

Lemma every_head (test : ascii -> bool) (s : string) :
  every test s = true -> s <> EmptyString -> test (head s) = true.
Proof.
  destruct s as [|ch r]; [congruence|]. simpl.
  intros H _. now apply andb_true_iff in H as [H _].
Qed.

Ltac by_cases_on ch :=
  destruct ch as [[] [] [] [] [] [] [] []]; vm_compute; congruence.

Ltac by_cases_on_then ch :=
  destruct ch as [[] [] [] [] [] [] [] []]; vm_compute;
  try congruence; intros _; repeat split; auto; congruence.

Lemma digit_not_sign (ch : ascii) : ctype.isdigit ch = true -> is_sign ch = false.
Proof.
  unfold is_sign. intros H.
  destruct (Ascii.eqb_spec ch "+") as [->|_]; [discriminate H|].
  destruct (Ascii.eqb_spec ch "-") as [->|_]; [discriminate H|]. reflexivity.
Qed.

Lemma lex_sign_text (s sgn t : string) :
  sign_text sgn = true -> (sgn = EmptyString -> is_sign (head t) = false) ->
  lex_sign s (sgn +:+ t) = (s +:+ sgn, t).
Proof.
  intros Hs Ht. destruct sgn as [|ch [|? ?]]; try discriminate Hs.
  - change (EmptyString +:+ t) with t. rewrite append_nil_r.
    specialize (Ht eq_refl). unfold lex_sign, is_sign in *.
    destruct t as [|ch r]; [reflexivity|]. simpl in Ht. now rewrite Ht.
  - simpl in Hs. unfold is_sign in Hs.
    change (String ch EmptyString +:+ t) with (String ch t).
    unfold lex_sign. now rewrite Hs.
Qed.

Lemma lex_digits_text (s ds t : string) :
  every ctype.isdigit ds = true -> ctype.isdigit (head t) = false ->
  lex_digits s (ds +:+ t) = (s +:+ ds, t).
Proof. intros Hd Ht. unfold lex_digits. now rewrite (span_run _ ds t Hd Ht). Qed.

Lemma lex_fraction_text (s frac t : string) :
  fraction_text frac = true -> ctype.isdigit (head t) = false ->
  (frac = EmptyString -> Ascii.eqb (head t) "." = false) ->
  lex_fraction s (frac +:+ t) = (s +:+ frac, t).
Proof.
  intros Hf Ht Hp. destruct frac as [|ch ds].
  - change (EmptyString +:+ t) with t. rewrite append_nil_r.
    specialize (Hp eq_refl). unfold lex_fraction.
    destruct t as [|ch r]; [reflexivity|]. simpl in Hp. now rewrite Hp.
  - simpl in Hf. apply andb_true_iff in Hf as [Hc Hd].
    apply Ascii.eqb_eq in Hc. subst ch.
    rewrite append_cons. unfold lex_fraction. cbn [Ascii.eqb Bool.eqb].
    rewrite (lex_digits_text _ ds t Hd Ht). now rewrite push_back_append.
Qed.

Lemma fraction_text_head (frac t : string) :
  fraction_text frac = true -> frac <> EmptyString -> head (frac +:+ t) = "."%char.
Proof.
  destruct frac as [|ch ds]; [congruence|]. simpl. intros H _.
  apply andb_true_iff in H as [H _]. now apply Ascii.eqb_eq in H.
Qed.

(** The three stages of the mantissa read a sign, digits and a fraction
    that are followed by something that cannot continue them. *)
Lemma lex_mantissa_text (sgn ds1 frac rest : string) :
  sign_text sgn = true -> every ctype.isdigit ds1 = true ->
  fraction_text frac = true ->
  ctype.isdigit (head rest) = false ->
  (frac = EmptyString -> Ascii.eqb (head rest) "." = false) ->
  (sgn +:+ ds1 +:+ frac = EmptyString -> is_sign (head rest) = false) ->
  lex_mantissa (sgn +:+ ds1 +:+ frac +:+ rest) = (sgn +:+ ds1 +:+ frac, rest).
Proof.
  intros Hs Hd Hf Hr Hp He. unfold lex_mantissa.
  rewrite (lex_sign_text EmptyString sgn (ds1 +:+ frac +:+ rest) Hs).
  2:{ intros ->. destruct ds1 as [|d ds].
      - change (EmptyString +:+ frac +:+ rest) with (frac +:+ rest).
        destruct frac as [|f fs]; [apply He; reflexivity|].
        rewrite (fraction_text_head _ rest Hf) by discriminate. reflexivity.
      - simpl in Hd. apply andb_true_iff in Hd as [Hd _].
        apply digit_not_sign, Hd. }
  change (EmptyString +:+ sgn) with sgn.
  rewrite (lex_digits_text sgn ds1 (frac +:+ rest) Hd).
  2:{ destruct frac as [|f fs]; [exact Hr|].
      rewrite (fraction_text_head _ rest Hf) by discriminate. reflexivity. }
  rewrite (lex_fraction_text _ frac rest Hf Hr Hp).
  now rewrite append_assoc.
Qed.

Lemma span_space_text (ws t : string) :
  every ctype.isspace ws = true -> ctype.isspace (head t) = false ->
  span ctype.isspace (ws +:+ t) = (ws, t).
Proof. apply span_run. Qed.

Lemma first_char_not_space (ch : ascii) :
  IsFirstCharOfDouble ch = true -> ctype.isspace ch = false.
Proof. by_cases_on ch. Qed.

Lemma first_char_not_paren (ch : ascii) :
  IsFirstCharOfDouble ch = true -> Ascii.eqb ch "(" = false.
Proof. intros H. destruct (Ascii.eqb_spec ch "(") as [->|_]; [discriminate H | reflexivity]. Qed.

Lemma alpha_not_space (ch : ascii) : ctype.isalpha ch = true -> ctype.isspace ch = false.
Proof. by_cases_on ch. Qed.

Lemma alpha_not_first_char (ch : ascii) :
  ctype.isalpha ch = true -> IsFirstCharOfDouble ch = false.
Proof. by_cases_on ch. Qed.

Lemma alpha_not_paren (ch : ascii) : ctype.isalpha ch = true -> Ascii.eqb ch "(" = false.
Proof. intros H. destruct (Ascii.eqb_spec ch "(") as [->|_]; [discriminate H | reflexivity]. Qed.

Lemma lex_exponent_missing (s : string) (mark : ascii) (sgn rest : string) :
  is_exp_marker mark = true -> sign_text sgn = true ->
  ctype.isdigit (head rest) = false ->
  (sgn = EmptyString -> is_sign (head rest) = false) ->
  lex_exponent s (String mark (sgn +:+ rest))
  = (false, (s +:+ String mark sgn, rest)).
Proof.
  intros Hm Hs Hd Hn. unfold lex_exponent. unfold is_exp_marker in Hm. rewrite Hm.
  rewrite (lex_sign_text _ sgn rest Hs Hn), Hd.
  now rewrite push_back_append.
Qed.

Lemma lex_exponent_none (s t : string) :
  is_exp_marker (head t) = false -> lex_exponent s t = (true, (s, t)).
Proof.
  intros H. unfold lex_exponent. destruct t as [|ch r]; [reflexivity|].
  simpl in H. unfold is_exp_marker in H. now rewrite H.
Qed.

Lemma at_cursor_zip (c : state) (pre t : string) :
  at_cursor c pre t -> zip c pre = c.
Proof. destruct c. intros [_ Hp]. simpl in *. subst. reflexivity. Qed.

(** The head of a numeral is a character that starts a numeral. *)
Lemma mantissa_head (sgn ds1 frac t : string) :
  sign_text sgn = true -> every ctype.isdigit ds1 = true ->
  fraction_text frac = true -> sgn +:+ ds1 +:+ frac <> EmptyString ->
  IsFirstCharOfDouble (head (sgn +:+ ds1 +:+ frac +:+ t)) = true.
Proof.
  intros Hs Hd Hf Hne.
  destruct sgn as [|ch [|? ?]]; try discriminate Hs.
  - change (EmptyString +:+ ds1 +:+ frac +:+ t) with (ds1 +:+ frac +:+ t).
    destruct ds1 as [|d ds].
    + change (EmptyString +:+ frac +:+ t) with (frac +:+ t).
      rewrite (fraction_text_head frac t Hf); [reflexivity|].
      intros ->. apply Hne. reflexivity.
    + simpl in Hd. apply andb_true_iff in Hd as [Hd _].
      rewrite append_cons. cbn [head]. unfold IsFirstCharOfDouble. now rewrite Hd.
  - simpl in Hs. rewrite append_cons. cbn [head]. revert Hs. by_cases_on ch.
Qed.

Lemma marker_not_space (ch : ascii) : is_exp_marker ch = true -> ctype.isspace ch = false.
Proof. by_cases_on ch. Qed.

Lemma marker_not_digit (ch : ascii) : is_exp_marker ch = true -> ctype.isdigit ch = false.
Proof. by_cases_on ch. Qed.

Lemma marker_not_point (ch : ascii) : is_exp_marker ch = true -> Ascii.eqb ch "." = false.
Proof. by_cases_on ch. Qed.

Lemma marker_not_sign (ch : ascii) : is_exp_marker ch = true -> is_sign ch = false.
Proof. by_cases_on ch. Qed.

(** What [lex_constant] makes of white space, a mantissa, an exponent
    marker, an optional sign and then no digit. *)
Lemma lex_constant_missing_exponent
    (ws sgn ds1 frac : string) (mark : ascii) (sgn2 rest : string) :
  every ctype.isspace ws = true -> sign_text sgn = true ->
  every ctype.isdigit ds1 = true -> fraction_text frac = true ->
  is_exp_marker mark = true -> sign_text sgn2 = true ->
  ctype.isdigit (head rest) = false ->
  (sgn2 = EmptyString -> is_sign (head rest) = false) ->
  let text := ws +:+ sgn +:+ ds1 +:+ frac +:+ String mark (sgn2 +:+ rest) in
  span ctype.isspace text
  = (ws, sgn +:+ ds1 +:+ frac +:+ String mark (sgn2 +:+ rest))
  /\ lex_constant text
     = (false, ((sgn +:+ ds1 +:+ frac) +:+ String mark sgn2, rest)).
Proof.
  intros Hw Hs Hd Hf Hm Hs2 Hr Hn text.
  assert (Hsp : span ctype.isspace text
                = (ws, sgn +:+ ds1 +:+ frac +:+ String mark (sgn2 +:+ rest))).
  { apply span_space_text; [exact Hw|].
    destruct (string_dec (sgn +:+ ds1 +:+ frac) EmptyString) as [E|E].
    - destruct sgn; [|discriminate E]. destruct ds1; [|discriminate E].
      destruct frac; [|discriminate E]. apply marker_not_space, Hm.
    - apply first_char_not_space, mantissa_head; assumption. }
  split; [exact Hsp|].
  unfold lex_constant. rewrite Hsp. cbn [snd].
  rewrite (lex_mantissa_text sgn ds1 frac (String mark (sgn2 +:+ rest)) Hs Hd Hf).
  - apply lex_exponent_missing; assumption.
  - apply marker_not_digit, Hm.
  - intros _. apply marker_not_point, Hm.
  - intros _. apply marker_not_sign, Hm.
Qed.

(** ** [stod] finds nothing to convert in a numeral without mantissa digits *)

Lemma span_digits_none (t : string) :
  ctype.isdigit (head t) = false -> span_digits t = (nil, t).
Proof. destruct t as [|ch r]; [reflexivity|]. simpl. now intros ->. Qed.

Lemma take_sign_text (sgn t : string) :
  sign_text sgn = true -> (sgn = EmptyString -> is_sign (head t) = false) ->
  (take_sign (sgn +:+ t)).2 = t.
Proof.
  intros Hs Ht. destruct sgn as [|ch [|? ?]]; try discriminate Hs.
  - change (EmptyString +:+ t) with t. specialize (Ht eq_refl).
    destruct t as [|ch r]; [reflexivity|]. simpl in *. now rewrite Ht.
  - simpl in Hs. change (String ch EmptyString +:+ t) with (String ch t).
    simpl. now rewrite Hs.
Qed.

Lemma scan_no_digit (sgn : string) (point : bool) (x : string) :
  sign_text sgn = true -> ctype.isdigit (head x) = false ->
  (point = false -> Ascii.eqb (head x) "." = false) ->
  (sgn = EmptyString -> point = false -> is_sign (head x) = false) ->
  scan (sgn +:+ point_text point +:+ x) = None.
Proof.
  intros Hs Hd Hp Hn. unfold scan.
  pose proof (take_sign_text sgn (point_text point +:+ x) Hs) as Ht.
  destruct (take_sign (sgn +:+ point_text point +:+ x)) as [neg s1].
  cbn [snd] in Ht. rewrite Ht.
  2:{ intros E. destruct point; [reflexivity|]. apply Hn; auto. }
  destruct point; unfold point_text.
  - rewrite append_cons. change (EmptyString +:+ x) with x.
    cbn [span_digits]. change (ctype.isdigit ".") with false. cbv iota.
    cbn [Ascii.eqb Bool.eqb]. rewrite (span_digits_none x Hd). reflexivity.
  - change (EmptyString +:+ x) with x.
    rewrite (span_digits_none x Hd).
    destruct x as [|ch r]; [reflexivity|].
    simpl in Hp. rewrite (Hp eq_refl). reflexivity.
Qed.

Lemma stod_no_digit (sgn : string) (point : bool) (x : string) :
  sign_text sgn = true -> ctype.isdigit (head x) = false ->
  (point = false -> Ascii.eqb (head x) "." = false) ->
  (sgn = EmptyString -> point = false -> is_sign (head x) = false) ->
  stod (sgn +:+ point_text point +:+ x) = stod_invalid_argument.
Proof. intros. unfold stod. now rewrite scan_no_digit. Qed.

Lemma lex_sign_extends (s t : string) : exists x, (lex_sign s t).1 = s +:+ x.
Proof.
  unfold lex_sign. destruct t as [|ch r].
  - exists EmptyString. now rewrite append_nil_r.
  - destruct (Ascii.eqb ch "+" || Ascii.eqb ch "-").
    + exists (String ch EmptyString). reflexivity.
    + exists EmptyString. now rewrite append_nil_r.
Qed.

Lemma lex_exponent_shape (s t s' t' : string) :
  lex_exponent s t = (true, (s', t')) ->
  exists x, s' = s +:+ x /\ (x = EmptyString \/ is_exp_marker (head x) = true).
Proof.
  unfold lex_exponent. destruct t as [|ch r].
  - intros [= <- <-]. exists EmptyString. rewrite append_nil_r. auto.
  - destruct (Ascii.eqb ch "e" || Ascii.eqb ch "E") eqn:E.
    + destruct (lex_sign_extends (push_back s ch) r) as [y Hy].
      destruct (lex_sign (push_back s ch) r) as [s1 t1]. cbn [fst] in Hy.
      destruct (ctype.isdigit (head t1)); [|discriminate].
      unfold lex_digits. intros [= <- <-].
      exists (String ch (y +:+ (span ctype.isdigit t1).1)). split.
      * rewrite Hy, append_assoc, push_back_append. reflexivity.
      * right. exact E.
    + intros [= <- <-]. exists EmptyString. rewrite append_nil_r. auto.
Qed.

Lemma point_text_fraction (point : bool) : fraction_text (point_text point) = true.
Proof. destruct point; reflexivity. Qed.

(** ** A term that is a numeral, a term that is a symbol *)

Lemma span_space_again (text : string) :
  span ctype.isspace (span ctype.isspace text).2
  = (EmptyString, (span ctype.isspace text).2).
Proof.
  apply (span_run ctype.isspace EmptyString); [reflexivity|].
  apply span_head. reflexivity.
Qed.

Lemma zip_ParseTerm_numeral (n : nat) (c : state) (pre text : string) :
  m_src c = pre +:+ text -> String.length text < S n ->
  IsFirstCharOfDouble (head (span ctype.isspace text).2) = true ->
  ParseTerm (S n) (zip c pre) = GetConstant (S n) (zip c pre).
Proof.
  intros H Hlen Hfirst. rewrite ParseTerm_S. unfold ParseTerm_body.
  rewrite (bind_Ok _ _ _ _ _ (zip_SkipWhite (S n) c pre text H Hlen)).
  pose proof (span_append ctype.isspace text) as Hw.
  pose proof (span_length ctype.isspace text) as Hwl.
  pose proof (span_space_again text) as Hagain.
  rewrite (zip_GetConstant (S n) c pre text H Hlen). unfold lex_constant.
  destruct (span ctype.isspace text) as [ws t0]. cbn [fst snd] in *.
  assert (H0 : m_src c = (pre +:+ ws) +:+ t0)
    by (rewrite append_assoc, Hw; exact H).
  rewrite (bind_Ok _ _ _ _ _ (zip_PeekChar c _ t0 H0)).
  rewrite (first_char_not_paren _ Hfirst), Hfirst.
  rewrite (zip_GetConstant (S n) c _ t0 H0) by lia. unfold lex_constant.
  rewrite Hagain. cbn [fst snd]. rewrite append_nil_r. reflexivity.
Qed.

Lemma zip_ParseTerm_symbol (n : nat) (c : state) (pre text : string) :
  m_src c = pre +:+ text -> String.length text < S n ->
  ctype.isalpha (head (span ctype.isspace text).2) = true ->
  ParseTerm (S n) (zip c pre)
  = ParseIdentifier n (zip c (pre +:+ (span ctype.isspace text).1)).
Proof.
  intros H Hlen Halpha. rewrite ParseTerm_S. unfold ParseTerm_body.
  rewrite (bind_Ok _ _ _ _ _ (zip_SkipWhite (S n) c pre text H Hlen)).
  pose proof (span_append ctype.isspace text) as Hw.
  destruct (span ctype.isspace text) as [ws t0]. cbn [fst snd] in *.
  assert (H0 : m_src c = (pre +:+ ws) +:+ t0)
    by (rewrite append_assoc, Hw; exact H).
  rewrite (bind_Ok _ _ _ _ _ (zip_PeekChar c _ t0 H0)).
  rewrite (alpha_not_paren _ Halpha), (alpha_not_first_char _ Halpha), Halpha.
  reflexivity.
Qed.

(** An exception of the first term is the outcome of the evaluation. *)
Lemma Evaluate_first_term_Throw (n : nat) (c : state) (e : exception) (c' : state) :
  ParseTerm n c = (Throw e, c') -> Evaluate (S (S n)) c = (Throw e, c').
Proof.
  intros H. unfold Evaluate, ParseExpression.
  apply bind_Throw. rewrite ParseSum_S. unfold ParseSum_body.
  apply bind_Throw. rewrite ParseProduct_S. unfold ParseProduct_body.
  apply bind_Throw, H.
Qed.

Lemma Evaluate_source_first_term_Throw (L : libm) (src : string)
    (e : exception) (c' : state) :
  ParseTerm (4 * String.length src + 3) (Calc L src) = (Throw e, c') ->
  Evaluate_source L src = Throw e.
Proof.
  intros H. unfold Evaluate_source, fuel_for.
  replace (4 * String.length src + 5) with (S (S (4 * String.length src + 3))) by lia.
  rewrite (Evaluate_first_term_Throw _ _ _ _ H). reflexivity.
Qed.

(** ** A callee is entered only after a character has been read *)

Lemma after_GetChar {A} (k k' : M A) (c : state) (ch : ascii) :
  PeekChar c = (Ok ch, c) -> ch <> NUL ->
  (forall c', remaining c' < remaining c -> k c' = k' c') ->
  (GetChar;; k) c = (GetChar;; k') c.
Proof.
  intros HP Hch Hk.
  rewrite !(bind_Ok _ _ _ _ _ (GetChar_moves c ch HP Hch)).
  apply Hk. pose proof (remaining_moved c (PeekChar_not_NUL c ch HP Hch)). lia.
Qed.

Lemma bind_ext {A B} (m : M A) (k k' : A -> M B) (c : state) :
  (forall a c', m c = (Ok a, c') -> k a c' = k' a c') ->
  (m ≫= k) c = (m ≫= k') c.
Proof.
  intros H. rewrite !bind_eq. destruct (m c) as [[a|e|] c'] eqn:E; auto.
Qed.

Lemma ParseProduct_body_calls_later (fuel : nat) (T S S' : M float) (c : state) :
  stepM T ->
  (forall c', remaining c' < remaining c -> S c' = S' c') ->
  ParseProduct_body fuel T S c = ParseProduct_body fuel T S' c.
Proof.
  intros HT HS. unfold ParseProduct_body.
  apply bind_ext. intros left c1 E1.
  pose proof (step_remaining _ _ (stepM_at _ _ _ _ HT E1)) as R1.
  apply bind_ext. intros [] c2 E2.
  pose proof (step_remaining _ _ (stepM_at _ _ _ _ (stepM_SkipWhite fuel) E2)) as R2.
  assert (HP : PeekChar c2 = (Ok (peek c2), c2)) by apply PeekChar_peek.
  rewrite !(bind_Ok _ _ _ _ _ HP).
  destruct (Ascii.eqb_spec (peek c2) "*") as [E|_].
  { rewrite E in HP. apply (after_GetChar _ _ c2 "*" HP); [not_NUL|].
    intros c' Hc'. rewrite !bind_eq, HS by lia. reflexivity. }
  rewrite !(bind_Ok _ _ _ _ _ HP).
  destruct (Ascii.eqb_spec (peek c2) "/") as [E|_]; [|reflexivity].
  rewrite E in HP. apply (after_GetChar _ _ c2 "/" HP); [not_NUL|].
  intros c' Hc'. rewrite !bind_eq, HS by lia. reflexivity.
Qed.

Lemma ParseTerm_body_calls_later (fuel : nat) (S S' I : M float) (c : state) :
  (forall c', remaining c' < remaining c -> S c' = S' c') ->
  ParseTerm_body fuel S I c = ParseTerm_body fuel S' I c.
Proof.
  intros HS. unfold ParseTerm_body.
  apply bind_ext. intros [] c1 E1.
  pose proof (step_remaining _ _ (stepM_at _ _ _ _ (stepM_SkipWhite fuel) E1)) as R1.
  assert (HP : PeekChar c1 = (Ok (peek c1), c1)) by apply PeekChar_peek.
  rewrite !(bind_Ok _ _ _ _ _ HP).
  destruct (Ascii.eqb_spec (peek c1) "(") as [E|_]; [|reflexivity].
  rewrite E in HP. apply (after_GetChar _ _ c1 "(" HP); [not_NUL|].
  intros c' Hc'. rewrite !bind_eq, HS by lia. reflexivity.
Qed.

Lemma ParseIdentifier_body_calls_later (fuel : nat) (S S' : M float) (c : state) :
  (forall c', remaining c' < remaining c -> S c' = S' c') ->
  ParseIdentifier_body fuel S c = ParseIdentifier_body fuel S' c.
Proof.
  intros HS. unfold ParseIdentifier_body.
  apply bind_ext. intros symbol c1 E1.
  pose proof (step_remaining _ _ (stepM_at _ _ _ _ (stepM_GetSymbol fuel) E1)) as R1.
  apply bind_ext. intros [] c2 E2.
  pose proof (step_remaining _ _ (stepM_at _ _ _ _ (stepM_SkipWhite fuel) E2)) as R2.
  apply bind_ext. intros next c3 E3.
  assert (c3 = c2) as -> by (rewrite PeekChar_peek in E3; congruence).
  destruct (Ascii.eqb next "("); [|reflexivity].
  apply bind_ext. intros [f|] c4 E4; [|reflexivity].
  assert (c4 = c2) as -> by (unfold find_function in E4; congruence).
  rewrite !bind_eq.
  rewrite (Consume_eq "(" c2 _ (PeekChar_peek c2)).
  destruct (Ascii.eqb_spec (peek c2) "(") as [E|_]; [|reflexivity].
  rewrite E. change (Ascii.eqb "(" NUL) with false. cbv iota.
  pose proof (PeekChar_peek c2) as HP. rewrite E in HP.
  pose proof (remaining_moved c2 (PeekChar_not_NUL c2 "(" HP ltac:(not_NUL))).
  rewrite !bind_eq, HS by lia. reflexivity.
Qed.

(** ** A source that begins with a numeral *)

Lemma GetConstant_start (L : libm) (src : string) (fuel : nat) :
  String.length src < fuel ->
  GetConstant fuel (Calc L src)
  = let '(ok, (s, _)) := lex_constant src in
    let c' := zip (Calc L src) ((span ctype.isspace src).1 +:+ s) in
    if ok then
      match stod s with
      | stod_value d => (Ok d, c')
      | stod_invalid_argument =>
          (Throw (ParseError "Invalid float." (m_currentPosition c')), c')
      | stod_out_of_range => (Throw std_out_of_range, c')
      end
    else (Throw (ParseError "Expected exponent in floating point constant."
                   (m_currentPosition c')), c').
Proof.
  intros H. rewrite <- (zip_start L src) at 1.
  apply (zip_GetConstant fuel (Calc L src) EmptyString src eq_refl H).
Qed.

Lemma Evaluate_source_numeral_Throw (L : libm) (src : string) (e : exception) :
  IsFirstCharOfDouble (head (span ctype.isspace src).2) = true ->
  (GetConstant (4 * String.length src + 3) (Calc L src)).1 = Throw e ->
  Evaluate_source L src = Throw e.
Proof.
  intros Hfirst HG.
  apply (Evaluate_source_first_term_Throw L src e
           (GetConstant (4 * String.length src + 3) (Calc L src)).2).
  replace (4 * String.length src + 3) with (S (4 * String.length src + 2)) in * by lia.
  rewrite <- (zip_start L src) at 1.
  rewrite (zip_ParseTerm_numeral _ (Calc L src) EmptyString src eq_refl);
    [|lia|exact Hfirst].
  rewrite zip_start, <- HG. apply surjective_pairing.
Qed.

Lemma sign_first_char (ch : ascii) : is_sign ch = true -> IsFirstCharOfDouble ch = true.
Proof. by_cases_on ch. Qed.

Lemma sign_one (ch : ascii) : is_sign ch = true -> sign_text (String ch EmptyString) = true.
Proof. intros H. exact H. Qed.

(** What [lex_constant] makes of white space and a mantissa without digits
    that no digit follows. *)
Lemma lex_mantissa_no_digit (ws sgn : string) (point : bool) (rest : string) :
  every ctype.isspace ws = true -> sign_text sgn = true ->
  sgn +:+ point_text point <> EmptyString ->
  ctype.isdigit (head rest) = false ->
  (point = false -> Ascii.eqb (head rest) "." = false) ->
  let text := ws +:+ sgn +:+ point_text point +:+ rest in
  span ctype.isspace text = (ws, sgn +:+ point_text point +:+ rest)
  /\ IsFirstCharOfDouble (head (sgn +:+ point_text point +:+ rest)) = true
  /\ lex_constant text = lex_exponent (sgn +:+ point_text point) rest.
Proof.
  intros Hw Hs Hne Hd Hp text.
  assert (Hfirst : IsFirstCharOfDouble (head (sgn +:+ point_text point +:+ rest)) = true).
  { apply (mantissa_head sgn EmptyString (point_text point) rest);
      auto using point_text_fraction. }
  assert (Hsp : span ctype.isspace text = (ws, sgn +:+ point_text point +:+ rest)).
  { apply span_space_text; [exact Hw|]. apply first_char_not_space, Hfirst. }
  split; [exact Hsp | split; [exact Hfirst|]].
  unfold lex_constant. rewrite Hsp. cbn [snd].
  assert (Hm : lex_mantissa (sgn +:+ point_text point +:+ rest)
               = (sgn +:+ point_text point, rest)).
  { apply (lex_mantissa_text sgn EmptyString (point_text point) rest);
      auto using point_text_fraction.
    - intros E. apply Hp. destruct point; [discriminate E | reflexivity].
    - intros E. contradiction. }
  rewrite Hm. reflexivity.
Qed.

(** ** A term that begins with a symbol *)

Lemma symbol_text_nonempty (name : string) :
  symbol_text name = true -> name <> EmptyString.
Proof. intros H ->. discriminate H. Qed.

Lemma symbol_text_parts (name : string) :
  symbol_text name = true ->
  ctype.isalpha (head name) = true /\ every ctype.isalnum name = true.
Proof. intros H. now apply andb_true_iff in H. Qed.

(** [ParseIdentifier] before a symbol, white space and some other text:
    the symbol is looked up in the function table when the text begins
    with a parenthesis and in the constant table when it does not. *)
Lemma zip_ParseIdentifier (n : nat) (c : state) (pre name ws rest : string) :
  m_src c = pre +:+ name +:+ ws +:+ rest ->
  String.length (name +:+ ws +:+ rest) < S n ->
  symbol_text name = true -> every ctype.isspace ws = true ->
  ctype.isalnum (head (ws +:+ rest)) = false ->
  ctype.isspace (head rest) = false ->
  let c' := zip c ((pre +:+ name) +:+ ws) in
  ParseIdentifier (S n) (zip c pre)
  = if Ascii.eqb (head rest) "(" then
      match m_functions c !! name with
      | Some f =>
          (Consume "(";; parameter ← (ParseSum n : M float);
           Consume ")";; mret (f parameter)) c'
      | None =>
          (Throw (ParseError (unknown_function name) (m_currentPosition c')), c')
      end
    else
      match m_constants c !! name with
      | Some v => (Ok v, c')
      | None =>
          (Throw (ParseError (unknown_symbol name) (m_currentPosition c')), c')
      end.
Proof.
  intros H Hlen Hname Hw Hstop Hrest c'.
  destruct (symbol_text_parts name Hname) as [Ha Hn].
  pose proof (symbol_text_nonempty name Hname) as Hne.
  rewrite ParseIdentifier_S. unfold ParseIdentifier_body.
  rewrite bind_eq, (zip_GetSymbol (S n) c pre _ H Hlen).
  assert (Hsp : span ctype.isspace (name +:+ ws +:+ rest)
                = (EmptyString, name +:+ ws +:+ rest)).
  { apply (span_run ctype.isspace EmptyString); [reflexivity|].
    rewrite head_append by exact Hne. apply alpha_not_space, Ha. }
  rewrite Hsp, (head_append name _ Hne), Ha.
  rewrite (span_run ctype.isalnum name (ws +:+ rest) Hn Hstop). cbn [fst].
  rewrite append_nil_r.
  assert (H1 : m_src c = (pre +:+ name) +:+ ws +:+ rest)
    by (rewrite append_assoc; exact H).
  rewrite bind_eq.
  rewrite (zip_SkipWhite (S n) c (pre +:+ name) (ws +:+ rest) H1).
  2:{ rewrite length_append in Hlen. lia. }
  rewrite (span_space_text ws rest Hw Hrest). cbn [fst].
  assert (H2 : m_src c = ((pre +:+ name) +:+ ws) +:+ rest)
    by (rewrite append_assoc; exact H1).
  rewrite (bind_Ok _ _ _ _ _ (zip_PeekChar c _ rest H2)).
  fold c'. destruct (Ascii.eqb (head rest) "("); rewrite bind_eq.
  - change (find_function name c') with (Ok (m_functions c !! name), c').
    cbv iota. destruct (m_functions c !! name); reflexivity.
  - change (find_constant name c') with (Ok (m_constants c !! name), c').
    cbv iota. destruct (m_constants c !! name); reflexivity.
Qed.




(** ** Sums and products of unsigned integers *)

Lemma digits_text_parts (ds : string) :
  digits_text ds = true -> every ctype.isdigit ds = true /\ ds <> EmptyString.
Proof. destruct ds; [discriminate|]. intros H. split; [exact H | discriminate]. Qed.

Lemma ends_numeral_facts (ch : ascii) :
  ends_numeral ch = true ->
  ctype.isdigit ch = false /\ Ascii.eqb ch "." = false
  /\ is_exp_marker ch = false.
Proof.
  unfold ends_numeral. intros H. apply negb_true_iff in H.
  apply orb_false_iff in H as [H H3]. apply orb_false_iff in H as [H1 H2].
  auto.
Qed.

Lemma ends_product_facts (ch : ascii) :
  ends_product ch = true ->
  ends_numeral ch = true /\ ctype.isspace ch = false
  /\ Ascii.eqb ch "*" = false /\ Ascii.eqb ch "/" = false.
Proof.
  unfold ends_product. intros H. apply andb_true_iff in H as [H1 H].
  apply negb_true_iff in H.
  apply orb_false_iff in H as [H H4]. apply orb_false_iff in H as [H2 H3].
  auto.
Qed.

Lemma digit_first_char (ch : ascii) : ctype.isdigit ch = true -> IsFirstCharOfDouble ch = true.
Proof. unfold IsFirstCharOfDouble. now intros ->. Qed.

Lemma lex_constant_digits (ds rest : string) :
  digits_text ds = true -> ends_numeral (head rest) = true ->
  span ctype.isspace (ds +:+ rest) = (EmptyString, ds +:+ rest)
  /\ lex_constant (ds +:+ rest) = (true, (ds, rest)).
Proof.
  intros Hds Hend. destruct (digits_text_parts ds Hds) as [He Hne].
  destruct (ends_numeral_facts _ Hend) as (Hd & Hp & Hm).
  assert (Hsp : span ctype.isspace (ds +:+ rest) = (EmptyString, ds +:+ rest)).
  { apply (span_run ctype.isspace EmptyString); [reflexivity|].
    rewrite head_append by exact Hne.
    apply first_char_not_space, digit_first_char, every_head; assumption. }
  split; [exact Hsp|]. unfold lex_constant. rewrite Hsp. cbn [snd].
  assert (Hman : lex_mantissa (ds +:+ rest) = (ds +:+ EmptyString, rest)).
  { apply (lex_mantissa_text EmptyString ds EmptyString rest); auto.
    intros E. change (ds +:+ EmptyString = EmptyString) in E.
    rewrite append_nil_r in E. contradiction. }
  rewrite Hman, append_nil_r. apply lex_exponent_none, Hm.
Qed.

(** A term that is an unsigned integer. *)
Lemma zip_ParseTerm_digits (n : nat) (c : state) (pre ds rest : string) (v : float) :
  m_src c = pre +:+ ds +:+ rest -> String.length (ds +:+ rest) < S n ->
  digits_text ds = true -> ends_numeral (head rest) = true ->
  stod ds = stod_value v ->
  ParseTerm (S n) (zip c pre) = (Ok v, zip c (pre +:+ ds)).
Proof.
  intros H Hlen Hds Hend Hv.
  destruct (digits_text_parts ds Hds) as [He Hne].
  destruct (lex_constant_digits ds rest Hds Hend) as [Hsp Hlex].
  rewrite (zip_ParseTerm_numeral n c pre _ H Hlen).
  2:{ rewrite Hsp. cbn [snd]. rewrite head_append by exact Hne.
      apply digit_first_char, every_head; assumption. }
  rewrite (zip_GetConstant (S n) c pre _ H Hlen), Hlex, Hsp, Hv.
  cbn [fst]. now rewrite append_nil_r.
Qed.

(** A Product that is an unsigned integer and nothing more. *)
Lemma zip_ParseProduct_digits (n : nat) (c : state) (pre ds rest : string) (v : float) :
  m_src c = pre +:+ ds +:+ rest -> String.length (ds +:+ rest) < S n ->
  digits_text ds = true -> ends_product (head rest) = true ->
  stod ds = stod_value v ->
  ParseProduct (S (S n)) (zip c pre) = (Ok v, zip c (pre +:+ ds)).
Proof.
  intros H Hlen Hds Hend Hv.
  destruct (ends_product_facts _ Hend) as (Hnum & Hs & Hstar & Hslash).
  rewrite ParseProduct_S. unfold ParseProduct_body.
  rewrite (bind_Ok _ _ _ _ _ (zip_ParseTerm_digits n c pre ds rest v H Hlen Hds Hnum Hv)).
  assert (H1 : m_src c = (pre +:+ ds) +:+ rest) by (rewrite append_assoc; exact H).
  rewrite (bind_Ok _ _ _ _ _
             (zip_SkipWhite_none (S (S n)) c _ rest H1 Hs ltac:(lia))).
  rewrite (bind_Ok _ _ _ _ _ (zip_PeekChar c _ rest H1)), Hstar.
  rewrite (bind_Ok _ _ _ _ _ (zip_PeekChar c _ rest H1)), Hslash.
  reflexivity.
Qed.

Lemma additive_facts (op : ascii) :
  is_sign op = true ->
  op <> NUL /\ ends_product op = true
  /\ (op = "+"%char \/ op = "-"%char).
Proof. by_cases_on_then op. Qed.

Lemma multiplicative_facts (op : ascii) :
  is_times_or_divide op = true ->
  op <> NUL /\ ends_numeral op = true /\ ctype.isspace op = false
  /\ (op = "*"%char \/ op = "/"%char).
Proof. by_cases_on_then op. Qed.

(** A Sum of two unsigned integers: whatever follows the second one is
    left unread. *)
Lemma zip_ParseSum_two (n : nat) (c : state) (pre a : string) (op : ascii)
    (b rest : string) (va vb : float) :
  m_src c = pre +:+ a +:+ String op (b +:+ rest) ->
  String.length (a +:+ String op (b +:+ rest)) < S n ->
  digits_text a = true -> is_sign op = true -> digits_text b = true ->
  ends_product (head rest) = true ->
  stod a = stod_value va -> stod b = stod_value vb ->
  ParseSum (S (S (S n))) (zip c pre)
  = (Ok (additive op va vb), zip c ((pre +:+ a +:+ String op EmptyString) +:+ b)).
Proof.
  intros H Hlen Ha Hop Hb Hend Hva Hvb.
  destruct (additive_facts op Hop) as (Hnz & Hopend & Hcases).
  destruct (ends_product_facts _ Hopend) as (_ & Hs & _ & _).
  rewrite ParseSum_S. unfold ParseSum_body.
  rewrite (bind_Ok _ _ _ _ _
             (zip_ParseProduct_digits n c pre a _ va H Hlen Ha Hopend Hva)).
  assert (H1 : m_src c = (pre +:+ a) +:+ String op (b +:+ rest))
    by (rewrite append_assoc; exact H).
  rewrite (bind_Ok _ _ _ _ _
             (zip_SkipWhite_none (S (S (S n))) c _ _ H1 Hs ltac:(lia))).
  assert (H2 : m_src c = (pre +:+ a +:+ String op EmptyString) +:+ b +:+ rest).
  { rewrite H, !append_assoc. reflexivity. }
  assert (Hlen2 : String.length (b +:+ rest) < S n).
  { rewrite length_append in Hlen. simpl in Hlen. lia. }
  assert (Hnext : ParseProduct (S (S n)) (zip c (push_back (pre +:+ a) op))
                  = (Ok vb, zip c ((pre +:+ a +:+ String op EmptyString) +:+ b))).
  { unfold push_back. rewrite append_assoc.
    apply (zip_ParseProduct_digits n c _ b rest vb H2 Hlen2 Hb Hend Hvb). }
  unfold additive.
  destruct Hcases as [-> | ->].
  - rewrite (bind_Ok _ _ _ _ _ (zip_PeekChar c _ _ H1)). cbn [head Ascii.eqb Bool.eqb].
    rewrite (bind_Ok _ _ _ _ _ (zip_GetChar c _ _ _ H1 Hnz)).
    rewrite (bind_Ok _ _ _ _ _ Hnext). reflexivity.
  - rewrite (bind_Ok _ _ _ _ _ (zip_PeekChar c _ _ H1)). cbn [head Ascii.eqb Bool.eqb].
    rewrite (bind_Ok _ _ _ _ _ (zip_PeekChar c _ _ H1)). cbn [head Ascii.eqb Bool.eqb].
    rewrite (bind_Ok _ _ _ _ _ (zip_GetChar c _ _ _ H1 Hnz)).
    rewrite (bind_Ok _ _ _ _ _ Hnext). reflexivity.
Qed.

(** The end-of-input check of [ParseExpression]. *)
Lemma Evaluate_after_Sum (n : nat) (c c1 : state) (v : float) (pre rest : string) :
  ParseSum n c = (Ok v, c1) -> at_cursor c1 pre rest ->
  ctype.isspace (head rest) = false -> 0 < n ->
  Evaluate n c
  = if Ascii.eqb (head rest) NUL then (Ok v, c1)
    else (Throw (ParseError "Syntax error." (String.length pre)), c1).
Proof.
  intros HS Hat Hsp Hn. unfold Evaluate, ParseExpression.
  rewrite (bind_Ok _ _ _ _ _ HS).
  rewrite (bind_Ok _ _ _ _ _ (SkipWhite_none n c1 pre rest Hat Hsp Hn)).
  rewrite (bind_Ok _ _ _ _ _ (at_cursor_PeekChar c1 pre rest Hat)).
  destruct (Ascii.eqb (head rest) NUL); cbn [negb]; [reflexivity|].
  rewrite throw_ParseError_eq, (at_pos _ _ _ Hat). reflexivity.
Qed.

(** ** After an operator *)

Lemma ParseProduct_operator (n : nat) (c c1 c2 : state) (left : float) (op : ascii) :
  ParseTerm n c = (Ok left, c1) ->
  SkipWhite (S n) c1 = (Ok tt, c2) ->
  peek c2 = op -> is_times_or_divide op = true ->
  ParseProduct (S n) c
  = (right ← (ParseSum n : M float); mret (multiplicative op left right)) (moved c2).
Proof.
  intros HT HW Hop Hmul.
  destruct (multiplicative_facts op Hmul) as (Hnz & _ & _ & Hcases).
  assert (HP : PeekChar c2 = (Ok op, c2)) by (rewrite <- Hop; apply PeekChar_peek).
  rewrite ParseProduct_S. unfold ParseProduct_body, multiplicative.
  rewrite (bind_Ok _ _ _ _ _ HT), (bind_Ok _ _ _ _ _ HW).
  rewrite (bind_Ok _ _ _ _ _ HP).
  destruct Hcases as [-> | ->]; cbn [Ascii.eqb Bool.eqb].
  - rewrite (bind_Ok _ _ _ _ _ (GetChar_moves c2 _ HP Hnz)). reflexivity.
  - rewrite (bind_Ok _ _ _ _ _ HP). cbn [Ascii.eqb Bool.eqb].
    rewrite (bind_Ok _ _ _ _ _ (GetChar_moves c2 _ HP Hnz)). reflexivity.
Qed.

Lemma ParseSum_operator (n : nat) (c c1 c2 : state) (left : float) (op : ascii) :
  ParseProduct n c = (Ok left, c1) ->
  SkipWhite (S n) c1 = (Ok tt, c2) ->
  peek c2 = op -> is_sign op = true ->
  ParseSum (S n) c
  = (right ← (ParseProduct n : M float); mret (additive op left right)) (moved c2).
Proof.
  intros HT HW Hop Hadd.
  destruct (additive_facts op Hadd) as (Hnz & _ & Hcases).
  assert (HP : PeekChar c2 = (Ok op, c2)) by (rewrite <- Hop; apply PeekChar_peek).
  rewrite ParseSum_S. unfold ParseSum_body, additive.
  rewrite (bind_Ok _ _ _ _ _ HT), (bind_Ok _ _ _ _ _ HW).
  rewrite (bind_Ok _ _ _ _ _ HP).
  destruct Hcases as [-> | ->]; cbn [Ascii.eqb Bool.eqb].
  - rewrite (bind_Ok _ _ _ _ _ (GetChar_moves c2 _ HP Hnz)). reflexivity.
  - rewrite (bind_Ok _ _ _ _ _ HP). cbn [Ascii.eqb Bool.eqb].
    rewrite (bind_Ok _ _ _ _ _ (GetChar_moves c2 _ HP Hnz)). reflexivity.
Qed.

Lemma ParseSum_no_operator (n : nat) (c c1 : state) (v : float) (pre rest : string) :
  ParseProduct n c = (Ok v, c1) -> at_cursor c1 pre rest ->
  ctype.isspace (head rest) = false -> is_sign (head rest) = false ->
  ParseSum (S n) c = (Ok v, c1).
Proof.
  intros HP Hat Hsp Hsign. rewrite ParseSum_S. unfold ParseSum_body.
  rewrite (bind_Ok _ _ _ _ _ HP).
  rewrite (bind_Ok _ _ _ _ _ (SkipWhite_none (S n) c1 pre rest Hat Hsp ltac:(lia))).
  unfold is_sign in Hsign. apply orb_false_iff in Hsign as [Hplus Hminus].
  rewrite (bind_Ok _ _ _ _ _ (at_cursor_PeekChar c1 pre rest Hat)), Hplus.
  rewrite (bind_Ok _ _ _ _ _ (at_cursor_PeekChar c1 pre rest Hat)), Hminus.
  reflexivity.
Qed.

(** [a op b], where [a] and [b] are unsigned integers and [op] is [+] or
    [-], at the beginning of a source. *)
Lemma ParseSum_two_start (L : libm) (a : string) (op : ascii) (b rest : string)
    (va vb : float) (k : nat) :
  let src := a +:+ String op (b +:+ rest) in
  digits_text a = true -> is_sign op = true -> digits_text b = true ->
  ends_product (head rest) = true ->
  stod a = stod_value va -> stod b = stod_value vb ->
  ParseSum (4 * String.length src + 5 + k) (Calc L src)
  = (Ok (additive op va vb), zip (Calc L src) ((a +:+ String op EmptyString) +:+ b)).
Proof.
  intros src Ha Hop Hb Hend Hva Hvb.
  replace (4 * String.length src + 5 + k)
    with (S (S (S (4 * String.length src + 2 + k)))) by lia.
  rewrite <- (zip_start L src) at 1.
  apply (zip_ParseSum_two _ (Calc L src) EmptyString a op b rest va vb eq_refl);
    auto. fold src. lia.
Qed.

Lemma Evaluate_source_after_Sum (L : libm) (src : string) (v : float)
    (pre rest : string) :
  ParseSum (fuel_for src) (Calc L src) = (Ok v, zip (Calc L src) pre) ->
  src = pre +:+ rest -> ctype.isspace (head rest) = false ->
  Evaluate_source L src
  = if Ascii.eqb (head rest) NUL then Ok v
    else Throw (ParseError "Syntax error." (String.length pre)).
Proof.
  intros HS Hsrc Hsp. unfold Evaluate_source.
  rewrite (Evaluate_after_Sum _ _ _ v pre rest HS).
  - destruct (Ascii.eqb (head rest) NUL); reflexivity.
  - apply zip_at_cursor. exact Hsrc.
  - exact Hsp.
  - unfold fuel_for. lia.
Qed.

(** * The claims *)

(** C1.  After [*] or [/] the right operand is parsed by [ParseSum], not by
    [ParseProduct]: whenever the left term has been read and the next
    character after white space is the operator, [ParseProduct] returns the
    left value multiplied (divided) by what a whole Sum at the following
    position evaluates to.  So for all unsigned integers a, b and c the
    source "a*b+c" is a*(b+c), and the like for [/] and [-]: "2*3+4" is
    2*(3+4) = 14 and not 10, and "8/2+2" is 8/(2+2) = 2. *)
Theorem C1_Product_right_operand_is_Sum :
  (forall (n : nat) (c c1 c2 : state) (left : float) (op : ascii),
      ParseTerm n c = (Ok left, c1) ->
      SkipWhite (S n) c1 = (Ok tt, c2) ->
      peek c2 = op -> is_times_or_divide op = true ->
      ParseProduct (S n) c
      = (right ← (ParseSum n : M float);
         mret (multiplicative op left right)) (moved c2))
  /\ (forall (L : libm) (a : string) (mul : ascii) (b : string) (op : ascii)
             (c : string) (va vb vc : float),
         digits_text a = true -> is_times_or_divide mul = true ->
         digits_text b = true -> is_sign op = true -> digits_text c = true ->
         stod a = stod_value va -> stod b = stod_value vb ->
         stod c = stod_value vc ->
         Evaluate_source L (a +:+ String mul (b +:+ String op c))
         = Ok (multiplicative mul va (additive op vb vc)))
  /\ (forall L : libm,
         Evaluate_source L "2*3+4" = Ok 14%float
         /\ Evaluate_source L "2*3+4" <> Ok 10%float
         /\ Evaluate_source L "8/2+2" = Ok 2%float).
Proof.
  split; [|split].
  - apply ParseProduct_operator.
  - intros L a mul b op c va vb vc Ha Hmul Hb Hop Hc Hva Hvb Hvc.
    set (src := a +:+ String mul (b +:+ String op c)).
    destruct (multiplicative_facts mul Hmul) as (Hnz & Hnum & Hsp & _).
    assert (Hlen : String.length src
                   = String.length a + S (String.length (b +:+ String op c))).
    { unfold src. rewrite length_append. reflexivity. }
    assert (Hsrc : src = (a +:+ String mul EmptyString) +:+ b +:+ String op (c +:+ EmptyString)).
    { unfold src. rewrite append_assoc, append_nil_r. reflexivity. }
    set (whole := ((a +:+ String mul EmptyString) +:+ b +:+ String op EmptyString) +:+ c).
    assert (Hwhole : src = whole +:+ EmptyString).
    { unfold whole. rewrite Hsrc, !append_assoc. reflexivity. }
    assert (HProd : ParseProduct (4 * String.length src + 4) (Calc L src)
                    = (Ok (multiplicative mul va (additive op vb vc)),
                       zip (Calc L src) whole)).
    { replace (4 * String.length src + 4) with (S (S (4 * String.length src + 2))) by lia.
      rewrite (ParseProduct_operator _ (Calc L src) (zip (Calc L src) a)
                 (zip (Calc L src) a) va mul); auto.
      - change (moved (zip (Calc L src) a)) with (skip 1 (zip (Calc L src) a)).
        rewrite (skip_zip 1 _ a (String mul EmptyString) eq_refl).
        replace (S (4 * String.length src + 2))
          with (S (S (S (4 * String.length src)))) by lia.
        assert (Hlen2 : String.length (b +:+ String op (c +:+ EmptyString))
                        < S (4 * String.length src))
          by (rewrite append_nil_r; lia).
        rewrite bind_eq.
        rewrite (zip_ParseSum_two _ (Calc L src) (a +:+ String mul EmptyString)
                   b op c EmptyString vb vc Hsrc Hlen2 Hb Hop Hc eq_refl Hvb Hvc).
        reflexivity.
      - rewrite <- (zip_start L src) at 1.
        apply (zip_ParseTerm_digits _ (Calc L src) EmptyString a _ va eq_refl);
          auto. fold src. lia.
      - apply (zip_SkipWhite_none _ _ a (String mul (b +:+ String op c)));
          [reflexivity | exact Hsp | lia].
      - apply (at_cursor_peek _ a (String mul (b +:+ String op c))).
        apply zip_at_cursor. reflexivity. }
    assert (HSum : ParseSum (fuel_for src) (Calc L src)
                   = (Ok (multiplicative mul va (additive op vb vc)),
                      zip (Calc L src) whole)).
    { unfold fuel_for.
      replace (4 * String.length src + 5) with (S (4 * String.length src + 4)) by lia.
      apply (ParseSum_no_operator _ _ _ _ whole EmptyString HProd);
        [apply zip_at_cursor; exact Hwhole | reflexivity | reflexivity]. }
    apply (Evaluate_source_after_Sum L src _ whole EmptyString HSum Hwhole eq_refl).
  - intros L. split; [|split].
    + vm_compute. reflexivity.
    + assert (Evaluate_source L "2*3+4" = Ok 14%float) as -> by (vm_compute; reflexivity).
      intros H.
      apply (f_equal (fun r => match r with
                               | Ok x => PrimFloat.ltb x 12
                               | _ => false
                               end)) in H.
      vm_compute in H. discriminate H.
    + vm_compute. reflexivity.
Qed.

Lemma C1_witness :
  ParseProduct 12 (Calc series_libm "2*3+4")
  = (Ok 14%float, skip 5 (Calc series_libm "2*3+4"))
  /\ Evaluate_source series_libm "12/3-1" = Ok 6%float.
Proof.
  split.
  - rewrite (proj1 C1_Product_right_operand_is_Sum 11
               (Calc series_libm "2*3+4") (skip 1 (Calc series_libm "2*3+4"))
               (skip 1 (Calc series_libm "2*3+4")) 2%float "*"%char);
      vm_compute; reflexivity.
  - apply (proj1 (proj2 C1_Product_right_operand_is_Sum) series_libm
             "12" "/"%char "3" "-"%char "1" 12%float 3%float 1%float);
      vm_compute; reflexivity.
Defined.

(** C2.  A Sum reads one operator at most: after [+] or [-] it parses one
    more Product and returns.  So for all unsigned integers a and b the
    source "a+b" is a+b and "a-b" is a-b, while "a+b" followed by one more
    [+] or [-] and anything at all is rejected by [ParseExpression], with
    "Syntax error." at the offset of that second operator: "1+2" is 3,
    "4-5" is -1, and "1+2+3" fails at offset 3. *)
Theorem C2_Sum_single_operator :
  (forall (n : nat) (c c1 c2 : state) (left : float) (op : ascii),
      ParseProduct n c = (Ok left, c1) ->
      SkipWhite (S n) c1 = (Ok tt, c2) ->
      peek c2 = op -> is_sign op = true ->
      ParseSum (S n) c
      = (right ← (ParseProduct n : M float);
         mret (additive op left right)) (moved c2))
  /\ (forall (L : libm) (a : string) (op : ascii) (b : string) (va vb : float),
         digits_text a = true -> is_sign op = true -> digits_text b = true ->
         stod a = stod_value va -> stod b = stod_value vb ->
         Evaluate_source L (a +:+ String op b) = Ok (additive op va vb))
  /\ (forall (L : libm) (a : string) (op : ascii) (b : string) (op2 : ascii)
             (rest : string) (va vb : float),
         digits_text a = true -> is_sign op = true -> digits_text b = true ->
         is_sign op2 = true ->
         stod a = stod_value va -> stod b = stod_value vb ->
         Evaluate_source L (a +:+ String op (b +:+ String op2 rest))
         = Throw (ParseError "Syntax error." (String.length (a +:+ String op b))))
  /\ (forall L : libm,
         Evaluate_source L "1+2" = Ok 3%float
         /\ Evaluate_source L "4-5" = Ok (-1)%float
         /\ Evaluate_source L "1+2+3" = Throw (ParseError "Syntax error." 3)).
Proof.
  split; [|split; [|split]].
  - apply ParseSum_operator.
  - intros L a op b va vb Ha Hop Hb Hva Hvb.
    pose proof (ParseSum_two_start L a op b EmptyString va vb 0
                  Ha Hop Hb eq_refl Hva Hvb) as HS.
    rewrite append_nil_r, Nat.add_0_r in HS.
    apply (Evaluate_source_after_Sum L _ _ _ EmptyString HS);
      [|reflexivity].
    rewrite append_nil_r, append_assoc. reflexivity.
  - intros L a op b op2 rest va vb Ha Hop Hb Hop2 Hva Hvb.
    destruct (additive_facts op2 Hop2) as (Hnz & Hend & _).
    destruct (ends_product_facts _ Hend) as (_ & Hsp & _ & _).
    pose proof (ParseSum_two_start L a op b (String op2 rest) va vb 0
                  Ha Hop Hb Hend Hva Hvb) as HS.
    rewrite Nat.add_0_r in HS.
    rewrite (Evaluate_source_after_Sum L _ _ _ (String op2 rest) HS).
    + cbn [head]. destruct (Ascii.eqb_spec op2 NUL); [contradiction|].
      rewrite append_assoc. reflexivity.
    + rewrite !append_assoc. reflexivity.
    + exact Hsp.
  - intros L. repeat match goal with |- _ /\ _ => split end;
      vm_compute; reflexivity.
Qed.

Lemma C2_witness :
  ParseSum 12 (Calc series_libm "1+2+3")
  = (Ok 3%float, skip 3 (Calc series_libm "1+2+3"))
  /\ Evaluate_source series_libm "10-4" = Ok 6%float
  /\ Evaluate_source series_libm "10-4-(1)" = Throw (ParseError "Syntax error." 4).
Proof.
  split; [|split].
  - rewrite (proj1 C2_Sum_single_operator 11
               (Calc series_libm "1+2+3") (skip 1 (Calc series_libm "1+2+3"))
               (skip 1 (Calc series_libm "1+2+3")) 1%float "+"%char);
      vm_compute; reflexivity.
  - apply (proj1 (proj2 C2_Sum_single_operator) series_libm
             "10" "-"%char "4" 10%float 4%float); vm_compute; reflexivity.
  - apply (proj1 (proj2 (proj2 C2_Sum_single_operator)) series_libm
             "10" "-"%char "4" "-"%char "(1)" 10%float 4%float);
      vm_compute; reflexivity.
Defined.



(** C4.  A sign is read only as the first character of a numeral: when the
    next character of a term is [+] or [-], [ParseTerm] is [GetConstant]
    and nothing else.  Hence "1+-2" is 1 + (-2) = -1, and every source that
    begins with a sign that no digit follows (directly, or after a point)
    fails with a parse error: "-", "-.", and also "-(1)" and "-pi", for
    there is no unary minus. *)
Theorem C4_unary_sign_only_in_Constant :
  (forall (n : nat) (c c1 : state),
      SkipWhite (S n) c = (Ok tt, c1) -> is_sign (peek c1) = true ->
      ParseTerm (S n) c = GetConstant (S n) c1)
  /\ (forall (L : libm) (ws : string) (sgn : ascii) (point : bool) (rest : string),
         every ctype.isspace ws = true -> is_sign sgn = true ->
         ctype.isdigit (head rest) = false ->
         (point = false -> Ascii.eqb (head rest) "." = false) ->
         exists (message : string) (position : nat),
           Evaluate_source L (ws +:+ String sgn (point_text point +:+ rest))
           = Throw (ParseError message position))
  /\ (forall L : libm,
         Evaluate_source L "1+-2" = Ok (-1)%float
         /\ Evaluate_source L "-" = Throw (ParseError "Invalid float." 1)
         /\ Evaluate_source L "-." = Throw (ParseError "Invalid float." 2)
         /\ Evaluate_source L "-(1)" = Throw (ParseError "Invalid float." 1)
         /\ Evaluate_source L "-pi" = Throw (ParseError "Invalid float." 1)).
Proof.
  split; [|split].
  - intros n c c1 HW Hsign. rewrite ParseTerm_S. unfold ParseTerm_body.
    rewrite (bind_Ok _ _ _ _ _ HW), (bind_Ok _ _ _ _ _ (PeekChar_peek c1)).
    rewrite (first_char_not_paren _ (sign_first_char _ Hsign)).
    rewrite (sign_first_char _ Hsign). reflexivity.
  - intros L ws sgn point rest Hw Hs Hd Hp.
    set (src := ws +:+ String sgn (point_text point +:+ rest)).
    destruct (lex_mantissa_no_digit ws (String sgn EmptyString) point rest
                Hw (sign_one sgn Hs) ltac:(discriminate) Hd Hp)
      as (Hsp & Hfirst & Hlex).
    change (ws +:+ String sgn EmptyString +:+ point_text point +:+ rest)
      with src in Hsp, Hlex.
    assert (HG : exists message position,
               (GetConstant (4 * String.length src + 3) (Calc L src)).1
               = Throw (ParseError message position)).
    { rewrite (GetConstant_start L src) by lia. rewrite Hlex.
      destruct (lex_exponent (String sgn EmptyString +:+ point_text point) rest)
        as [[|] [s t']] eqn:E; [|eauto].
      apply lex_exponent_shape in E as (x & -> & Hx).
      rewrite append_assoc, stod_no_digit; eauto using sign_one.
      - destruct Hx as [->|Hx]; [reflexivity | now apply marker_not_digit].
      - intros _. destruct Hx as [->|Hx]; [reflexivity | now apply marker_not_point].
      - discriminate. }
    destruct HG as (message & position & HG). exists message, position.
    apply Evaluate_source_numeral_Throw; [|exact HG].
    rewrite Hsp. exact Hfirst.
  - intros L. repeat match goal with |- _ /\ _ => split end;
      vm_compute; reflexivity.
Qed.

Lemma C4_witness :
  ParseTerm 9 (Calc series_libm " -2") = GetConstant 9 (skip 1 (Calc series_libm " -2"))
  /\ exists (message : string) (position : nat),
       Evaluate_source series_libm " - 1" = Throw (ParseError message position).
Proof.
  split.
  - apply (proj1 C4_unary_sign_only_in_Constant 8); vm_compute; reflexivity.
  - apply (proj1 (proj2 C4_unary_sign_only_in_Constant) series_libm
             " " "-"%char false " 1"); try reflexivity.
Defined.

(** C5, as the spec states it, fails: for "-" the literal starts at offset
    0 and the error is reported at offset 1. *)
Lemma C5_counterexample :
  Evaluate_source series_libm "-" = Throw (ParseError "Invalid float." 1)
  /\ Evaluate_source series_libm "-" <> Throw (ParseError "Invalid float." 0).
Proof.
  assert (H : Evaluate_source series_libm "-" = Throw (ParseError "Invalid float." 1))
    by (vm_compute; reflexivity).
  split; [exact H|]. rewrite H. discriminate.
Qed.

Lemma gather_lex (fuel : nat) (c : state) (pre text s : string) (c' : state) :
  at_cursor c pre text -> String.length text < fuel ->
  GetConstant_gather fuel c = (Ok s, c') ->
  (exists t', lex_constant text = (true, (s, t')))
  /\ c' = zip c ((pre +:+ (span ctype.isspace text).1) +:+ s).
Proof.
  intros Hat Hlen HG. rewrite <- (at_cursor_zip c pre _ Hat) in HG.
  rewrite (zip_GetConstant_gather fuel c pre text (at_src _ _ _ Hat) Hlen) in HG.
  destruct (lex_constant text) as [[|] [s0 t']]; cbv beta iota zeta in HG;
    [|discriminate HG].
  injection HG as -> <-. eauto.
Qed.

(** C5, amended.  When [stod] finds nothing to convert in the text that
    [GetConstant] gathered, the evaluation fails with "Invalid float." at
    the position where the cursor then is, just after the gathered text:
    the start of the literal plus its length.  For a source that begins
    with a numeral the text is not empty, so the position is never the
    start of the literal.  A sign, a point, or both, with no digit and no
    exponent after them, are such texts: the position of "-" is 1. *)
Theorem C5_invalid_float_position :
  (forall (fuel : nat) (c : state) (pre text s : string) (c' : state),
      at_cursor c pre text -> String.length text < fuel ->
      GetConstant_gather fuel c = (Ok s, c') ->
      stod s = stod_invalid_argument ->
      let start := String.length pre + String.length (span ctype.isspace text).1 in
      String.substring start (String.length s) (m_src c) = s
      /\ m_currentPosition c' = start + String.length s
      /\ GetConstant fuel c
         = (Throw (ParseError "Invalid float." (start + String.length s)), c'))
  /\ (forall (L : libm) (src : string) (fuel : nat) (s : string) (c' : state),
         String.length src < fuel ->
         IsFirstCharOfDouble (head (span ctype.isspace src).2) = true ->
         GetConstant_gather fuel (Calc L src) = (Ok s, c') ->
         stod s = stod_invalid_argument ->
         0 < String.length s
         /\ Evaluate_source L src
            = Throw (ParseError "Invalid float."
                       (String.length (span ctype.isspace src).1 + String.length s)))
  /\ (forall (L : libm) (ws sgn : string) (point : bool) (rest : string),
         every ctype.isspace ws = true -> sign_text sgn = true ->
         sgn +:+ point_text point <> EmptyString ->
         ctype.isdigit (head rest) = false -> is_exp_marker (head rest) = false ->
         (point = false -> Ascii.eqb (head rest) "." = false) ->
         Evaluate_source L (ws +:+ sgn +:+ point_text point +:+ rest)
         = Throw (ParseError "Invalid float."
                    (String.length ws + String.length (sgn +:+ point_text point))))
  /\ (forall L : libm,
         Evaluate_source L "-" = Throw (ParseError "Invalid float." 1)
         /\ Evaluate_source L "+" = Throw (ParseError "Invalid float." 1)
         /\ Evaluate_source L "." = Throw (ParseError "Invalid float." 1)
         /\ Evaluate_source L "  -." = Throw (ParseError "Invalid float." 4)
         /\ Evaluate_source L "-e5" = Throw (ParseError "Invalid float." 3)).
Proof.
  assert (HA : forall (fuel : nat) (c : state) (pre text s : string) (c' : state),
             at_cursor c pre text -> String.length text < fuel ->
             GetConstant_gather fuel c = (Ok s, c') ->
             stod s = stod_invalid_argument ->
             GetConstant fuel c
             = (Throw (ParseError "Invalid float."
                         (String.length pre
                          + String.length (span ctype.isspace text).1
                          + String.length s)), c')).
  { intros fuel c pre text s c' Hat Hlen HG Hstod.
    destruct (gather_lex fuel c pre text s c' Hat Hlen HG) as [_ Hc'].
    unfold GetConstant. rewrite (bind_Ok _ _ _ _ _ HG), Hstod.
    rewrite throw_ParseError_eq, Hc'. cbn [m_currentPosition zip].
    now rewrite !length_append. }
  split; [|split; [|split]].
  - intros fuel c pre text s c' Hat Hlen HG Hstod start.
    destruct (gather_lex fuel c pre text s c' Hat Hlen HG) as [[t' Hlex] Hc'].
    split; [|split].
    + pose proof (lex_constant_append text) as Happ. rewrite Hlex in Happ.
      cbn [fst snd] in Happ.
      rewrite (at_src _ _ _ Hat), <- Happ, <- append_assoc.
      unfold start. rewrite <- length_append. apply substring_append.
    + rewrite Hc'. cbn [m_currentPosition zip]. unfold start.
      now rewrite !length_append.
    + apply HA; assumption.
  - intros L src fuel s c' Hlen Hfirst HG Hstod.
    destruct (gather_lex fuel _ EmptyString src s c' (at_cursor_start L src) Hlen HG)
      as [[t' Hlex] _].
    split.
    + pose proof (lex_constant_nonempty src Hfirst) as Hne.
      rewrite Hlex in Hne. exact Hne.
    + apply Evaluate_source_numeral_Throw; [exact Hfirst|].
      rewrite (GetConstant_start L src) by lia. rewrite Hlex, Hstod.
      cbn [fst m_currentPosition zip]. now rewrite length_append.
  - intros L ws sgn point rest Hw Hs Hne Hd Hm Hp.
    set (src := ws +:+ sgn +:+ point_text point +:+ rest).
    destruct (lex_mantissa_no_digit ws sgn point rest Hw Hs Hne Hd Hp)
      as (Hsp & Hfirst & Hlex). fold src in Hsp, Hlex.
    apply Evaluate_source_numeral_Throw; [rewrite Hsp; exact Hfirst|].
    rewrite (GetConstant_start L src) by lia.
    assert (Hstod : stod (sgn +:+ point_text point) = stod_invalid_argument).
    { rewrite <- (append_nil_r (sgn +:+ point_text point)), append_assoc.
      apply stod_no_digit; auto. }
    rewrite Hlex, Hsp, (lex_exponent_none _ rest Hm), Hstod.
    cbn [fst m_currentPosition zip]. now rewrite length_append.
  - intros L. repeat match goal with |- _ /\ _ => split end;
      vm_compute; reflexivity.
Qed.

Lemma C5_witness :
  (String.substring 2 1 "2*-x" = "-"
   /\ m_currentPosition (skip 3 (Calc series_libm "2*-x")) = 3
   /\ GetConstant 9 (skip 2 (Calc series_libm "2*-x"))
      = (Throw (ParseError "Invalid float." 3), skip 3 (Calc series_libm "2*-x")))
  /\ (0 < String.length "-.e2"
      /\ Evaluate_source series_libm " -.e2" = Throw (ParseError "Invalid float." 5))
  /\ Evaluate_source series_libm " +.)" = Throw (ParseError "Invalid float." 3).
Proof.
  split; [|split].
  - apply (proj1 C5_invalid_float_position 9 (skip 2 (Calc series_libm "2*-x"))
             "2*" "-x" "-" (skip 3 (Calc series_libm "2*-x")));
      try (vm_compute; reflexivity); try (vm_compute; lia).
    constructor; reflexivity.
  - apply (proj1 (proj2 C5_invalid_float_position) series_libm " -.e2" 9 "-.e2"
             (skip 5 (Calc series_libm " -.e2")));
      try (vm_compute; reflexivity); vm_compute; lia.
  - apply (proj1 (proj2 (proj2 C5_invalid_float_position)) series_libm
             " " "+" true ")"); try reflexivity; discriminate.
Defined.

(** C6.  An exponent marker, with or without a sign after it, that no digit
    follows is reported by its own error, at the position where the digit
    is missing: wherever [GetConstant] finds such a numeral, and so for any
    source that begins with one.  "1e" is the plainest case. *)
Theorem C6_missing_exponent_digits :
  (forall (fuel : nat) (c : state) (pre ws sgn ds1 frac : string) (mark : ascii)
          (sgn2 rest : string),
      let numeral := (sgn +:+ ds1 +:+ frac) +:+ String mark sgn2 in
      at_cursor c pre (ws +:+ sgn +:+ ds1 +:+ frac +:+ String mark (sgn2 +:+ rest)) ->
      String.length (ws +:+ sgn +:+ ds1 +:+ frac +:+ String mark (sgn2 +:+ rest)) < fuel ->
      every ctype.isspace ws = true -> sign_text sgn = true ->
      every ctype.isdigit ds1 = true -> fraction_text frac = true ->
      is_exp_marker mark = true -> sign_text sgn2 = true ->
      ctype.isdigit (head rest) = false ->
      (sgn2 = EmptyString -> is_sign (head rest) = false) ->
      (GetConstant fuel c).1
      = Throw (ParseError "Expected exponent in floating point constant."
                 (String.length ((pre +:+ ws) +:+ numeral))))
  /\ (forall (L : libm) (ws sgn ds1 frac : string) (mark : ascii)
             (sgn2 rest : string),
         let numeral := (sgn +:+ ds1 +:+ frac) +:+ String mark sgn2 in
         every ctype.isspace ws = true -> sign_text sgn = true ->
         every ctype.isdigit ds1 = true -> fraction_text frac = true ->
         sgn +:+ ds1 +:+ frac <> EmptyString ->
         is_exp_marker mark = true -> sign_text sgn2 = true ->
         ctype.isdigit (head rest) = false ->
         (sgn2 = EmptyString -> is_sign (head rest) = false) ->
         Evaluate_source L
           (ws +:+ sgn +:+ ds1 +:+ frac +:+ String mark (sgn2 +:+ rest))
         = Throw (ParseError "Expected exponent in floating point constant."
                    (String.length (ws +:+ numeral))))
  /\ (forall L : libm,
         Evaluate_source L "1e"
         = Throw (ParseError "Expected exponent in floating point constant." 2)).
Proof.
  assert (HG : forall (fuel : nat) (c : state) (pre ws sgn ds1 frac : string)
                 (mark : ascii) (sgn2 rest : string),
             at_cursor c pre (ws +:+ sgn +:+ ds1 +:+ frac +:+ String mark (sgn2 +:+ rest)) ->
             String.length (ws +:+ sgn +:+ ds1 +:+ frac +:+ String mark (sgn2 +:+ rest)) < fuel ->
             every ctype.isspace ws = true -> sign_text sgn = true ->
             every ctype.isdigit ds1 = true -> fraction_text frac = true ->
             is_exp_marker mark = true -> sign_text sgn2 = true ->
             ctype.isdigit (head rest) = false ->
             (sgn2 = EmptyString -> is_sign (head rest) = false) ->
             GetConstant fuel c
             = (Throw (ParseError "Expected exponent in floating point constant."
                         (String.length ((pre +:+ ws) +:+ (sgn +:+ ds1 +:+ frac) +:+ String mark sgn2))),
                zip c ((pre +:+ ws) +:+ (sgn +:+ ds1 +:+ frac) +:+ String mark sgn2))).
  { intros fuel c pre ws sgn ds1 frac mark sgn2 rest Hat Hlen Hw Hs Hd Hf Hm Hs2 Hr Hn.
    destruct (lex_constant_missing_exponent ws sgn ds1 frac mark sgn2 rest
                Hw Hs Hd Hf Hm Hs2 Hr Hn) as [Hsp Hlex].
    rewrite <- (at_cursor_zip c pre _ Hat) at 1.
    rewrite (zip_GetConstant fuel c pre _ (at_src _ _ _ Hat) Hlen).
    rewrite Hlex, Hsp. reflexivity. }
  split; [|split].
  - intros fuel c pre ws sgn ds1 frac mark sgn2 rest numeral Hat Hlen Hw Hs Hd Hf
      Hm Hs2 Hr Hn.
    rewrite (HG fuel c pre ws sgn ds1 frac mark sgn2 rest); auto.
  - intros L ws sgn ds1 frac mark sgn2 rest numeral Hw Hs Hd Hf Hne Hm Hs2 Hr Hn.
    set (src := ws +:+ sgn +:+ ds1 +:+ frac +:+ String mark (sgn2 +:+ rest)).
    destruct (lex_constant_missing_exponent ws sgn ds1 frac mark sgn2 rest
                Hw Hs Hd Hf Hm Hs2 Hr Hn) as [Hsp _]. fold src in Hsp.
    eapply (Evaluate_source_first_term_Throw L src).
    replace (4 * String.length src + 3) with (S (4 * String.length src + 2)) by lia.
    rewrite <- (zip_start L src).
    rewrite (zip_ParseTerm_numeral _ (Calc L src) EmptyString src eq_refl);
      [|lia|].
    + rewrite zip_start.
      apply (HG _ (Calc L src) EmptyString ws sgn ds1 frac mark sgn2 rest);
        auto using at_cursor_start. fold src. lia.
    + rewrite Hsp. cbn [snd]. apply mantissa_head; assumption.
  - intros L. vm_compute. reflexivity.
Qed.

Lemma C6_witness :
  Evaluate_source series_libm " -2.5E+x"
  = Throw (ParseError "Expected exponent in floating point constant." 7)
  /\ (GetConstant 9 (skip 2 (Calc series_libm "1+3e-"))).1
     = Throw (ParseError "Expected exponent in floating point constant." 5).
Proof.
  split.
  - apply (proj1 (proj2 C6_missing_exponent_digits) series_libm
             " " "-" "2" ".5" "E"%char "+" "x");
      try reflexivity; discriminate.
  - apply (proj1 C6_missing_exponent_digits 9 (skip 2 (Calc series_libm "1+3e-"))
             "1+" EmptyString EmptyString "3" EmptyString "e"%char "-" EmptyString);
      try reflexivity; try (vm_compute; lia); try discriminate.
    constructor; reflexivity.
Defined.

(** [Evaluate] does not rewind the cursor: called again on the same object
    it starts where the first call stopped.  It is the new object of each
    run that makes the runs independent. *)
Example Evaluate_again_on_the_same_object (L : libm) :
  let first := Evaluate 9 (Calc L "1") in
  first.1 = Ok 1%float
  /\ (Evaluate 9 first.2).1
     = Throw (ParseError
                "Expected a number, symbol or parenthesized expression." 1).
Proof. split; vm_compute; reflexivity. Qed.

Lemma keeps_cursor_stepM {A} (m : M A) : stepM m -> keeps_cursor m.
Proof.
  intros H c Hc. specialize (H c). split.
  - apply (step_inv c); assumption.
  - apply (step_forward _ _ H).
Qed.

(** C8.  [0 <= m_currentPosition <= m_src.length()] holds of a new object,
    and every primitive of the cursor and every parsing procedure, however
    it ends, leaves it true and leaves the position where it was or
    further on. *)
Theorem C8_cursor_invariant :
  (forall (L : libm) (src : string), cursor_inv (Calc L src))
  /\ keeps_cursor PeekChar
  /\ keeps_cursor GetChar
  /\ (forall fuel, keeps_cursor (SkipWhite fuel))
  /\ (forall ch, keeps_cursor (Consume ch))
  /\ (forall fuel, keeps_cursor (GetSymbol fuel))
  /\ (forall fuel, keeps_cursor (GetConstant fuel))
  /\ (forall fuel, keeps_cursor (ParseIdentifier fuel))
  /\ (forall fuel, keeps_cursor (ParseTerm fuel))
  /\ (forall fuel, keeps_cursor (ParseProduct fuel))
  /\ (forall fuel, keeps_cursor (ParseSum fuel))
  /\ (forall fuel, keeps_cursor (ParseExpression fuel))
  /\ (forall fuel, keeps_cursor (Evaluate fuel)).
Proof.
  split.
  { intros L src. unfold cursor_inv. simpl. lia. }
  repeat match goal with |- _ /\ _ => split end;
    intros; apply keeps_cursor_stepM; auto with stepM.
  - apply stepM_ParseExpression.
  - apply stepM_Evaluate.
Qed.

Lemma C8_witness :
  cursor_inv (Evaluate 25 (Calc series_libm "(1+2)*3")).2
  /\ 0 <= m_currentPosition (Evaluate 25 (Calc series_libm "(1+2)*3")).2.
Proof.
  destruct C8_cursor_invariant as (H0 & H).
  do 11 destruct H as [_ H].
  apply (H 25 (Calc series_libm "(1+2)*3")), H0.
Defined.

(** C9.  Evaluation ends on every source: with the fuel of [fuel_for] the
    model never runs out, and more fuel changes nothing.  The reason is
    that Product, Term and Identifier enter Sum only after a character has
    been read: what they do in a state depends on Sum only in states with
    fewer characters left. *)
Theorem C9_Evaluate_terminates :
  (forall (L : libm) (src : string),
      Evaluate_source L src <> OutOfFuel
      /\ forall fuel, Evaluate (fuel_for src + fuel) (Calc L src)
                      = Evaluate (fuel_for src) (Calc L src))
  /\ (forall (fuel : nat) (T S S' I : M float) (c : state),
         (forall c', remaining c' < remaining c -> S c' = S' c') ->
         (stepM T -> ParseProduct_body fuel T S c = ParseProduct_body fuel T S' c)
         /\ ParseTerm_body fuel S I c = ParseTerm_body fuel S' I c
         /\ ParseIdentifier_body fuel S c = ParseIdentifier_body fuel S' c).
Proof.
  split.
  - intros L src. split; [apply fuel_for_enough|].
    intros fuel. apply refines_Evaluate; [lia | apply fuel_for_enough].
  - intros fuel T S S' I c HS. split; [|split].
    + intros HT. apply ParseProduct_body_calls_later; assumption.
    + apply ParseTerm_body_calls_later; assumption.
    + apply ParseIdentifier_body_calls_later; assumption.
Qed.

Lemma C9_witness :
  ParseTerm_body 13 (ParseSum 12) (ParseIdentifier 12) (Calc series_libm "(1)")
  = ParseTerm_body 13 (ParseSum 30) (ParseIdentifier 12) (Calc series_libm "(1)").
Proof.
  apply (proj2 C9_Evaluate_terminates 13 (ParseTerm 12) (ParseSum 12)
           (ParseSum 30) (ParseIdentifier 12) (Calc series_libm "(1)")).
  intros c' Hc'. symmetry. apply (refines_ParseSum 12 30); [lia|].
  apply (safeM_ParseSum 12 3); [lia | exact Hc'].
Defined.

(** C10.  A NUL in the source ends it: the source [s1], a NUL and anything
    after it evaluates exactly as [s1] alone (same value, same error and
    position).  So "1+2", NUL, "+3" is 3: nothing after the NUL is reported
    as trailing input. *)
Theorem C10_NUL_truncates (L : libm) :
  (forall s1 s2 : string,
      Evaluate_source L (s1 +:+ String NUL s2) = Evaluate_source L s1)
  /\ Evaluate_source L ("1+2" +:+ String NUL "+3") = Ok 3%float
  /\ Evaluate_source L ("1+2" +:+ String NUL "+3") <> Evaluate_source L "1+2+3".
Proof.
  assert (H : forall s1 s2 : string,
             Evaluate_source L (s1 +:+ String NUL s2) = Evaluate_source L s1).
  { intros s1 s2.
    rewrite <- (Evaluate_source_more_fuel L s1 (fuel_for (s1 +:+ String NUL s2))).
    - unfold Evaluate_source.
      apply (simM_ParseExpression _ _ _ (truncated_Calc L s1 s2)).
    - unfold fuel_for. rewrite length_append. lia. }
  split; [exact H | split].
  - rewrite H. vm_compute. reflexivity.
  - rewrite H.
    assert (Evaluate_source L "1+2" = Ok 3%float) as -> by (vm_compute; reflexivity).
    assert (Evaluate_source L "1+2+3" = Throw (ParseError "Syntax error." 3)) as ->
      by (vm_compute; reflexivity).
    discriminate.
Qed.

(** * Further properties of the code *)

(** ** One source inside another

    The cursor only looks forward, and what it finds at the end of the
    text it finds before a closing character as well.  So what a call
    does on a source it does on a longer source that holds the first
    one. *)

Lemma get_past (s : string) (n : nat) :
  String.length s <= n -> String.get n s = None.
Proof.
  revert n. induction s as [|ch s IH]; intros n H; [reflexivity|].
  destruct n as [|n]; simpl in *; [lia|]. apply IH. lia.
Qed.

Lemma peek_char_at (c : state) : peek c = char_at (m_currentPosition c) (m_src c).
Proof.
  unfold peek, char_at.
  destruct (Nat.leb_spec (String.length (m_src c)) (m_currentPosition c)) as [H|H];
    [|reflexivity].
  now rewrite (get_past _ _ H).
Qed.

Lemma char_at_app_l (s t : string) (n : nat) :
  n < String.length s -> char_at n (s +:+ t) = char_at n s.
Proof. intros H. unfold char_at. now rewrite <- String.append_correct1. Qed.

Lemma char_at_app_r (s t : string) (n : nat) :
  char_at (String.length s + n) (s +:+ t) = char_at n t.
Proof.
  unfold char_at. rewrite Nat.add_comm. now rewrite <- String.append_correct2.
Qed.

Lemma char_at_0 (t : string) : char_at 0 t = head t.
Proof. destruct t; reflexivity. Qed.

Lemma char_at_past (s : string) (n : nat) :
  String.length s <= n -> char_at n s = NUL.
Proof. intros H. unfold char_at. now rewrite (get_past _ _ H). Qed.

Lemma char_at_every (test : ascii -> bool) (s : string) (n : nat) :
  every test s = true -> n < String.length s -> test (char_at n s) = true.
Proof.
  revert n. induction s as [|ch s IH]; intros n He Hn; simpl in *; [lia|].
  apply andb_true_iff in He as [H1 H2].
  destruct n as [|n]; [exact H1|]. apply IH; [exact H2 | lia].
Qed.

Section Embedding.

Variables pre ws tail : string.

Local Notation "'related'" := (embedded pre ws tail).
Local Notation "'sim_at'" := (emb_at pre ws tail).
Local Notation "'sim'" := (embM pre ws tail).

Lemma embedded_peek (c1 c2 : state) (k : nat) :
  related c1 c2 ->
  m_currentPosition c2 = String.length pre + m_currentPosition c1 + k ->
  peek c2 = char_at (m_currentPosition c1 + k) (m_src c1 +:+ ws +:+ tail).
Proof.
  intros H Hk. rewrite peek_char_at, (emb_src _ _ _ _ _ H), Hk, <- Nat.add_assoc.
  apply char_at_app_r.
Qed.

Lemma space_not_NUL (ch : ascii) : ctype.isspace ch = true -> ch <> NUL.
Proof. intros H ->. discriminate H. Qed.

(** Where the two cursors can be. *)
Lemma embedded_cases (c1 c2 : state) :
  related c1 c2 ->
  (peek c1 <> NUL /\ peek c2 = peek c1 /\ related (moved c1) (moved c2))
  \/ (peek c1 = NUL /\ trailing (peek c2) = true).
Proof.
  intros H. pose proof H as [Hsrc Hk Hf Hinv Hws Htail (k & Hpos & Hle & Hend)].
  unfold cursor_inv in Hinv.
  rewrite (embedded_peek c1 c2 k H Hpos).
  destruct (Nat.eq_dec (m_currentPosition c1) (String.length (m_src c1))) as [He|Hne].
  - right. split.
    + rewrite peek_char_at. apply char_at_past. lia.
    + rewrite He, char_at_app_r. unfold trailing.
      destruct (Nat.eq_dec k (String.length ws)) as [->|Hk'].
      * rewrite <- (Nat.add_0_r (String.length ws)), char_at_app_r, char_at_0.
        rewrite Htail. apply orb_true_r.
      * rewrite char_at_app_l by lia.
        rewrite (char_at_every _ _ _ Hws) by lia. reflexivity.
  - assert (k = 0) as -> by lia. rewrite Nat.add_0_r.
    rewrite char_at_app_l by lia. rewrite <- peek_char_at.
    destruct (Ascii.eqb_spec (peek c1) NUL) as [Hz|Hnz].
    + right. split; [exact Hz|]. rewrite Hz. reflexivity.
    + left. split; [exact Hnz|]. split; [reflexivity|].
      constructor; simpl; try assumption.
      * unfold cursor_inv. simpl. lia.
      * exists 0. repeat split; lia.
Qed.

Lemma embedded_space_moved (c1 c2 : state) :
  related c1 c2 -> peek c1 = NUL -> ctype.isspace (peek c2) = true ->
  related c1 (moved c2).
Proof.
  intros H Hz Hsp. pose proof H as [Hsrc Hk Hf Hinv Hws Htail (k & Hpos & Hle & Hend)].
  unfold cursor_inv in Hinv.
  rewrite (embedded_peek c1 c2 k H Hpos) in Hsp.
  assert (He : m_currentPosition c1 = String.length (m_src c1)).
  { destruct (Nat.eq_dec (m_currentPosition c1) (String.length (m_src c1)))
      as [He|Hne]; [exact He|].
    assert (k = 0) as -> by lia. rewrite Nat.add_0_r in Hsp.
    rewrite char_at_app_l, <- peek_char_at, Hz in Hsp by lia. discriminate Hsp. }
  assert (Hlt : k < String.length ws).
  { destruct (Nat.eq_dec k (String.length ws)) as [->|Hk']; [|lia].
    rewrite He, char_at_app_r in Hsp.
    rewrite <- (Nat.add_0_r (String.length ws)), char_at_app_r, char_at_0 in Hsp.
    unfold closing in Htail. rewrite Hsp in Htail. discriminate Htail. }
  constructor; simpl; try assumption.
  exists (S k). repeat split; lia.
Qed.

(** With nothing after the inner source the cursors move together. *)
Lemma embedded_exact (c1 c2 : state) :
  related c1 c2 -> ws +:+ tail = EmptyString ->
  m_currentPosition c2 = String.length pre + m_currentPosition c1
  /\ peek c2 = peek c1.
Proof.
  intros H Hnil. pose proof H as [Hsrc Hk Hf Hinv Hws Htail (k & Hpos & Hle & Hend)].
  assert (ws = EmptyString) as Hw by (destruct ws; [reflexivity | discriminate Hnil]).
  rewrite Hw in Hle. simpl in Hle. assert (k = 0) as -> by lia.
  split; [lia|].
  rewrite (embedded_peek c1 c2 0 H Hpos), Hnil, append_nil_r, Nat.add_0_r.
  symmetry. apply peek_char_at.
Qed.

(** The outer cursor once the inner run is at its end and the white space
    after it has been skipped. *)
Lemma embedded_end (c1 c2 : state) :
  related c1 c2 -> peek c1 = NUL -> ctype.isspace (peek c2) = false ->
  (peek c2 = NUL /\ m_currentPosition c1 < String.length (m_src c1))
  \/ (peek c2 = head tail
      /\ m_currentPosition c1 = String.length (m_src c1)
      /\ m_currentPosition c2
         = String.length pre + String.length (m_src c1) + String.length ws).
Proof.
  intros H Hz Hsp. pose proof H as [Hsrc Hk Hf Hinv Hws Htail (k & Hpos & Hle & Hend)].
  unfold cursor_inv in Hinv.
  rewrite (embedded_peek c1 c2 k H Hpos) in Hsp |- *.
  destruct (Nat.eq_dec (m_currentPosition c1) (String.length (m_src c1))) as [He|Hne].
  - right. rewrite He, char_at_app_r in Hsp |- *.
    destruct (Nat.eq_dec k (String.length ws)) as [->|Hk'].
    + rewrite <- (Nat.add_0_r (String.length ws)), char_at_app_r, char_at_0.
      repeat split; lia.
    + rewrite char_at_app_l in Hsp by lia.
      rewrite (char_at_every _ _ _ Hws) in Hsp by lia. discriminate Hsp.
  - left. assert (k = 0) as -> by lia. rewrite Nat.add_0_r.
    rewrite char_at_app_l, <- peek_char_at by lia. split; [exact Hz | lia].
Qed.

(** *** The calls *)

Lemma embM_ret {A} (a : A) : sim (mret a : M A).
Proof. intros c1 c2 H. right. exists c2. split; [reflexivity | exact H]. Qed.

Lemma embM_out_of_fuel {A} : sim (@out_of_fuel A).
Proof. intros c1 c2 H. left. reflexivity. Qed.

Lemma embM_throw_ParseError {A} (message : string) :
  sim (@throw_ParseError A message).
Proof.
  intros c1 c2 H. right. rewrite !throw_ParseError_eq. intros Hnil. simpl.
  now rewrite (proj1 (embedded_exact c1 c2 H Hnil)).
Qed.

Lemma embM_throw_out_of_range {A} : sim (@throw A std_out_of_range).
Proof. intros c1 c2 H. right. intros _. reflexivity. Qed.

Lemma embM_find_function (symbol : string) : sim (find_function symbol).
Proof.
  intros c1 c2 H. right. unfold find_function. exists c2.
  split; [|exact H]. now rewrite (emb_functions _ _ _ _ _ H).
Qed.

Lemma embM_find_constant (symbol : string) : sim (find_constant symbol).
Proof.
  intros c1 c2 H. right. unfold find_constant. exists c2.
  split; [|exact H]. now rewrite (emb_constants _ _ _ _ _ H).
Qed.

Lemma emb_at_bind {A B} (m : M A) (k : A -> M B) (c1 c2 : state) :
  sim_at c1 c2 m -> (forall a, sim (k a)) -> sim_at c1 c2 (m ≫= k).
Proof.
  intros Hm Hk. unfold emb_at in *. rewrite !bind_eq.
  destruct Hm as [Hf|Hm].
  - left. destruct (m c2) as [[a|e|] c2']; simpl in Hf; try discriminate Hf.
    reflexivity.
  - destruct (m c1) as [[a|e|] c1'].
    + destruct Hm as (c2' & E2 & Hemb). rewrite E2. apply Hk, Hemb.
    + right. intros Hnil. specialize (Hm Hnil).
      destruct (m c2) as [[a|e'|] c2']; simpl in Hm; try discriminate Hm.
      injection Hm as ->. reflexivity.
    + right. exact I.
Qed.

Lemma embM_bind {A B} (m : M A) (k : A -> M B) :
  sim m -> (forall a, sim (k a)) -> sim (m ≫= k).
Proof. intros Hm Hk c1 c2 H. apply emb_at_bind; [apply Hm, H | exact Hk]. Qed.

Lemma PeekChar_as (c : state) (ch : ascii) : peek c = ch -> PeekChar c = (Ok ch, c).
Proof. intros <-. apply PeekChar_peek. Qed.

(** [if (test(PeekChar())) { GetChar(); ... } else ...] *)
Lemma embM_guard {A} (test : ascii -> bool) (k1 : ascii -> M A) (k2 : M A) :
  quiet test -> (forall ch, sim (k1 ch)) -> sim k2 ->
  sim (next ← PeekChar; if test next then ch ← GetChar; k1 ch else k2).
Proof.
  intros Hq H1 H2 c1 c2 H. unfold emb_at.
  rewrite (bind_Ok _ _ c1 _ _ (PeekChar_peek c1)),
    (bind_Ok _ _ c2 _ _ (PeekChar_peek c2)).
  destruct (embedded_cases _ _ H) as [(Hnz & Hp & Hm) | (Hz & Htr)].
  - rewrite Hp. destruct (test (peek c1)) eqn:Ht.
    + rewrite (bind_Ok _ _ c1 _ _ (GetChar_moves c1 _ (PeekChar_peek c1) Hnz)).
      rewrite (bind_Ok _ _ c2 _ _ (GetChar_moves c2 _ (PeekChar_as c2 _ Hp) Hnz)).
      apply (H1 _ _ _ Hm).
    + apply (H2 _ _ H).
  - rewrite Hz, (Hq NUL eq_refl), (Hq _ Htr). apply (H2 _ _ H).
Qed.

(** [if (test(PeekChar())) ... else ...] *)
Lemma embM_test {A} (test : ascii -> bool) (k1 k2 : M A) :
  blind test -> sim k1 -> sim k2 ->
  sim (next ← PeekChar; if test next then k1 else k2).
Proof.
  intros Hb H1 H2 c1 c2 H. unfold emb_at.
  rewrite (bind_Ok _ _ c1 _ _ (PeekChar_peek c1)),
    (bind_Ok _ _ c2 _ _ (PeekChar_peek c2)).
  destruct (embedded_cases _ _ H) as [(Hnz & Hp & Hm) | (Hz & Htr)].
  - rewrite Hp. destruct (test (peek c1)); [apply (H1 _ _ H) | apply (H2 _ _ H)].
  - rewrite Hz, (Hb _ Htr). destruct (test NUL); [apply (H1 _ _ H) | apply (H2 _ _ H)].
Qed.

Lemma embM_Consume (ch : ascii) : ch <> NUL -> sim (Consume ch).
Proof.
  intros Hch c1 c2 H. unfold emb_at.
  rewrite (Consume_eq ch c1 _ (PeekChar_peek c1)),
    (Consume_eq ch c2 _ (PeekChar_peek c2)).
  destruct (embedded_cases _ _ H) as [(Hnz & Hp & Hm) | (Hz & Htr)].
  - rewrite Hp. destruct (Ascii.eqb (peek c1) ch).
    + right. destruct (Ascii.eqb_spec (peek c1) NUL); [contradiction|].
      exists (moved c2). split; [reflexivity | exact Hm].
    + right. intros Hnil. simpl.
      now rewrite (proj1 (embedded_exact c1 c2 H Hnil)).
  - right. rewrite Hz. destruct (Ascii.eqb_spec NUL ch) as [E|_]; [congruence|].
    intros Hnil. destruct (embedded_exact c1 c2 H Hnil) as [Hpos Hpk].
    rewrite Hpk, Hz. destruct (Ascii.eqb_spec NUL ch) as [E|_]; [congruence|].
    simpl. now rewrite Hpos.
Qed.

Lemma embM_while_peek {A} (fuel : nat) (test : ascii -> bool)
    (f : A -> ascii -> A) (acc : A) :
  quiet test -> sim (while_peek fuel test f acc).
Proof.
  intros Hq. revert acc. induction fuel as [|fuel IH]; intros acc; simpl.
  - apply embM_out_of_fuel.
  - apply embM_guard; [exact Hq | intros ch; apply IH | apply embM_ret].
Qed.

(** [SkipWhite] on the outer object goes on through [ws] after the inner
    one has stopped at its end. *)
Lemma SkipWhite_at_end (fuel : nat) (c1 c2 : state) :
  related c1 c2 -> peek c1 = NUL ->
  (SkipWhite fuel c2).1 = OutOfFuel
  \/ exists c2', SkipWhite fuel c2 = (Ok tt, c2') /\ related c1 c2'.
Proof.
  revert c2. induction fuel as [|fuel IH]; intros c2 H Hz; [left; reflexivity|].
  unfold SkipWhite. simpl.
  rewrite (bind_Ok _ _ c2 _ _ (PeekChar_peek c2)).
  destruct (ctype.isspace (peek c2)) eqn:Hsp.
  - rewrite (bind_Ok _ _ c2 _ _
               (GetChar_moves c2 _ (PeekChar_peek c2) (space_not_NUL _ Hsp))).
    apply (IH (moved c2)); [|exact Hz].
    apply embedded_space_moved; assumption.
  - right. exists c2. split; [reflexivity | exact H].
Qed.

Lemma embM_SkipWhite (fuel : nat) : sim (SkipWhite fuel).
Proof.
  induction fuel as [|fuel IH]; [apply embM_out_of_fuel|].
  intros c1 c2 H. unfold emb_at.
  destruct (embedded_cases _ _ H) as [(Hnz & Hp & Hm) | (Hz & Htr)].
  - unfold SkipWhite. simpl.
    rewrite (bind_Ok _ _ c1 _ _ (PeekChar_peek c1)),
      (bind_Ok _ _ c2 _ _ (PeekChar_peek c2)), Hp.
    destruct (ctype.isspace (peek c1)) eqn:Hsp.
    + rewrite (bind_Ok _ _ c1 _ _ (GetChar_moves c1 _ (PeekChar_peek c1) Hnz)).
      rewrite (bind_Ok _ _ c2 _ _ (GetChar_moves c2 _ (PeekChar_as c2 _ Hp) Hnz)).
      apply (IH _ _ Hm).
    + right. exists c2. split; [reflexivity | exact H].
  - destruct (SkipWhite_at_end (S fuel) c1 c2 H Hz) as [Hf | (c2' & E2 & Hemb)];
      [left; exact Hf|].
    right. unfold SkipWhite at 1. simpl.
    rewrite (bind_Ok _ _ c1 _ _ (PeekChar_peek c1)), Hz.
    exists c2'. split; assumption.
Qed.

Create HintDb embM.

#[local] Hint Resolve embM_ret embM_out_of_fuel embM_throw_ParseError
  embM_throw_out_of_range embM_find_function embM_find_constant
  embM_SkipWhite : embM.

Ltac trailing_cases :=
  let ch := fresh "ch" in
  intros ch; destruct ch as [[] [] [] [] [] [] [] []]; vm_compute; congruence.

Ltac embM_go :=
  repeat first
    [ solve [auto 1 with embM nocore]
    | apply embM_Consume; not_NUL
    | apply embM_while_peek; trailing_cases
    | apply embM_guard; [trailing_cases | intros ? |]
    | apply embM_test; [trailing_cases | |]
    | apply embM_bind; [|intros ?]
    | match goal with
      | |- embM _ _ _ (match ?x with _ => _ end) => destruct x
      end ].

Lemma embM_GetSymbol (fuel : nat) : sim (GetSymbol fuel).
Proof. unfold GetSymbol. embM_go. Qed.

Lemma embM_GetConstant_sign (s : string) : sim (GetConstant_sign s).
Proof. unfold GetConstant_sign. embM_go. Qed.

Lemma embM_GetConstant_fraction (fuel : nat) (s : string) :
  sim (GetConstant_fraction fuel s).
Proof. unfold GetConstant_fraction. embM_go. Qed.

#[local] Hint Resolve embM_GetSymbol embM_GetConstant_sign
  embM_GetConstant_fraction : embM.

Lemma embM_GetConstant_exponent (fuel : nat) (s : string) :
  sim (GetConstant_exponent fuel s).
Proof. unfold GetConstant_exponent. embM_go. Qed.

#[local] Hint Resolve embM_GetConstant_exponent : embM.

Lemma embM_GetConstant_gather (fuel : nat) : sim (GetConstant_gather fuel).
Proof. unfold GetConstant_gather. embM_go. Qed.

#[local] Hint Resolve embM_GetConstant_gather : embM.

Lemma embM_GetConstant (fuel : nat) : sim (GetConstant fuel).
Proof. unfold GetConstant. embM_go. Qed.

#[local] Hint Resolve embM_GetConstant : embM.

Lemma embM_ParseSum_body (fuel : nat) (P : M float) :
  sim P -> sim (ParseSum_body fuel P).
Proof. intros HP. unfold ParseSum_body. embM_go. Qed.

Lemma embM_ParseProduct_body (fuel : nat) (T S : M float) :
  sim T -> sim S -> sim (ParseProduct_body fuel T S).
Proof. intros HT HS. unfold ParseProduct_body. embM_go. Qed.

Lemma embM_ParseIdentifier_body (fuel : nat) (S : M float) :
  sim S -> sim (ParseIdentifier_body fuel S).
Proof. intros HS. unfold ParseIdentifier_body. embM_go. Qed.

Lemma trailing_no_term (ch : ascii) :
  trailing ch = true ->
  Ascii.eqb ch "(" = false /\ IsFirstCharOfDouble ch = false
  /\ ctype.isalpha ch = false.
Proof. by_cases_on_then ch. Qed.

Lemma embM_ParseTerm_body (fuel : nat) (S I : M float) :
  sim S -> sim I -> sim (ParseTerm_body fuel S I).
Proof.
  intros HS HI. unfold ParseTerm_body. apply embM_bind; [apply embM_SkipWhite|].
  intros _ c1 c2 H. unfold emb_at.
  rewrite (bind_Ok _ _ c1 _ _ (PeekChar_peek c1)),
    (bind_Ok _ _ c2 _ _ (PeekChar_peek c2)).
  destruct (embedded_cases _ _ H) as [(Hnz & Hp & Hm) | (Hz & Htr)].
  - rewrite Hp. destruct (Ascii.eqb (peek c1) "(").
    + rewrite (bind_Ok _ _ c1 _ _ (GetChar_moves c1 _ (PeekChar_peek c1) Hnz)).
      rewrite (bind_Ok _ _ c2 _ _ (GetChar_moves c2 _ (PeekChar_as c2 _ Hp) Hnz)).
      assert (Hk : sim (result ← S; SkipWhite fuel;; Consume ")";; mret result))
        by embM_go.
      apply (Hk _ _ Hm).
    + destruct (IsFirstCharOfDouble (peek c1)); [apply embM_GetConstant, H|].
      destruct (ctype.isalpha (peek c1)); [apply HI, H|].
      apply embM_throw_ParseError, H.
  - destruct (trailing_no_term _ Htr) as (E1 & E2 & E3).
    rewrite E1, E2, E3, Hz. cbn [Ascii.eqb Bool.eqb NUL Ascii.zero].
    change (IsFirstCharOfDouble Ascii.zero) with false.
    change (ctype.isalpha Ascii.zero) with false. cbv iota.
    apply embM_throw_ParseError, H.
Qed.

Lemma embM_Parse (fuel : nat) :
  sim (ParseSum fuel) /\ sim (ParseProduct fuel)
  /\ sim (ParseTerm fuel) /\ sim (ParseIdentifier fuel).
Proof.
  induction fuel as [|n (HS & HP & HT & HI)].
  - split; [|split; [|split]]; apply embM_out_of_fuel.
  - split; [|split; [|split]].
    + apply (embM_ParseSum_body (S n)), HP.
    + apply (embM_ParseProduct_body (S n)); assumption.
    + apply (embM_ParseTerm_body (S n)); assumption.
    + apply (embM_ParseIdentifier_body (S n)), HS.
Qed.

Lemma embM_ParseSum (fuel : nat) : sim (ParseSum fuel).
Proof. apply embM_Parse. Qed.

End Embedding.

(** ** Where a call stops *)

Lemma bind_Ok_inv {A B} (m : M A) (k : A -> M B) (c : state) (b : B) (c' : state) :
  (m ≫= k) c = (Ok b, c') ->
  exists a c1, m c = (Ok a, c1) /\ k a c1 = (Ok b, c').
Proof.
  rewrite bind_eq. destruct (m c) as [[a|e|] c1]; intros H; try discriminate H.
  eauto.
Qed.

Lemma bind_at {A B} (m : M A) (k : A -> M B) (c c' : state) :
  m c = m c' -> (m ≫= k) c = (m ≫= k) c'.
Proof. intros E. rewrite !bind_eq, E. reflexivity. Qed.

Lemma SkipWhite_stops (fuel : nat) (c c' : state) :
  SkipWhite fuel c = (Ok tt, c') -> ctype.isspace (peek c') = false.
Proof.
  revert c. induction fuel as [|fuel IH]; intros c H; [discriminate H|].
  unfold SkipWhite in H. simpl in H.
  rewrite (bind_Ok _ _ c _ _ (PeekChar_peek c)) in H.
  destruct (ctype.isspace (peek c)) eqn:Hsp.
  - rewrite (bind_Ok _ _ c _ _
               (GetChar_moves c _ (PeekChar_peek c) (space_not_NUL _ Hsp))) in H.
    apply (IH _ H).
  - apply (f_equal snd) in H. simpl in H. now subst c'.
Qed.

Lemma SkipWhite_at_text (fuel : nat) (c : state) :
  ctype.isspace (peek c) = false -> 0 < fuel -> SkipWhite fuel c = (Ok tt, c).
Proof.
  intros Hsp Hf. destruct fuel as [|fuel]; [lia|].
  unfold SkipWhite. simpl.
  rewrite (bind_Ok _ _ c _ _ (PeekChar_peek c)), Hsp. reflexivity.
Qed.

Lemma ParseSum_body_stops (fuel : nat) (P : M float) (c : state) (v : float)
    (c' : state) :
  (forall c v c', P c = (Ok v, c') -> ctype.isspace (peek c') = false) ->
  ParseSum_body fuel P c = (Ok v, c') -> ctype.isspace (peek c') = false.
Proof.
  intros HP H. unfold ParseSum_body in H.
  apply bind_Ok_inv in H as (left & c1 & _ & H).
  apply bind_Ok_inv in H as ([] & c2 & HW & H).
  apply SkipWhite_stops in HW.
  rewrite (bind_Ok _ _ c2 _ _ (PeekChar_peek c2)) in H.
  destruct (Ascii.eqb (peek c2) "+").
  { apply bind_Ok_inv in H as (ch & c3 & _ & H).
    apply bind_Ok_inv in H as (right & c4 & HR & H).
    apply (f_equal snd) in H. simpl in H. subst c4. apply (HP _ _ _ HR). }
  rewrite (bind_Ok _ _ c2 _ _ (PeekChar_peek c2)) in H.
  destruct (Ascii.eqb (peek c2) "-").
  { apply bind_Ok_inv in H as (ch & c3 & _ & H).
    apply bind_Ok_inv in H as (right & c4 & HR & H).
    apply (f_equal snd) in H. simpl in H. subst c4. apply (HP _ _ _ HR). }
  apply (f_equal snd) in H. simpl in H. now subst c'.
Qed.

Lemma ParseProduct_body_stops (fuel : nat) (T S : M float) (c : state) (v : float)
    (c' : state) :
  (forall c v c', S c = (Ok v, c') -> ctype.isspace (peek c') = false) ->
  ParseProduct_body fuel T S c = (Ok v, c') -> ctype.isspace (peek c') = false.
Proof.
  intros HS H. unfold ParseProduct_body in H.
  apply bind_Ok_inv in H as (left & c1 & _ & H).
  apply bind_Ok_inv in H as ([] & c2 & HW & H).
  apply SkipWhite_stops in HW.
  rewrite (bind_Ok _ _ c2 _ _ (PeekChar_peek c2)) in H.
  destruct (Ascii.eqb (peek c2) "*").
  { apply bind_Ok_inv in H as (ch & c3 & _ & H).
    apply bind_Ok_inv in H as (right & c4 & HR & H).
    apply (f_equal snd) in H. simpl in H. subst c4. apply (HS _ _ _ HR). }
  rewrite (bind_Ok _ _ c2 _ _ (PeekChar_peek c2)) in H.
  destruct (Ascii.eqb (peek c2) "/").
  { apply bind_Ok_inv in H as (ch & c3 & _ & H).
    apply bind_Ok_inv in H as (right & c4 & HR & H).
    apply (f_equal snd) in H. simpl in H. subst c4. apply (HS _ _ _ HR). }
  apply (f_equal snd) in H. simpl in H. now subst c'.
Qed.

(** A Sum and a Product that return have read the white space after them. *)
Lemma Parse_stops (n : nat) :
  (forall c v c', ParseSum n c = (Ok v, c') -> ctype.isspace (peek c') = false)
  /\ (forall c v c', ParseProduct n c = (Ok v, c') -> ctype.isspace (peek c') = false).
Proof.
  induction n as [|n [HS HP]]; [split; intros c v c' H; discriminate H|].
  split; intros c v c' H.
  - rewrite ParseSum_S in H. apply (ParseSum_body_stops _ _ _ _ _ HP H).
  - rewrite ParseProduct_S in H. apply (ParseProduct_body_stops _ _ _ _ _ _ HS H).
Qed.

Lemma ParseSum_fuel (n : nat) (c : state) (v : float) (c' : state) :
  ParseSum n c = (Ok v, c') -> 0 < n.
Proof. destruct n; [discriminate | lia]. Qed.

(** [Evaluate] returns when [ParseSum] returns with the cursor at the end
    of the text, or on a NUL. *)
Lemma Evaluate_Ok_iff (n : nat) (c : state) (v : float) (c' : state) :
  Evaluate n c = (Ok v, c') <-> ParseSum n c = (Ok v, c') /\ peek c' = NUL.
Proof.
  unfold Evaluate, ParseExpression. split.
  - intros H. apply bind_Ok_inv in H as (x & c1 & HS & H).
    pose proof (proj1 (Parse_stops n) _ _ _ HS) as Hsp.
    rewrite (bind_Ok _ _ c1 _ _
               (SkipWhite_at_text n c1 Hsp (ParseSum_fuel _ _ _ _ HS))) in H.
    rewrite (bind_Ok _ _ c1 _ _ (PeekChar_peek c1)) in H.
    destruct (Ascii.eqb_spec (peek c1) NUL) as [Hz|Hnz]; [|discriminate H].
    simpl in H. assert (c1 = c') as -> by (apply (f_equal snd) in H; exact H).
    split; [|exact Hz].
    rewrite HS. f_equal. apply (f_equal fst) in H. simpl in H. congruence.
  - intros [HS Hz]. rewrite (bind_Ok _ _ c _ _ HS).
    rewrite (bind_Ok _ _ c' _ _ (SkipWhite_at_text n c' ltac:(now rewrite Hz)
                                   (ParseSum_fuel _ _ _ _ HS))).
    rewrite (bind_Ok _ _ c' _ _ (PeekChar_peek c')), Hz. reflexivity.
Qed.

(** ** White space around a source *)

Lemma embM_end_check (pre ws : string) (fuel : nat) (x : float) :
  embM pre ws EmptyString
    (SkipWhite fuel;;
     next ← PeekChar;
     if negb (Ascii.eqb next NUL)
     then throw_ParseError "Syntax error."
     else mret x).
Proof.
  intros c1 c2 H. unfold emb_at.
  destruct (embM_SkipWhite pre ws EmptyString fuel c1 c2 H) as [Hf | Hs].
  { left. rewrite bind_eq.
    destruct (SkipWhite fuel c2) as [[a|e|] c2']; simpl in Hf; try discriminate Hf.
    reflexivity. }
  rewrite !bind_eq. destruct (SkipWhite fuel c1) as [[[]|e|] c1'] eqn:E1.
  - destruct Hs as (c2' & E2 & Hemb). rewrite E2. right.
    pose proof (SkipWhite_stops _ _ _ E2) as Hsp.
    rewrite (bind_Ok _ _ c1' _ _ (PeekChar_peek c1')),
      (bind_Ok _ _ c2' _ _ (PeekChar_peek c2')).
    destruct (embedded_cases _ _ _ _ _ Hemb) as [(Hnz & Hp & _) | (Hz & _)].
    + rewrite Hp. destruct (Ascii.eqb_spec (peek c1') NUL); [contradiction|].
      cbn [negb]. rewrite !throw_ParseError_eq. intros Hnil. simpl.
      now rewrite (proj1 (embedded_exact _ _ _ _ _ Hemb Hnil)).
    + assert (Hz2 : peek c2' = NUL).
      { destruct (embedded_end _ _ _ _ _ Hemb Hz Hsp) as [[E _] | [E _]]; exact E. }
      rewrite Hz, Hz2. simpl. exists c2'. split; [reflexivity | exact Hemb].
  - right. intros Hnil. specialize (Hs Hnil).
    destruct (SkipWhite fuel c2) as [[a|e'|] c2']; simpl in Hs; try discriminate Hs.
    injection Hs as ->. reflexivity.
  - right. exact I.
Qed.

Lemma embM_ParseExpression (pre ws : string) (fuel : nat) :
  embM pre ws EmptyString (ParseExpression fuel).
Proof.
  unfold ParseExpression. apply embM_bind; [apply embM_ParseSum|].
  intros x. apply embM_end_check.
Qed.

Lemma span_every_append (test : ascii -> bool) (run t : string) :
  every test run = true ->
  span test (run +:+ t) = (run +:+ (span test t).1, (span test t).2).
Proof.
  induction run as [|ch run IH]; intros H.
  - change (EmptyString +:+ t) with t.
    change (EmptyString +:+ (span test t).1) with (span test t).1.
    now destruct (span test t).
  - simpl in H. apply andb_true_iff in H as [H1 H2].
    rewrite !append_cons. simpl. rewrite H1, (IH H2). reflexivity.
Qed.

(** The first thing an evaluation does is to skip white space. *)
Lemma Evaluate_leading_space (n : nat) (c : state) (run text : string) :
  m_src c = run +:+ text -> every ctype.isspace run = true ->
  String.length (run +:+ text) < S n ->
  Evaluate (S (S (S n))) (zip c EmptyString) = Evaluate (S (S (S n))) (zip c run).
Proof.
  intros Hsrc Hrun Hlen.
  assert (HT : ParseTerm (S n) (zip c EmptyString) = ParseTerm (S n) (zip c run)).
  { rewrite ParseTerm_S. unfold ParseTerm_body. rewrite !bind_eq.
    rewrite (zip_SkipWhite (S n) c EmptyString (run +:+ text) Hsrc Hlen).
    rewrite (zip_SkipWhite (S n) c run text Hsrc)
      by (rewrite length_append in Hlen; lia).
    rewrite (span_every_append _ _ _ Hrun). reflexivity. }
  unfold Evaluate, ParseExpression. apply bind_at.
  rewrite ParseSum_S. unfold ParseSum_body. apply bind_at.
  rewrite ParseProduct_S. unfold ParseProduct_body. apply bind_at. exact HT.
Qed.

Lemma embedded_Calc (L : libm) (pre src ws tail : string) :
  every ctype.isspace ws = true -> closing (head tail) = true ->
  embedded pre ws tail (Calc L src) (zip (Calc L (pre +:+ src +:+ ws +:+ tail)) pre).
Proof.
  intros Hws Htail. constructor; try assumption; try reflexivity.
  - unfold cursor_inv. simpl. lia.
  - exists 0. simpl. repeat split; lia.
Qed.

Lemma Evaluate_source_eq (L : libm) (src : string) (fuel : nat) :
  fuel_for src <= fuel ->
  Evaluate fuel (Calc L src) = Evaluate (fuel_for src) (Calc L src).
Proof.
  intros H. apply (refines_Evaluate (fuel_for src) fuel H), fuel_for_enough.
Qed.

(** What an evaluation of [src] does, seen from a source with white space
    before it and after it. *)
Lemma Evaluate_source_padded (L : libm) (ws0 src ws : string) :
  every ctype.isspace ws0 = true -> every ctype.isspace ws = true ->
  match Evaluate_source L src with
  | Ok v => Evaluate_source L (ws0 +:+ src +:+ ws) = Ok v
  | Throw e =>
      ws = EmptyString ->
      Evaluate_source L (ws0 +:+ src +:+ ws) = Throw (shift (String.length ws0) e)
  | OutOfFuel => False
  end.
Proof.
  intros H0 Hw. set (big := ws0 +:+ src +:+ ws).
  assert (Hbig : big = ws0 +:+ src +:+ ws +:+ EmptyString)
    by (unfold big; now rewrite append_nil_r).
  assert (Hlen : String.length src <= String.length big).
  { unfold big. rewrite !length_append. lia. }
  pose proof (fuel_for_enough L big) as Hsafe. unfold safe in Hsafe.
  assert (Habs : Evaluate (fuel_for big) (Calc L big)
                 = Evaluate (fuel_for big) (zip (Calc L big) ws0)).
  { rewrite <- (zip_start L big) at 1. unfold fuel_for.
    replace (4 * String.length big + 5) with (S (S (S (4 * String.length big + 2))))
      by lia.
    apply (Evaluate_leading_space _ _ ws0 (src +:+ ws)); [reflexivity | exact H0 |].
    fold big. lia. }
  pose proof (embM_ParseExpression ws0 ws (fuel_for big) _ _
                (embedded_Calc L ws0 src ws EmptyString Hw eq_refl)) as Hsim.
  rewrite <- Hbig in Hsim. unfold emb_at in Hsim.
  change (ParseExpression (fuel_for big)) with (Evaluate (fuel_for big)) in Hsim.
  rewrite <- Habs in Hsim.
  rewrite (Evaluate_source_eq L src (fuel_for big)) in Hsim
    by (unfold fuel_for; lia).
  pose proof (fuel_for_enough L src) as Hsafe1. unfold safe in Hsafe1.
  unfold Evaluate_source at 1.
  destruct Hsim as [Hf | Hsim]; [contradiction|].
  destruct (Evaluate (fuel_for src) (Calc L src)) as [[v|e|] c1']; simpl in *.
  - destruct Hsim as (c2' & E & _). unfold Evaluate_source. fold big. now rewrite E.
  - intros ->. unfold Evaluate_source. fold big. apply Hsim. reflexivity.
  - contradiction.
Qed.

(** X1.  White space before and after a source that evaluates changes
    nothing: the longer source evaluates to the same value. *)
Theorem X1_surrounding_space_ignored (L : libm) (ws0 src ws : string) (v : float) :
  every ctype.isspace ws0 = true -> every ctype.isspace ws = true ->
  Evaluate_source L src = Ok v ->
  Evaluate_source L (ws0 +:+ src +:+ ws) = Ok v.
Proof.
  intros H0 Hw HE. pose proof (Evaluate_source_padded L ws0 src ws H0 Hw) as H.
  rewrite HE in H. exact H.
Qed.

Lemma X1_witness : Evaluate_source series_libm (" " +:+ "1+2" +:+ "  ") = Ok 3%float.
Proof.
  apply (X1_surrounding_space_ignored series_libm " " "1+2" "  " 3%float);
    vm_compute; reflexivity.
Defined.

(** X2.  White space before a source moves the position of an error by
    its length and changes nothing else: the longer source returns what the
    source returns, or throws what it throws, a [ParseError] with its
    position moved. *)
Theorem X2_leading_space_shifts_errors (L : libm) (ws0 src : string) :
  every ctype.isspace ws0 = true ->
  Evaluate_source L (ws0 +:+ src)
  = shift_outcome (String.length ws0) (Evaluate_source L src).
Proof.
  intros H0.
  pose proof (Evaluate_source_padded L ws0 src EmptyString H0 eq_refl) as H.
  rewrite append_nil_r in H.
  destruct (Evaluate_source L src) as [v|e|]; simpl; [exact H | now apply H |].
  contradiction.
Qed.

Lemma X2_witness :
  Evaluate_source series_libm ("  " +:+ "1+2+3")
  = shift_outcome 2 (Evaluate_source series_libm "1+2+3").
Proof. apply (X2_leading_space_shifts_errors series_libm "  " "1+2+3"). reflexivity. Defined.

(** ** An expression inside another *)

Lemma no_NUL_end (c : state) :
  no_NUL (m_src c) = true -> cursor_inv c -> peek c = NUL ->
  m_currentPosition c = String.length (m_src c).
Proof.
  intros Hn Hinv Hz. unfold cursor_inv in Hinv.
  destruct (Nat.eq_dec (m_currentPosition c) (String.length (m_src c))) as [E|Hne];
    [exact E|].
  pose proof (char_at_every _ _ (m_currentPosition c) Hn ltac:(lia)) as H.
  rewrite <- peek_char_at, Hz in H. discriminate H.
Qed.

Lemma state_zip (c c' : state) (p : string) :
  step c c' -> m_currentPosition c' = String.length p -> c' = zip c p.
Proof.
  intros [Hsrc Hk Hf _ _] Hp. destruct c'. simpl in *. subst. reflexivity.
Qed.

Lemma Evaluate_source_Ok_inv (L : libm) (src : string) (v : float) (n : nat) :
  Evaluate_source L src = Ok v -> fuel_for src <= n ->
  exists c', ParseSum n (Calc L src) = (Ok v, c') /\ peek c' = NUL
             /\ step (Calc L src) c'.
Proof.
  intros HE Hn. unfold Evaluate_source in HE.
  rewrite <- (Evaluate_source_eq L src n Hn) in HE.
  destruct (Evaluate n (Calc L src)) as [r c'] eqn:E. simpl in HE. subst r.
  apply Evaluate_Ok_iff in E as [HS Hz].
  exists c'. split; [exact HS|]. split; [exact Hz|].
  apply (stepM_at _ _ _ _ (stepM_ParseSum n) HS).
Qed.

Lemma remaining_zip (c : state) (pre text : string) :
  m_src c = pre +:+ text -> remaining (zip c pre) = String.length text.
Proof. intros H. unfold remaining. simpl. rewrite H, length_append. lia. Qed.

(** A Sum that is a whole source by itself, read inside another source:
    it returns the same value, and stops where the inner evaluation
    stops. *)
Lemma zip_ParseSum_inner (L : libm) (n : nat) (c : state) (pre src tail : string)
    (v : float) :
  m_src c = pre +:+ src +:+ tail ->
  m_constants c = m_constants (Calc L src) ->
  m_functions c = m_functions (Calc L src) ->
  closing (head tail) = true ->
  Evaluate_source L src = Ok v ->
  4 * String.length (src +:+ tail) + 5 <= n ->
  exists c1' c2',
    ParseSum n (Calc L src) = (Ok v, c1') /\ peek c1' = NUL
    /\ step (Calc L src) c1'
    /\ ParseSum n (zip c pre) = (Ok v, c2')
    /\ step (zip c pre) c2'
    /\ embedded pre EmptyString tail c1' c2'.
Proof.
  intros Hsrc Hk Hf Htail HE Hn.
  assert (Hn1 : fuel_for src <= n).
  { unfold fuel_for. rewrite length_append in Hn. lia. }
  destruct (Evaluate_source_Ok_inv L src v n HE Hn1) as (c1' & HS & Hz & Hstep).
  assert (Hemb : embedded pre EmptyString tail (Calc L src) (zip c pre)).
  { constructor; try assumption; try reflexivity.
    - unfold cursor_inv. simpl. lia.
    - exists 0. simpl. repeat split; lia. }
  pose proof (embM_ParseSum pre EmptyString tail n _ _ Hemb) as Hsim.
  unfold emb_at in Hsim. rewrite HS in Hsim.
  destruct Hsim as [Hfuel | (c2' & E2 & Hemb')].
  - exfalso. revert Hfuel.
    apply (safeM_ParseSum n (S (String.length (src +:+ tail)))); [lia|].
    rewrite (remaining_zip c pre _ Hsrc). lia.
  - exists c1', c2'.
    split; [exact HS|]. split; [exact Hz|]. split; [exact Hstep|].
    split; [exact E2|]. split; [|exact Hemb'].
    apply (stepM_at _ _ _ _ (stepM_ParseSum n) E2).
Qed.

Lemma embedded_at_end (pre tail : string) (c1 c2 : state) :
  embedded pre EmptyString tail c1 c2 ->
  m_currentPosition c1 = String.length (m_src c1) ->
  peek c2 = head tail
  /\ m_currentPosition c2 = String.length pre + String.length (m_src c1).
Proof.
  intros H He. pose proof H as [Hsrc Hk Hf Hinv Hws Htail (k & Hpos & Hle & Hend)].
  simpl in Hle. assert (k = 0) as -> by lia.
  split; [|lia].
  rewrite (embedded_peek _ _ _ c1 c2 0 H Hpos), Nat.add_0_r, He.
  rewrite <- (Nat.add_0_r (String.length (m_src c1))), char_at_app_r.
  apply char_at_0.
Qed.

(** The same when the inner source has no NUL: the Sum inside stops just
    after it. *)
Lemma zip_ParseSum_inner_whole (L : libm) (n : nat) (c : state)
    (pre src tail : string) (v : float) :
  m_src c = pre +:+ src +:+ tail ->
  m_constants c = m_constants (Calc L src) ->
  m_functions c = m_functions (Calc L src) ->
  closing (head tail) = true ->
  Evaluate_source L src = Ok v -> no_NUL src = true ->
  4 * String.length (src +:+ tail) + 5 <= n ->
  ParseSum n (zip c pre) = (Ok v, zip c (pre +:+ src)).
Proof.
  intros Hsrc Hk Hf Htail HE Hnn Hn.
  destruct (zip_ParseSum_inner L n c pre src tail v Hsrc Hk Hf Htail HE Hn)
    as (c1' & c2' & HS1 & Hz & Hstep1 & HS2 & Hstep2 & Hemb).
  rewrite HS2. f_equal.
  assert (Hs1 : m_src c1' = src) by apply Hstep1.
  assert (He : m_currentPosition c1' = String.length (m_src c1')).
  { apply no_NUL_end; [now rewrite Hs1 | | exact Hz].
    apply (step_inv _ _ Hstep1). unfold cursor_inv. simpl. lia. }
  destruct (embedded_at_end _ _ _ _ Hemb He) as [_ Hpos].
  assert (Hz2 : c2' = zip (zip c pre) (pre +:+ src)).
  { apply state_zip; [exact Hstep2|]. rewrite Hpos, Hs1, length_append. reflexivity. }
  rewrite Hz2. reflexivity.
Qed.

(** The end of a source evaluated inside another one that ends with it. *)
Lemma zip_ParseSum_inner_last (L : libm) (n : nat) (c : state)
    (pre src : string) (v : float) :
  m_src c = pre +:+ src ->
  m_constants c = m_constants (Calc L src) ->
  m_functions c = m_functions (Calc L src) ->
  Evaluate_source L src = Ok v ->
  4 * String.length src + 5 <= n ->
  exists c', ParseSum n (zip c pre) = (Ok v, c') /\ peek c' = NUL.
Proof.
  intros Hsrc Hk Hf HE Hn.
  destruct (zip_ParseSum_inner L n c pre src EmptyString v) as
      (c1' & c2' & HS1 & Hz & Hstep1 & HS2 & Hstep2 & Hemb); try assumption.
  - now rewrite append_nil_r.
  - reflexivity.
  - now rewrite append_nil_r.
  - exists c2'. split; [exact HS2|].
    rewrite (proj2 (embedded_exact _ _ _ _ _ Hemb eq_refl)). exact Hz.
Qed.

Lemma ParseProduct_alone (n : nat) (c c' : state) (v : float) :
  ParseTerm n c = (Ok v, c') ->
  ctype.isspace (peek c') = false -> is_times_or_divide (peek c') = false ->
  ParseProduct (S n) c = (Ok v, c').
Proof.
  intros HT Hsp Hop. rewrite ParseProduct_S. unfold ParseProduct_body.
  rewrite (bind_Ok _ _ _ _ _ HT).
  rewrite (bind_Ok _ _ _ _ _ (SkipWhite_at_text (S n) c' Hsp ltac:(lia))).
  unfold is_times_or_divide in Hop. apply orb_false_iff in Hop as [H1 H2].
  rewrite (bind_Ok _ _ _ _ _ (PeekChar_peek c')), H1.
  rewrite (bind_Ok _ _ _ _ _ (PeekChar_peek c')), H2. reflexivity.
Qed.

Lemma ParseSum_alone (n : nat) (c c' : state) (v : float) :
  ParseProduct n c = (Ok v, c') ->
  ctype.isspace (peek c') = false -> is_sign (peek c') = false ->
  ParseSum (S n) c = (Ok v, c').
Proof.
  intros HP Hsp Hop. rewrite ParseSum_S. unfold ParseSum_body.
  rewrite (bind_Ok _ _ _ _ _ HP).
  rewrite (bind_Ok _ _ _ _ _ (SkipWhite_at_text (S n) c' Hsp ltac:(lia))).
  unfold is_sign in Hop. apply orb_false_iff in Hop as [H1 H2].
  rewrite (bind_Ok _ _ _ _ _ (PeekChar_peek c')), H1.
  rewrite (bind_Ok _ _ _ _ _ (PeekChar_peek c')), H2. reflexivity.
Qed.

(** A source that is one term. *)
Lemma Evaluate_one_term (n : nat) (c c' : state) (v : float) :
  ParseTerm n c = (Ok v, c') -> peek c' = NUL ->
  Evaluate (S (S n)) c = (Ok v, c').
Proof.
  intros HT Hz. apply Evaluate_Ok_iff. split; [|exact Hz].
  apply ParseSum_alone; [|now rewrite Hz..].
  apply ParseProduct_alone; [exact HT | now rewrite Hz..].
Qed.

Lemma zip_peek (c : state) (pre text : string) :
  m_src c = pre +:+ text -> peek (zip c pre) = head text.
Proof. intros H. apply (at_cursor_peek _ pre text), zip_at_cursor, H. Qed.

Lemma zip_Consume (c : state) (pre : string) (ch : ascii) (text : string) :
  m_src c = pre +:+ String ch text -> ch <> NUL ->
  Consume ch (zip c pre) = (Ok tt, zip c (push_back pre ch)).
Proof.
  intros H Hch. unfold Consume.
  rewrite (bind_Ok _ _ _ _ _ (zip_PeekChar c pre _ H)). cbn [head].
  rewrite Ascii.eqb_refl. cbn [negb].
  rewrite (bind_Ok _ _ _ _ _ (zip_GetChar c pre ch text H Hch)). reflexivity.
Qed.

(** [(src)]: a term with the value of [src]. *)
Lemma zip_ParseTerm_paren (L : libm) (n : nat) (c : state) (pre src rest : string)
    (v : float) :
  m_src c = pre +:+ String "(" (src +:+ String ")" rest) ->
  m_constants c = m_constants (Calc L src) ->
  m_functions c = m_functions (Calc L src) ->
  Evaluate_source L src = Ok v -> no_NUL src = true ->
  4 * String.length (src +:+ String ")" rest) + 5 <= n ->
  ParseTerm (S n) (zip c pre)
  = (Ok v, zip c (pre +:+ String "(" (src +:+ String ")" EmptyString))).
Proof.
  intros Hsrc Hk Hf HE Hnn Hn.
  rewrite ParseTerm_S. unfold ParseTerm_body.
  rewrite (bind_Ok _ _ _ _ _
             (zip_SkipWhite_none (S n) c pre _ Hsrc eq_refl ltac:(lia))).
  rewrite (bind_Ok _ _ _ _ _ (zip_PeekChar c pre _ Hsrc)).
  cbn [head Ascii.eqb Bool.eqb].
  rewrite (bind_Ok _ _ _ _ _ (zip_GetChar c pre _ _ Hsrc ltac:(not_NUL))).
  assert (H1 : m_src c = push_back pre "(" +:+ src +:+ String ")" rest)
    by (rewrite push_back_append; exact Hsrc).
  rewrite (bind_Ok _ _ _ _ _
             (zip_ParseSum_inner_whole L n c _ src _ v H1 Hk Hf eq_refl HE Hnn Hn)).
  assert (H2 : m_src c = (push_back pre "(" +:+ src) +:+ String ")" rest)
    by (rewrite append_assoc; exact H1).
  rewrite (bind_Ok _ _ _ _ _
             (zip_SkipWhite_none (S n) c _ _ H2 eq_refl ltac:(lia))).
  rewrite (bind_Ok _ _ _ _ _ (zip_Consume c _ _ _ H2 ltac:(not_NUL))).
  unfold push_back. rewrite !append_assoc. reflexivity.
Qed.

Lemma space_not_alnum (ch : ascii) : ctype.isspace ch = true -> ctype.isalnum ch = false.
Proof. by_cases_on ch. Qed.

Lemma space_then_paren (ws1 x : string) :
  every ctype.isspace ws1 = true ->
  ctype.isalnum (head (ws1 +:+ String "(" x)) = false.
Proof.
  destruct ws1 as [|ch r]; [reflexivity|]. simpl. intros H.
  apply andb_true_iff in H as [H _]. apply space_not_alnum, H.
Qed.

(** [name(src)]: a term with the value of the function at the value of
    [src]. *)
Lemma zip_ParseTerm_call (L : libm) (n : nat) (c : state)
    (pre name ws1 src rest : string) (f : float -> float) (v : float) :
  m_src c = pre +:+ name +:+ ws1 +:+ String "(" (src +:+ String ")" rest) ->
  m_constants c = m_constants (Calc L src) ->
  m_functions c = m_functions (Calc L src) ->
  symbol_text name = true -> every ctype.isspace ws1 = true ->
  m_functions c !! name = Some f ->
  Evaluate_source L src = Ok v -> no_NUL src = true ->
  String.length (name +:+ ws1 +:+ String "(" (src +:+ String ")" rest)) <= n ->
  4 * String.length (src +:+ String ")" rest) + 5 <= n ->
  ParseTerm (S (S n)) (zip c pre)
  = (Ok (f v),
     zip c (pre +:+ name +:+ ws1 +:+ String "(" (src +:+ String ")" EmptyString))).
Proof.
  intros Hsrc Hk Hf Hname Hws Hfind HE Hnn Hn0 Hn.
  set (text := name +:+ ws1 +:+ String "(" (src +:+ String ")" rest)) in *.
  destruct (symbol_text_parts name Hname) as [Halpha _].
  pose proof (symbol_text_nonempty name Hname) as Hne.
  assert (Hhead : head text = head name) by (apply head_append, Hne).
  assert (Hspan : span ctype.isspace text = (EmptyString, text)).
  { apply (span_space_text EmptyString text eq_refl).
    rewrite Hhead. apply alpha_not_space, Halpha. }
  rewrite (zip_ParseTerm_symbol (S n) c pre text Hsrc ltac:(lia))
    by (rewrite Hspan; cbn [snd]; rewrite Hhead; exact Halpha).
  rewrite Hspan. cbn [fst]. rewrite append_nil_r.
  rewrite (zip_ParseIdentifier n c pre name ws1 _ Hsrc ltac:(fold text; lia)
             Hname Hws (space_then_paren ws1 _ Hws) eq_refl).
  cbn [head Ascii.eqb Bool.eqb]. rewrite Hfind.
  assert (H0 : m_src c = ((pre +:+ name) +:+ ws1)
                         +:+ String "(" (src +:+ String ")" rest))
    by (rewrite !append_assoc; exact Hsrc).
  rewrite (bind_Ok _ _ _ _ _ (zip_Consume c _ _ _ H0 ltac:(not_NUL))).
  assert (H1 : m_src c = push_back ((pre +:+ name) +:+ ws1) "("
                         +:+ src +:+ String ")" rest)
    by (rewrite push_back_append; exact H0).
  rewrite (bind_Ok _ _ _ _ _
             (zip_ParseSum_inner_whole L n c _ src _ v H1 Hk Hf eq_refl HE Hnn Hn)).
  assert (H2 : m_src c = (push_back ((pre +:+ name) +:+ ws1) "(" +:+ src)
                         +:+ String ")" rest)
    by (rewrite append_assoc; exact H1).
  rewrite (bind_Ok _ _ _ _ _ (zip_Consume c _ _ _ H2 ltac:(not_NUL))).
  unfold push_back. rewrite !append_assoc. reflexivity.
Qed.

Lemma Evaluate_source_one_term (L : libm) (src : string) (v : float) (c' : state) :
  ParseTerm (4 * String.length src + 3) (Calc L src) = (Ok v, c') ->
  peek c' = NUL -> Evaluate_source L src = Ok v.
Proof.
  intros HT Hz. unfold Evaluate_source, fuel_for.
  replace (4 * String.length src + 5) with (S (S (4 * String.length src + 3))) by lia.
  now rewrite (Evaluate_one_term _ _ _ _ HT Hz).
Qed.

Lemma zip_peek_end (c : state) (p : string) :
  m_src c = p -> peek (zip c p) = NUL.
Proof.
  intros H. apply (zip_peek c p EmptyString). now rewrite append_nil_r.
Qed.

Lemma moved_zip (c : state) (p : string) (ch : ascii) :
  moved (zip c p) = zip c (push_back p ch).
Proof. unfold moved, zip. simpl. now rewrite length_push_back. Qed.

(** The rest of a source after a first term and [*] or [/]. *)
Lemma Evaluate_source_product (L : libm) (big P1 : string) (op : ascii)
    (b : string) (va vb : float) :
  big = P1 +:+ String op b ->
  ParseTerm (4 * String.length big + 3) (Calc L big)
  = (Ok va, zip (Calc L big) P1) ->
  is_times_or_divide op = true ->
  Evaluate_source L b = Ok vb ->
  Evaluate_source L big = Ok (multiplicative op va vb).
Proof.
  intros Hbig HT Hop Hb.
  destruct (multiplicative_facts op Hop) as (Hnz & _ & Hsp & _).
  set (c0 := Calc L big) in *.
  set (n1 := 4 * String.length big + 2).
  assert (Hlen : String.length big = String.length P1 + S (String.length b)).
  { rewrite Hbig, length_append. reflexivity. }
  replace (4 * String.length big + 3) with (S n1) in HT by (unfold n1; lia).
  assert (H1 : m_src c0 = P1 +:+ String op b) by exact Hbig.
  pose proof (ParseProduct_operator (S n1) c0 (zip c0 P1)
                (zip c0 P1) va op HT
                (zip_SkipWhite_none (S (S n1)) c0 P1 _ H1 Hsp ltac:(lia))
                (zip_peek c0 P1 _ H1) Hop) as HP.
  rewrite (moved_zip c0 P1 op) in HP.
  assert (H2 : m_src c0 = push_back P1 op +:+ b)
    by (rewrite push_back_append; exact H1).
  destruct (zip_ParseSum_inner_last L (S n1) c0 (push_back P1 op) b vb H2
              eq_refl eq_refl Hb ltac:(unfold n1; lia)) as (c' & HS & Hz).
  rewrite (bind_Ok _ _ _ _ _ HS) in HP.
  unfold Evaluate_source, fuel_for. fold c0.
  replace (4 * String.length big + 5) with (S (S (S n1))) by (unfold n1; lia).
  assert (HE : Evaluate (S (S (S n1))) c0 = (Ok (multiplicative op va vb), c')).
  { apply Evaluate_Ok_iff. split; [|exact Hz].
    apply ParseSum_alone; [exact HP | now rewrite Hz..]. }
  now rewrite HE.
Qed.

Lemma closing_facts (ch : ascii) :
  closing ch = true -> ctype.isspace ch = false.
Proof. by_cases_on ch. Qed.

(** X3.  A source that evaluates, put in parentheses, evaluates to the
    same value.  (The source has no NUL in it: a NUL would end the text
    before the closing parenthesis.) *)
Theorem X3_parenthesised_source (L : libm) (src : string) (v : float) :
  Evaluate_source L src = Ok v -> no_NUL src = true ->
  Evaluate_source L ("(" +:+ src +:+ ")") = Ok v.
Proof.
  intros HE Hnn. set (big := "(" +:+ src +:+ ")").
  assert (Hlen : String.length big = String.length src + 2).
  { change (String.length big) with (S (String.length (src +:+ ")"))).
    rewrite length_append. simpl. lia. }
  apply (Evaluate_source_one_term L big v (zip (Calc L big) big)).
  - rewrite <- (zip_start L big) at 1.
    replace (4 * String.length big + 3) with (S (4 * String.length big + 2)) by lia.
    apply (zip_ParseTerm_paren L _ (Calc L big) EmptyString src EmptyString v);
      try reflexivity; try assumption.
    rewrite Hlen, length_append. cbn [String.length]. lia.
  - apply zip_peek_end. reflexivity.
Qed.

Lemma X3_witness : Evaluate_source series_libm ("(" +:+ "1+2" +:+ ")") = Ok 3%float.
Proof.
  apply (X3_parenthesised_source series_libm "1+2" 3%float); vm_compute; reflexivity.
Defined.

(** X4.  The name of a function, white space or none, and a source in
    parentheses: the function of the table, applied to the value of the
    source. *)
Theorem X4_function_call (L : libm) (name ws1 src : string)
    (f : float -> float) (v : float) :
  symbol_text name = true -> every ctype.isspace ws1 = true ->
  m_functions (Calc L src) !! name = Some f ->
  Evaluate_source L src = Ok v -> no_NUL src = true ->
  Evaluate_source L (name +:+ ws1 +:+ "(" +:+ src +:+ ")") = Ok (f v).
Proof.
  intros Hname Hws Hfind HE Hnn.
  set (big := name +:+ ws1 +:+ "(" +:+ src +:+ ")").
  assert (Hlen : String.length big
                 = String.length name + String.length ws1 + String.length src + 2).
  { unfold big. rewrite !length_append. cbn [String.length]. lia. }
  apply (Evaluate_source_one_term L big (f v) (zip (Calc L big) big)).
  - rewrite <- (zip_start L big) at 1.
    replace (4 * String.length big + 3) with (S (S (4 * String.length big + 1)))
      by lia.
    apply (zip_ParseTerm_call L _ (Calc L big) EmptyString name ws1 src EmptyString f v);
      try reflexivity; try assumption.
    + change (String.length big <= 4 * String.length big + 1). lia.
    + rewrite Hlen, length_append. cbn [String.length]. lia.
  - apply zip_peek_end. reflexivity.
Qed.

Lemma X4_witness :
  Evaluate_source series_libm ("sqrt" +:+ " " +:+ "(" +:+ "7+9" +:+ ")")
  = Ok (PrimFloat.sqrt 16).
Proof.
  apply (X4_function_call series_libm "sqrt" " " "7+9" PrimFloat.sqrt 16%float);
    vm_compute; reflexivity.
Defined.

(** X5.  After [*] or [/] all the rest of the source is the right
    operand: when the rest evaluates by itself, an unsigned integer or a
    parenthesised source followed by the operator and the rest evaluates
    to the product (the quotient) of the two values.  So "8/2/2" is
    8/(2/2): the operators associate to the right. *)
Theorem X5_product_right_operand (L : libm) (op : ascii) (b : string) (vb : float) :
  is_times_or_divide op = true -> Evaluate_source L b = Ok vb ->
  (forall (a : string) (va : float),
      digits_text a = true -> stod a = stod_value va ->
      Evaluate_source L (a +:+ String op b) = Ok (multiplicative op va vb))
  /\ (forall (a : string) (va : float),
         Evaluate_source L a = Ok va -> no_NUL a = true ->
         Evaluate_source L ("(" +:+ a +:+ ")" +:+ String op b)
         = Ok (multiplicative op va vb)).
Proof.
  intros Hop Hb. destruct (multiplicative_facts op Hop) as (Hnz & Hnum & Hsp & _).
  split.
  - intros a va Ha Hva. set (big := a +:+ String op b).
    apply (Evaluate_source_product L big a op b va vb eq_refl); [|assumption..].
    rewrite <- (zip_start L big) at 1.
    replace (4 * String.length big + 3) with (S (4 * String.length big + 2)) by lia.
    apply (zip_ParseTerm_digits _ (Calc L big) EmptyString a (String op b) va eq_refl);
      auto.
    fold big. lia.
  - intros a va Ha Hna.
    set (big := "(" +:+ a +:+ ")" +:+ String op b).
    set (P1 := EmptyString +:+ String "(" (a +:+ String ")" EmptyString)).
    assert (Hbig : big = EmptyString +:+ String "(" (a +:+ String ")" (String op b)))
      by reflexivity.
    assert (H1 : big = P1 +:+ String op b).
    { unfold P1. repeat (rewrite append_assoc || rewrite append_cons). reflexivity. }
    assert (Hlen : String.length big = String.length a + String.length b + 3).
    { rewrite Hbig. change (EmptyString +:+ ?x) with x. cbn [String.length].
      rewrite length_append. cbn [String.length]. lia. }
    apply (Evaluate_source_product L big P1 op b va vb H1); [|assumption..].
    rewrite <- (zip_start L big) at 1.
    replace (4 * String.length big + 3) with (S (4 * String.length big + 2)) by lia.
    apply (zip_ParseTerm_paren L _ (Calc L big) EmptyString a (String op b) va Hbig);
      try reflexivity; try assumption.
    rewrite Hlen, length_append. cbn [String.length]. lia.
Qed.

Lemma X5_witness :
  Evaluate_source series_libm ("8" +:+ String "/" "2/2")
  = Ok (multiplicative "/" 8 1)
  /\ Evaluate_source series_libm ("(" +:+ "1+2" +:+ ")" +:+ String "/" "2/2")
     = Ok (multiplicative "/" 3 1).
Proof.
  split.
  - apply (proj1 (X5_product_right_operand series_libm "/" "2/2" 1%float
                    eq_refl ltac:(vm_compute; reflexivity)) "8" 8%float);
      vm_compute; reflexivity.
  - apply (proj2 (X5_product_right_operand series_libm "/" "2/2" 1%float
                    eq_refl ltac:(vm_compute; reflexivity)) "1+2" 3%float);
      vm_compute; reflexivity.
Defined.

(** X6.  Two parenthesised sources joined by [+] or [-] evaluate to the
    sum (the difference) of their values. *)
Theorem X6_sum_of_parenthesised (L : libm) (a : string) (op : ascii) (b : string)
    (va vb : float) :
  is_sign op = true ->
  Evaluate_source L a = Ok va -> no_NUL a = true ->
  Evaluate_source L b = Ok vb -> no_NUL b = true ->
  Evaluate_source L ("(" +:+ a +:+ ")" +:+ String op ("(" +:+ b +:+ ")"))
  = Ok (additive op va vb).
Proof.
  intros Hop Ha Hna Hb Hnb.
  destruct (additive_facts op Hop) as (Hnz & Hend & _).
  destruct (ends_product_facts op Hend) as (_ & Hsp & Hmul1 & Hmul2).
  set (big := "(" +:+ a +:+ ")" +:+ String op ("(" +:+ b +:+ ")")).
  set (c0 := Calc L big).
  set (P1 := EmptyString +:+ String "(" (a +:+ String ")" EmptyString)).
  set (rest := String op (String "(" (b +:+ String ")" EmptyString))).
  assert (Hbig : big = EmptyString +:+ String "(" (a +:+ String ")" rest))
    by reflexivity.
  assert (Hlen : String.length big = String.length a + String.length b + 5).
  { rewrite Hbig. change (EmptyString +:+ ?x) with x. unfold rest.
    cbn [String.length]. rewrite length_append. cbn [String.length].
    rewrite length_append. cbn [String.length]. lia. }
  set (n1 := 4 * String.length big + 2).
  assert (HT : ParseTerm (S n1) (zip c0 EmptyString) = (Ok va, zip c0 P1)).
  { apply (zip_ParseTerm_paren L n1 c0 EmptyString a rest va Hbig);
      try reflexivity; try assumption.
    unfold n1, rest. rewrite Hlen, length_append. cbn [String.length].
    rewrite length_append. cbn [String.length]. lia. }
  assert (H1 : m_src c0 = P1 +:+ rest).
  { unfold P1. repeat (rewrite append_assoc || rewrite append_cons). reflexivity. }
  assert (Hpk : peek (zip c0 P1) = op) by apply (zip_peek c0 P1 _ H1).
  assert (HP1 : ParseProduct (S (S n1)) (zip c0 EmptyString) = (Ok va, zip c0 P1)).
  { apply ParseProduct_alone; [exact HT | now rewrite Hpk |].
    rewrite Hpk. unfold is_times_or_divide. now rewrite Hmul1, Hmul2. }
  pose proof (ParseSum_operator (S (S n1)) (zip c0 EmptyString) (zip c0 P1)
                (zip c0 P1) va op HP1
                (zip_SkipWhite_none (S (S (S n1))) c0 P1 _ H1 Hsp ltac:(lia))
                Hpk Hop) as HS.
  rewrite (moved_zip c0 P1 op) in HS.
  set (P2 := push_back P1 op) in *.
  assert (H2 : m_src c0 = P2 +:+ String "(" (b +:+ String ")" EmptyString))
    by (unfold P2; rewrite push_back_append; exact H1).
  assert (HT2 : ParseTerm (S n1) (zip c0 P2)
                = (Ok vb, zip c0 (P2 +:+ String "(" (b +:+ String ")" EmptyString)))).
  { apply (zip_ParseTerm_paren L n1 c0 P2 b EmptyString vb H2);
      try reflexivity; try assumption.
    unfold n1. rewrite Hlen, length_append. cbn [String.length]. lia. }
  assert (Hz : peek (zip c0 (P2 +:+ String "(" (b +:+ String ")" EmptyString))) = NUL)
    by (apply zip_peek_end; exact H2).
  assert (HP2 : ParseProduct (S (S n1)) (zip c0 P2)
                = (Ok vb, zip c0 (P2 +:+ String "(" (b +:+ String ")" EmptyString)))).
  { apply ParseProduct_alone; [exact HT2 | now rewrite Hz..]. }
  rewrite (bind_Ok _ _ _ _ _ HP2) in HS.
  unfold Evaluate_source, fuel_for. fold big.
  replace (4 * String.length big + 5) with (S (S (S n1))) by (unfold n1; lia).
  rewrite <- (zip_start L big). fold c0.
  assert (HE : Evaluate (S (S (S n1))) (zip c0 EmptyString)
               = (Ok (additive op va vb),
                  zip c0 (P2 +:+ String "(" (b +:+ String ")" EmptyString)))).
  { apply Evaluate_Ok_iff. split; [exact HS | exact Hz]. }
  now rewrite HE.
Qed.

Lemma X6_witness :
  Evaluate_source series_libm ("(" +:+ "1+2" +:+ ")" +:+ String "-" ("(" +:+ "3+4" +:+ ")"))
  = Ok (additive "-" 3 7).
Proof.
  apply (X6_sum_of_parenthesised series_libm "1+2" "-" "3+4" 3%float 7%float);
    vm_compute; reflexivity.
Defined.

(** ** A Sum whose right operand is a Product *)

(** A Product that is a first term, [*] or [/], and all the rest of the
    text. *)
Lemma zip_ParseProduct_last (L : libm) (n : nat) (c : state) (P0 P1 : string)
    (op : ascii) (b : string) (va vb : float) :
  m_src c = P1 +:+ String op b ->
  m_constants c = m_constants (Calc L b) ->
  m_functions c = m_functions (Calc L b) ->
  ParseTerm (S n) (zip c P0) = (Ok va, zip c P1) ->
  is_times_or_divide op = true ->
  Evaluate_source L b = Ok vb ->
  4 * String.length b + 5 <= S n ->
  exists c', ParseProduct (S (S n)) (zip c P0) = (Ok (multiplicative op va vb), c')
             /\ peek c' = NUL.
Proof.
  intros H1 Hk Hf HT Hop Hb Hn.
  destruct (multiplicative_facts op Hop) as (Hnz & _ & Hsp & _).
  pose proof (ParseProduct_operator (S n) (zip c P0) (zip c P1)
                (zip c P1) va op HT
                (zip_SkipWhite_none (S (S n)) c P1 _ H1 Hsp ltac:(lia))
                (zip_peek c P1 _ H1) Hop) as HP.
  rewrite (moved_zip c P1 op) in HP.
  assert (H2 : m_src c = push_back P1 op +:+ b)
    by (rewrite push_back_append; exact H1).
  destruct (zip_ParseSum_inner_last L (S n) c (push_back P1 op) b vb H2
              Hk Hf Hb Hn) as (c' & HS & Hz).
  rewrite (bind_Ok _ _ _ _ _ HS) in HP. exists c'. split; [exact HP | exact Hz].
Qed.

(** X7.  The right operand of [+] or [-] is one Product, and the right
    operand of the [*] or [/] in it is all the rest: for unsigned integers
    a and b and a rest that evaluates by itself, "a+b*rest" is
    a+(b*rest).  So "1+2*3+4" is 1+2*(3+4). *)
Theorem X7_sum_then_product (L : libm) (a : string) (op1 : ascii) (b : string)
    (op2 : ascii) (rest : string) (va vb vr : float) :
  digits_text a = true -> is_sign op1 = true ->
  digits_text b = true -> is_times_or_divide op2 = true ->
  stod a = stod_value va -> stod b = stod_value vb ->
  Evaluate_source L rest = Ok vr ->
  Evaluate_source L (a +:+ String op1 (b +:+ String op2 rest))
  = Ok (additive op1 va (multiplicative op2 vb vr)).
Proof.
  intros Ha Hop1 Hb Hop2 Hva Hvb Hr.
  destruct (additive_facts op1 Hop1) as (Hnz1 & Hend1 & _).
  destruct (ends_product_facts op1 Hend1) as (_ & Hsp1 & _ & _).
  destruct (multiplicative_facts op2 Hop2) as (Hnz2 & Hnum2 & Hsp2 & _).
  set (big := a +:+ String op1 (b +:+ String op2 rest)).
  set (c0 := Calc L big). set (n1 := 4 * String.length big + 2).
  assert (Hlen : String.length big
                 = String.length a + S (String.length b + S (String.length rest))).
  { unfold big. rewrite length_append. cbn [String.length].
    rewrite length_append. reflexivity. }
  assert (HP1 : ParseProduct (S (S n1)) (zip c0 EmptyString) = (Ok va, zip c0 a)).
  { apply (zip_ParseProduct_digits n1 c0 EmptyString a _ va eq_refl); auto.
    fold big. unfold n1. lia. }
  assert (H1 : m_src c0 = a +:+ String op1 (b +:+ String op2 rest)) by reflexivity.
  pose proof (ParseSum_operator (S (S n1)) (zip c0 EmptyString) (zip c0 a)
                (zip c0 a) va op1 HP1
                (zip_SkipWhite_none (S (S (S n1))) c0 a _ H1 Hsp1 ltac:(lia))
                (zip_peek c0 a _ H1) Hop1) as HS.
  rewrite (moved_zip c0 a op1) in HS. set (P2 := push_back a op1) in *.
  assert (H2 : m_src c0 = P2 +:+ b +:+ String op2 rest)
    by (unfold P2; rewrite push_back_append; exact H1).
  assert (HT2 : ParseTerm (S n1) (zip c0 P2) = (Ok vb, zip c0 (P2 +:+ b))).
  { apply (zip_ParseTerm_digits n1 c0 P2 b _ vb H2); auto.
    rewrite length_append. cbn [String.length]. unfold n1. lia. }
  assert (H3 : m_src c0 = (P2 +:+ b) +:+ String op2 rest)
    by (rewrite append_assoc; exact H2).
  destruct (zip_ParseProduct_last L n1 c0 P2 (P2 +:+ b) op2 rest vb vr H3
              eq_refl eq_refl HT2 Hop2 Hr ltac:(unfold n1; lia))
    as (c' & HP2 & Hz).
  rewrite (bind_Ok _ _ _ _ _ HP2) in HS.
  unfold Evaluate_source, fuel_for. fold big.
  replace (4 * String.length big + 5) with (S (S (S n1))) by (unfold n1; lia).
  change (Calc L big) with (zip c0 EmptyString).
  assert (HE : Evaluate (S (S (S n1))) (zip c0 EmptyString)
               = (Ok (additive op1 va (multiplicative op2 vb vr)), c')).
  { apply Evaluate_Ok_iff. split; [exact HS | exact Hz]. }
  now rewrite HE.
Qed.

Lemma X7_witness :
  Evaluate_source series_libm ("1" +:+ String "+" ("2" +:+ String "*" "3+4"))
  = Ok (additive "+" 1 (multiplicative "*" 2 7)).
Proof.
  apply (X7_sum_then_product series_libm "1" "+" "2" "*" "3+4" 1%float 2%float 7%float);
    vm_compute; reflexivity.
Defined.

(** ** A source that is a numeral *)

Lemma digits_text_head (ds t : string) :
  digits_text ds = true -> ctype.isdigit (head (ds +:+ t)) = true.
Proof.
  intros H. destruct (digits_text_parts ds H) as [He Hne].
  rewrite head_append by exact Hne. apply every_head; assumption.
Qed.

Lemma lex_exponent_text (s expo rest : string) :
  exponent_text expo = true -> ctype.isdigit (head rest) = false ->
  (expo = EmptyString -> is_exp_marker (head rest) = false) ->
  lex_exponent s (expo +:+ rest) = (true, (s +:+ expo, rest)).
Proof.
  intros He Hd Hm. destruct expo as [|mark [|ch r]]; try discriminate He.
  - rewrite append_nil_r. apply lex_exponent_none, Hm. reflexivity.
  - cbn [exponent_text] in He. apply andb_true_iff in He as [Hmark Hds].
    rewrite !append_cons. unfold lex_exponent.
    unfold is_exp_marker in Hmark. rewrite Hmark. unfold lex_sign.
    destruct (is_sign ch) eqn:Hsg; unfold is_sign in Hsg; rewrite Hsg.
    + rewrite (digits_text_head r rest Hds).
      rewrite (lex_digits_text _ r rest (proj1 (digits_text_parts r Hds)) Hd).
      unfold push_back. rewrite !append_assoc. reflexivity.
    + assert (Hh : ctype.isdigit (head (String ch (r +:+ rest))) = true).
      { rewrite <- append_cons. apply digits_text_head, Hds. }
      rewrite Hh. rewrite <- append_cons.
      rewrite (lex_digits_text _ (String ch r) rest
                 (proj1 (digits_text_parts _ Hds)) Hd).
      unfold push_back. rewrite !append_assoc. reflexivity.
Qed.

Lemma exponent_text_head (expo : string) :
  exponent_text expo = true ->
  ctype.isdigit (head expo) = false /\ Ascii.eqb (head expo) "." = false.
Proof.
  destruct expo as [|mark [|ch r]]; try discriminate; [split; reflexivity|].
  cbn [exponent_text head]. intros H. apply andb_true_iff in H as [H _].
  split; [apply marker_not_digit, H | apply marker_not_point, H].
Qed.

(** What [GetConstant] gathers of a source that is a numeral: all of it. *)
Lemma lex_constant_numeral (sgn ds1 frac expo : string) :
  sign_text sgn = true -> every ctype.isdigit ds1 = true ->
  fraction_text frac = true -> exponent_text expo = true ->
  sgn +:+ ds1 +:+ frac <> EmptyString ->
  let numeral := sgn +:+ ds1 +:+ frac +:+ expo in
  span ctype.isspace numeral = (EmptyString, numeral)
  /\ IsFirstCharOfDouble (head numeral) = true
  /\ lex_constant numeral = (true, (numeral, EmptyString)).
Proof.
  intros Hs Hd Hf He Hne numeral.
  pose proof (mantissa_head sgn ds1 frac expo Hs Hd Hf Hne) as Hfirst.
  fold numeral in Hfirst.
  assert (Hsp : span ctype.isspace numeral = (EmptyString, numeral)).
  { apply (span_space_text EmptyString numeral eq_refl).
    apply first_char_not_space, Hfirst. }
  split; [exact Hsp|]. split; [exact Hfirst|].
  destruct (exponent_text_head expo He) as [Hd1 Hp1].
  assert (Hman : lex_mantissa numeral = (sgn +:+ ds1 +:+ frac, expo)).
  { apply lex_mantissa_text; auto. intros E. contradiction. }
  unfold lex_constant. rewrite Hsp. cbn [snd]. rewrite Hman.
  rewrite <- (append_nil_r expo) at 1.
  rewrite (lex_exponent_text _ expo EmptyString He eq_refl ltac:(reflexivity)).
  unfold numeral. rewrite !append_assoc. reflexivity.
Qed.

Lemma Evaluate_source_numeral (L : libm) (sgn ds1 frac expo : string) (d : float) :
  sign_text sgn = true -> every ctype.isdigit ds1 = true ->
  fraction_text frac = true -> exponent_text expo = true ->
  sgn +:+ ds1 +:+ frac <> EmptyString ->
  stod (sgn +:+ ds1 +:+ frac +:+ expo) = stod_value d ->
  Evaluate_source L (sgn +:+ ds1 +:+ frac +:+ expo) = Ok d.
Proof.
  intros Hs Hd Hf He Hne Hv. set (numeral := sgn +:+ ds1 +:+ frac +:+ expo) in *.
  destruct (lex_constant_numeral sgn ds1 frac expo Hs Hd Hf He Hne)
    as (Hsp & Hfirst & Hlex). fold numeral in Hsp, Hfirst, Hlex.
  apply (Evaluate_source_one_term L numeral d (zip (Calc L numeral) numeral)).
  - rewrite <- (zip_start L numeral) at 1.
    replace (4 * String.length numeral + 3) with (S (4 * String.length numeral + 2))
      by lia.
    rewrite (zip_ParseTerm_numeral _ (Calc L numeral) EmptyString numeral eq_refl)
      by (try lia; rewrite Hsp; exact Hfirst).
    rewrite (zip_GetConstant _ (Calc L numeral) EmptyString numeral eq_refl)
      by lia.
    rewrite Hlex, Hsp, Hv. reflexivity.
  - apply zip_peek_end. reflexivity.
Qed.

(** X8.  A source that is one numeral (a sign or none, digits, a
    fraction or none, an exponent or none, with a sign, a digit or a point
    to begin with), with white space around it or none, evaluates to what
    [stod] makes of the numeral: [GetConstant] hands all of it to [stod],
    and nothing else. *)
Theorem X8_numeral_value (L : libm) (ws sgn ds1 frac expo ws' : string) (d : float) :
  every ctype.isspace ws = true -> every ctype.isspace ws' = true ->
  sign_text sgn = true -> every ctype.isdigit ds1 = true ->
  fraction_text frac = true -> exponent_text expo = true ->
  sgn +:+ ds1 +:+ frac <> EmptyString ->
  stod (sgn +:+ ds1 +:+ frac +:+ expo) = stod_value d ->
  Evaluate_source L (ws +:+ (sgn +:+ ds1 +:+ frac +:+ expo) +:+ ws') = Ok d.
Proof.
  intros Hw Hw' Hs Hd Hf He Hne Hv.
  pose proof (Evaluate_source_padded L ws (sgn +:+ ds1 +:+ frac +:+ expo) ws' Hw Hw')
    as H.
  rewrite (Evaluate_source_numeral L sgn ds1 frac expo d Hs Hd Hf He Hne Hv) in H.
  exact H.
Qed.

Lemma X8_witness :
  Evaluate_source series_libm (" " +:+ ("-" +:+ "12" +:+ ".5" +:+ "e+2") +:+ " ")
  = Ok (-1250)%float.
Proof.
  apply (X8_numeral_value series_libm " " "-" "12" ".5" "e+2" " " (-1250)%float);
    try (vm_compute; reflexivity). discriminate.
Defined.

(** ** What is left unread, what is missing *)

(** X9.  A source that evaluates, followed by a character with which
    nothing of the grammar begins or continues ([)] for one), is a syntax
    error at that character. *)
Theorem X9_closing_after_expression (L : libm) (src : string) (ch : ascii)
    (rest : string) (v : float) :
  Evaluate_source L src = Ok v -> no_NUL src = true ->
  closing ch = true -> ch <> NUL ->
  Evaluate_source L (src +:+ String ch rest)
  = Throw (ParseError "Syntax error." (String.length src)).
Proof.
  intros HE Hnn Hcl Hnz. set (big := src +:+ String ch rest).
  assert (HS : ParseSum (fuel_for big) (Calc L big) = (Ok v, zip (Calc L big) src)).
  { rewrite <- (zip_start L big) at 1.
    apply (zip_ParseSum_inner_whole L _ (Calc L big) EmptyString src
             (String ch rest) v eq_refl eq_refl eq_refl Hcl HE Hnn).
    unfold fuel_for. fold big. lia. }
  rewrite (Evaluate_source_after_Sum L big v src (String ch rest) HS eq_refl
             (closing_facts ch Hcl)).
  cbn [head]. now destruct (Ascii.eqb_spec ch NUL).
Qed.

Lemma X9_witness :
  Evaluate_source series_libm ("1+2" +:+ String ")" "")
  = Throw (ParseError "Syntax error." 3).
Proof.
  apply (X9_closing_after_expression series_libm "1+2" ")" "" 3%float);
    try (vm_compute; reflexivity). discriminate.
Defined.

Lemma zip_Consume_Throw (c : state) (pre text : string) (ch : ascii) :
  m_src c = pre +:+ text -> Ascii.eqb (head text) ch = false ->
  Consume ch (zip c pre)
  = (Throw (ParseError ("Expected '" +:+ String ch "'.") (String.length pre)),
     zip c pre).
Proof.
  intros H Hne. rewrite (Consume_eq ch _ _ (zip_PeekChar c pre text H)), Hne.
  reflexivity.
Qed.

(** [(src] with nothing after it. *)
Lemma Evaluate_source_unclosed (L : libm) (src : string) (v : float) :
  Evaluate_source L src = Ok v -> no_NUL src = true ->
  Evaluate_source L ("(" +:+ src)
  = Throw (ParseError "Expected ')'." (S (String.length src))).
Proof.
  intros HE Hnn. set (big := "(" +:+ src). set (c0 := Calc L big).
  assert (Hbig : m_src c0 = EmptyString +:+ String "(" src) by reflexivity.
  assert (Hlen : String.length big = S (String.length src)) by reflexivity.
  apply (Evaluate_source_first_term_Throw L big _
           (zip c0 (push_back EmptyString "(" +:+ src))).
  replace (4 * String.length big + 3) with (S (4 * String.length big + 2)) by lia.
  change (Calc L big) with (zip c0 EmptyString).
  rewrite ParseTerm_S. unfold ParseTerm_body.
  rewrite (bind_Ok _ _ _ _ _
             (zip_SkipWhite_none (S (4 * String.length big + 2)) c0 EmptyString _
                Hbig eq_refl ltac:(lia))).
  rewrite (bind_Ok _ _ _ _ _ (zip_PeekChar c0 EmptyString _ Hbig)).
  cbn [head Ascii.eqb Bool.eqb].
  rewrite (bind_Ok _ _ _ _ _ (zip_GetChar c0 EmptyString _ _ Hbig ltac:(not_NUL))).
  assert (H1 : m_src c0 = push_back EmptyString "(" +:+ src +:+ EmptyString)
    by (rewrite append_nil_r; reflexivity).
  rewrite (bind_Ok _ _ _ _ _
             (zip_ParseSum_inner_whole L (4 * String.length big + 2) c0 _ src
                EmptyString v H1 eq_refl eq_refl eq_refl HE Hnn
                ltac:(rewrite append_nil_r, Hlen; lia))).
  assert (H2 : m_src c0 = (push_back EmptyString "(" +:+ src) +:+ EmptyString)
    by (rewrite append_nil_r; reflexivity).
  rewrite (bind_Ok _ _ _ _ _
             (zip_SkipWhite_none (S (4 * String.length big + 2)) c0 _ _ H2 eq_refl
                ltac:(lia))).
  rewrite (bind_Throw _ _ _ _ _ (zip_Consume_Throw c0 _ _ ")" H2 eq_refl)).
  reflexivity.
Qed.

(** [name(src] with nothing after it. *)
Lemma Evaluate_source_call_unclosed (L : libm) (name ws1 src : string)
    (f : float -> float) (v : float) :
  symbol_text name = true -> every ctype.isspace ws1 = true ->
  m_functions (Calc L src) !! name = Some f ->
  Evaluate_source L src = Ok v -> no_NUL src = true ->
  Evaluate_source L (name +:+ ws1 +:+ "(" +:+ src)
  = Throw (ParseError "Expected ')'."
             (String.length name + String.length ws1 + S (String.length src))).
Proof.
  intros Hname Hws Hfind HE Hnn.
  set (big := name +:+ ws1 +:+ "(" +:+ src). set (c0 := Calc L big).
  set (n := 4 * String.length big + 1).
  assert (Hsrc : m_src c0 = EmptyString +:+ name +:+ ws1 +:+ String "(" src)
    by reflexivity.
  assert (Hlen : String.length big
                 = String.length name + String.length ws1 + S (String.length src)).
  { unfold big. rewrite !length_append. cbn [String.length]. lia. }
  destruct (symbol_text_parts name Hname) as [Halpha _].
  pose proof (symbol_text_nonempty name Hname) as Hne.
  assert (Hhead : head big = head name) by (apply head_append, Hne).
  assert (Hspan : span ctype.isspace big = (EmptyString, big)).
  { apply (span_space_text EmptyString big eq_refl).
    rewrite Hhead. apply alpha_not_space, Halpha. }
  set (P := push_back ((EmptyString +:+ name) +:+ ws1) "(").
  assert (HP : String.length (P +:+ src) = String.length big).
  { unfold P. rewrite length_append, length_push_back, !length_append.
    cbn [String.length]. lia. }
  rewrite <- Hlen, <- HP.
  apply (Evaluate_source_first_term_Throw L big _ (zip c0 (P +:+ src))).
  replace (4 * String.length big + 3) with (S (S n)) by (unfold n; lia).
  change (Calc L big) with (zip c0 EmptyString).
  rewrite (zip_ParseTerm_symbol (S n) c0 EmptyString big Hsrc ltac:(unfold n; lia))
    by (rewrite Hspan; cbn [snd]; rewrite Hhead; exact Halpha).
  rewrite Hspan. cbn [fst]. rewrite append_nil_r.
  rewrite (zip_ParseIdentifier n c0 EmptyString name ws1 (String "(" src) Hsrc
             ltac:(change (String.length big < S n); unfold n; lia)
             Hname Hws (space_then_paren ws1 _ Hws) eq_refl).
  cbn [head Ascii.eqb Bool.eqb].
  assert (Hfind' : m_functions c0 !! name = Some f) by exact Hfind.
  rewrite Hfind'.
  assert (H0 : m_src c0 = ((EmptyString +:+ name) +:+ ws1) +:+ String "(" src)
    by (rewrite !append_assoc; exact Hsrc).
  rewrite (bind_Ok _ _ _ _ _ (zip_Consume c0 _ _ _ H0 ltac:(not_NUL))).
  fold P.
  assert (H1 : m_src c0 = P +:+ src +:+ EmptyString)
    by (unfold P; rewrite push_back_append, append_nil_r; exact H0).
  rewrite (bind_Ok _ _ _ _ _
             (zip_ParseSum_inner_whole L n c0 P src EmptyString v H1 eq_refl
                eq_refl eq_refl HE Hnn
                ltac:(rewrite append_nil_r; unfold n; lia))).
  assert (H2 : m_src c0 = (P +:+ src) +:+ EmptyString)
    by (rewrite append_assoc; exact H1).
  rewrite (bind_Throw _ _ _ _ _ (zip_Consume_Throw c0 _ _ ")" H2 eq_refl)).
  reflexivity.
Qed.

(** X10.  An opening parenthesis and a source that evaluates, with no
    closing parenthesis after it, fail with "Expected ')'." at the end of
    the text; and so does the call of a function whose closing
    parenthesis is missing. *)
Theorem X10_missing_close (L : libm) (src : string) (v : float) :
  Evaluate_source L src = Ok v -> no_NUL src = true ->
  Evaluate_source L ("(" +:+ src)
  = Throw (ParseError "Expected ')'." (S (String.length src)))
  /\ (forall (name ws1 : string) (f : float -> float),
         symbol_text name = true -> every ctype.isspace ws1 = true ->
         m_functions (Calc L src) !! name = Some f ->
         Evaluate_source L (name +:+ ws1 +:+ "(" +:+ src)
         = Throw (ParseError "Expected ')'."
                    (String.length name + String.length ws1
                     + S (String.length src)))).
Proof.
  intros HE Hnn. split.
  - apply (Evaluate_source_unclosed L src v HE Hnn).
  - intros name ws1 f Hname Hws Hfind.
    apply (Evaluate_source_call_unclosed L name ws1 src f v); assumption.
Qed.

Lemma X10_witness :
  Evaluate_source series_libm ("(" +:+ "1+2") = Throw (ParseError "Expected ')'." 4)
  /\ Evaluate_source series_libm ("sqrt" +:+ " " +:+ "(" +:+ "1+2")
     = Throw (ParseError "Expected ')'." (4 + 1 + 4)).
Proof.
  destruct (X10_missing_close series_libm "1+2" 3%float) as [H1 H2];
    try (vm_compute; reflexivity).
  split; [exact H1|].
  apply (H2 "sqrt" " " PrimFloat.sqrt); vm_compute; reflexivity.
Defined.

(** ** Where a term is expected *)

Lemma starts_term_parts (ch : ascii) :
  starts_term ch = false ->
  Ascii.eqb ch "(" = false /\ IsFirstCharOfDouble ch = false
  /\ ctype.isalpha ch = false.
Proof.
  unfold starts_term. intros H.
  apply orb_false_iff in H as [H H3]. apply orb_false_iff in H as [H1 H2]. auto.
Qed.

Lemma zip_ParseTerm_no_term (n : nat) (c : state) (pre ws rest : string) :
  m_src c = pre +:+ ws +:+ rest -> String.length (ws +:+ rest) < S n ->
  every ctype.isspace ws = true -> ctype.isspace (head rest) = false ->
  starts_term (head rest) = false ->
  ParseTerm (S n) (zip c pre)
  = (Throw (ParseError "Expected a number, symbol or parenthesized expression."
              (String.length (pre +:+ ws))), zip c (pre +:+ ws)).
Proof.
  intros Hsrc Hlen Hws Hsp Hst.
  destruct (starts_term_parts _ Hst) as (H1 & H2 & H3).
  rewrite ParseTerm_S. unfold ParseTerm_body.
  rewrite (bind_Ok _ _ _ _ _ (zip_SkipWhite (S n) c pre _ Hsrc Hlen)).
  rewrite (span_space_text ws rest Hws Hsp). cbn [fst].
  assert (H0 : m_src c = (pre +:+ ws) +:+ rest)
    by (rewrite append_assoc; exact Hsrc).
  rewrite (bind_Ok _ _ _ _ _ (zip_PeekChar c _ rest H0)).
  rewrite H1, H2, H3. reflexivity.
Qed.

Lemma ParseProduct_Throw (n : nat) (c : state) (e : exception) (c' : state) :
  ParseTerm n c = (Throw e, c') -> ParseProduct (S n) c = (Throw e, c').
Proof.
  intros H. rewrite ParseProduct_S. unfold ParseProduct_body.
  apply (bind_Throw _ _ _ _ _ H).
Qed.

Lemma ParseSum_Throw (n : nat) (c : state) (e : exception) (c' : state) :
  ParseProduct n c = (Throw e, c') -> ParseSum (S n) c = (Throw e, c').
Proof.
  intros H. rewrite ParseSum_S. unfold ParseSum_body.
  apply (bind_Throw _ _ _ _ _ H).
Qed.

Lemma Evaluate_Throw (n : nat) (c : state) (e : exception) (c' : state) :
  ParseSum n c = (Throw e, c') -> Evaluate n c = (Throw e, c').
Proof. intros H. unfold Evaluate, ParseExpression. apply (bind_Throw _ _ _ _ _ H). Qed.

(** An unsigned integer, an operator, and then no term. *)
Lemma Evaluate_source_no_operand (L : libm) (a : string) (op : ascii)
    (ws rest : string) (va : float) :
  digits_text a = true -> stod a = stod_value va ->
  is_sign op || is_times_or_divide op = true ->
  every ctype.isspace ws = true -> ctype.isspace (head rest) = false ->
  starts_term (head rest) = false ->
  Evaluate_source L (a +:+ String op (ws +:+ rest))
  = Throw (ParseError "Expected a number, symbol or parenthesized expression."
             (String.length a + 1 + String.length ws)).
Proof.
  intros Ha Hva Hop Hws Hsp Hst.
  set (big := a +:+ String op (ws +:+ rest)). set (c0 := Calc L big).
  set (m := 4 * String.length big).
  assert (Hlen : String.length big
                 = String.length a + S (String.length (ws +:+ rest))).
  { unfold big. rewrite length_append. reflexivity. }
  assert (H1 : m_src c0 = a +:+ String op (ws +:+ rest)) by reflexivity.
  set (P2 := push_back a op).
  assert (H2 : m_src c0 = P2 +:+ ws +:+ rest)
    by (unfold P2; rewrite push_back_append; exact H1).
  assert (Hpos : String.length (P2 +:+ ws)
                 = String.length a + 1 + String.length ws).
  { unfold P2. rewrite length_append, length_push_back. lia. }
  rewrite <- Hpos.
  assert (HE : Evaluate (S (S (S (S (S m))))) (zip c0 EmptyString)
               = (Throw (ParseError
                           "Expected a number, symbol or parenthesized expression."
                           (String.length (P2 +:+ ws))), zip c0 (P2 +:+ ws))).
  { apply Evaluate_Throw. apply orb_true_iff in Hop as [Hop|Hop].
    - destruct (additive_facts op Hop) as (Hnz & Hend & _).
      destruct (ends_product_facts op Hend) as (_ & Hsp1 & _ & _).
      assert (HP1 : ParseProduct (S (S (S (S m)))) (zip c0 EmptyString)
                    = (Ok va, zip c0 a)).
      { apply (zip_ParseProduct_digits _ c0 EmptyString a _ va eq_refl); auto.
        fold big. unfold m. lia. }
      rewrite (ParseSum_operator _ (zip c0 EmptyString) (zip c0 a) (zip c0 a) va op
                 HP1 (zip_SkipWhite_none (S (S (S (S (S m))))) c0 a _ H1 Hsp1
                        ltac:(lia))
                 (zip_peek c0 a _ H1) Hop).
      rewrite (moved_zip c0 a op). fold P2.
      apply bind_Throw, ParseProduct_Throw.
      apply (zip_ParseTerm_no_term _ c0 P2 ws rest H2); auto. unfold m. lia.
    - destruct (multiplicative_facts op Hop) as (Hnz & Hnum & Hsp1 & _).
      assert (HT1 : ParseTerm (S (S (S m))) (zip c0 EmptyString) = (Ok va, zip c0 a)).
      { apply (zip_ParseTerm_digits _ c0 EmptyString a _ va eq_refl); auto.
        fold big. unfold m. lia. }
      apply ParseSum_Throw.
      rewrite (ParseProduct_operator _ (zip c0 EmptyString) (zip c0 a) (zip c0 a)
                 va op HT1
                 (zip_SkipWhite_none (S (S (S (S m)))) c0 a _ H1 Hsp1 ltac:(lia))
                 (zip_peek c0 a _ H1) Hop).
      rewrite (moved_zip c0 a op). fold P2.
      apply bind_Throw, ParseSum_Throw, ParseProduct_Throw.
      apply (zip_ParseTerm_no_term _ c0 P2 ws rest H2); auto. unfold m. lia. }
  unfold Evaluate_source, fuel_for. fold big.
  replace (4 * String.length big + 5) with (S (S (S (S (S m))))) by (unfold m; lia).
  change (Calc L big) with (zip c0 EmptyString). now rewrite HE.
Qed.

(** X11.  Where a term is expected and the next character after white
    space begins none, the evaluation fails with "Expected a number,
    symbol or parenthesized expression." at that character: at the
    beginning of a source, and after an unsigned integer and an operator.
    The empty source and a source of white space are such sources, with
    the length of the source for the position. *)
Theorem X11_term_expected (L : libm) :
  (forall ws rest : string,
      every ctype.isspace ws = true -> ctype.isspace (head rest) = false ->
      starts_term (head rest) = false ->
      Evaluate_source L (ws +:+ rest)
      = Throw (ParseError "Expected a number, symbol or parenthesized expression."
                 (String.length ws)))
  /\ (forall (a : string) (op : ascii) (ws rest : string) (va : float),
         digits_text a = true -> stod a = stod_value va ->
         is_sign op || is_times_or_divide op = true ->
         every ctype.isspace ws = true -> ctype.isspace (head rest) = false ->
         starts_term (head rest) = false ->
         Evaluate_source L (a +:+ String op (ws +:+ rest))
         = Throw (ParseError
                    "Expected a number, symbol or parenthesized expression."
                    (String.length a + 1 + String.length ws))).
Proof.
  split.
  - intros ws rest Hws Hsp Hst.
    pose proof (zip_ParseTerm_no_term (4 * String.length (ws +:+ rest) + 2)
                  (Calc L (ws +:+ rest)) EmptyString ws rest eq_refl
                  ltac:(lia) Hws Hsp Hst) as HT.
    apply (Evaluate_source_first_term_Throw L (ws +:+ rest) _
             (zip (Calc L (ws +:+ rest)) ws)).
    replace (4 * String.length (ws +:+ rest) + 3)
      with (S (4 * String.length (ws +:+ rest) + 2)) by lia.
    exact HT.
  - apply Evaluate_source_no_operand.
Qed.

Lemma X11_witness :
  Evaluate_source series_libm ("  " +:+ "")
  = Throw (ParseError "Expected a number, symbol or parenthesized expression." 2)
  /\ Evaluate_source series_libm ("12" +:+ String "*" (" " +:+ ")"))
     = Throw (ParseError "Expected a number, symbol or parenthesized expression."
                (2 + 1 + 1)).
Proof.
  split.
  - apply (proj1 (X11_term_expected series_libm) "  " ""); reflexivity.
  - apply (proj2 (X11_term_expected series_libm) "12" "*"%char " " ")" 12%float);
      vm_compute; reflexivity.
Defined.

(** ** What a call can throw *)

Lemma raises_weaken {A} (P Q : exception -> state -> Prop) (m : M A) (c : state) :
  (forall e c', P e c' -> Q e c') -> raises P m c -> raises Q m c.
Proof.
  intros HPQ. unfold raises. destruct (m c) as [[a|e|] c']; auto.
Qed.

Lemma raises_silent {A} (P : exception -> state -> Prop) (m : M A) (c : state) :
  raises silent m c -> raises P m c.
Proof. apply raises_weaken. intros e c' []. Qed.

Lemma raises_bind {A B} (P : exception -> state -> Prop) (m : M A) (k : A -> M B)
    (c : state) :
  raises P m c -> (forall a c', m c = (Ok a, c') -> raises P (k a) c') ->
  raises P (m ≫= k) c.
Proof.
  unfold raises. rewrite bind_eq. intros Hm Hk.
  destruct (m c) as [[a|e|] c']; [apply (Hk a c' eq_refl) | exact Hm | exact I].
Qed.

Lemma raisesM_bind {A B} (P : exception -> state -> Prop) (m : M A) (k : A -> M B) :
  raisesM P m -> (forall a, raisesM P (k a)) -> raisesM P (m ≫= k).
Proof. intros Hm Hk c. apply raises_bind; [apply Hm | intros a c' _; apply Hk]. Qed.

Lemma raisesM_ret {A} (P : exception -> state -> Prop) (a : A) :
  raisesM P (mret a : M A).
Proof. intros c. exact I. Qed.

Lemma raisesM_out_of_fuel {A} (P : exception -> state -> Prop) :
  raisesM P (@out_of_fuel A).
Proof. intros c. exact I. Qed.

Lemma raisesM_PeekChar (P : exception -> state -> Prop) : raisesM P PeekChar.
Proof. intros c. unfold raises. now rewrite PeekChar_peek. Qed.

Lemma raisesM_GetChar (P : exception -> state -> Prop) : raisesM P GetChar.
Proof. intros c. unfold raises. now rewrite (GetChar_eq c _ (PeekChar_peek c)). Qed.

Lemma raisesM_find_function (P : exception -> state -> Prop) (symbol : string) :
  raisesM P (find_function symbol).
Proof. intros c. exact I. Qed.

Lemma raisesM_find_constant (P : exception -> state -> Prop) (symbol : string) :
  raisesM P (find_constant symbol).
Proof. intros c. exact I. Qed.

Lemma raisesM_throw_ParseError {A} (message : string) :
  reported message -> raisesM proper (@throw_ParseError A message).
Proof. intros H c. unfold raises. rewrite throw_ParseError_eq. split; auto. Qed.

Lemma raisesM_throw_out_of_range {A} : raisesM proper (@throw A std_out_of_range).
Proof. intros c. exact I. Qed.

Lemma raisesM_while_peek {A} (P : exception -> state -> Prop) (fuel : nat)
    (test : ascii -> bool) (f : A -> ascii -> A) (acc : A) :
  raisesM P (while_peek fuel test f acc).
Proof.
  revert acc. induction fuel as [|fuel IH]; intros acc; simpl.
  - apply raisesM_out_of_fuel.
  - apply raisesM_bind; [apply raisesM_PeekChar|]. intros next.
    destruct (test next); [|apply raisesM_ret].
    apply raisesM_bind; [apply raisesM_GetChar | intros ch; apply IH].
Qed.

Lemma raisesM_SkipWhite (P : exception -> state -> Prop) (fuel : nat) :
  raisesM P (SkipWhite fuel).
Proof. apply raisesM_while_peek. Qed.

Lemma reported_close : reported "Expected ')'.".
Proof. unfold reported. auto. Qed.

Lemma raisesM_Consume_close : raisesM proper (Consume ")").
Proof.
  intros c. unfold raises. rewrite (Consume_eq _ c _ (PeekChar_peek c)).
  destruct (Ascii.eqb (peek c) ")"); [exact I|].
  split; [apply reported_close | reflexivity].
Qed.

(** [Consume] does not throw on the character it expects. *)
Lemma raises_Consume_same (P : exception -> state -> Prop) (ch : ascii) (c : state) :
  peek c = ch -> raises P (Consume ch) c.
Proof.
  intros Hp. unfold raises. rewrite (Consume_eq _ c _ (PeekChar_peek c)), Hp.
  now rewrite Ascii.eqb_refl.
Qed.

(** [GetSymbol] does not throw before a letter. *)
Lemma raises_GetSymbol (P : exception -> state -> Prop) (fuel : nat) (c : state) :
  ctype.isalpha (peek c) = true -> raises P (GetSymbol fuel) c.
Proof.
  intros Ha. destruct fuel as [|fuel]; [exact I|].
  unfold raises, GetSymbol.
  rewrite (bind_Ok _ _ _ _ _
             (SkipWhite_at_text (S fuel) c (alpha_not_space _ Ha) ltac:(lia))).
  rewrite (bind_Ok _ _ _ _ _ (PeekChar_peek c)), Ha. cbn [negb].
  apply (raisesM_while_peek P (S fuel) ctype.isalnum push_back EmptyString c).
Qed.

Create HintDb raisesM.

#[local] Hint Resolve raisesM_ret raisesM_out_of_fuel raisesM_PeekChar
  raisesM_GetChar raisesM_find_function raisesM_find_constant
  raisesM_throw_out_of_range raisesM_while_peek raisesM_SkipWhite
  raisesM_Consume_close : raisesM.

#[local] Hint Extern 1 (raisesM proper (throw_ParseError _)) =>
  apply raisesM_throw_ParseError; unfold reported; eauto 10 : raisesM.

Ltac raisesM_go :=
  repeat first
    [ solve [auto 1 with raisesM nocore]
    | apply raisesM_bind; [|intros ?]
    | match goal with
      | |- raisesM _ (match ?x with _ => _ end) => destruct x
      | |- raisesM _ (if ?x then _ else _) => destruct x
      end ].

Lemma raisesM_GetConstant (fuel : nat) : raisesM proper (GetConstant fuel).
Proof.
  unfold GetConstant, GetConstant_gather, GetConstant_exponent,
    GetConstant_fraction, GetConstant_sign.
  raisesM_go.
Qed.

Lemma raisesM_ParseSum_body (fuel : nat) (P : M float) :
  raisesM proper P -> raisesM proper (ParseSum_body fuel P).
Proof. intros HP. unfold ParseSum_body. raisesM_go. Qed.

Lemma raisesM_ParseProduct_body (fuel : nat) (T S : M float) :
  raisesM proper T -> raisesM proper S -> raisesM proper (ParseProduct_body fuel T S).
Proof. intros HT HS. unfold ParseProduct_body. raisesM_go. Qed.

Lemma raises_peek {A} (P : exception -> state -> Prop) (k : ascii -> M A) (c : state) :
  raises P (k (peek c)) c -> raises P (PeekChar ≫= k) c.
Proof. unfold raises. now rewrite (bind_Ok _ _ _ _ _ (PeekChar_peek c)). Qed.

Lemma raises_ParseIdentifier_body (fuel : nat) (S : M float) (c : state) :
  raisesM proper S -> ctype.isalpha (peek c) = true ->
  raises proper (ParseIdentifier_body fuel S) c.
Proof.
  intros HS Ha. unfold ParseIdentifier_body.
  apply raises_bind; [apply raises_GetSymbol, Ha|]. intros symbol c1 _.
  apply raises_bind; [apply raisesM_SkipWhite|]. intros [] c2 _.
  apply raises_peek. destruct (Ascii.eqb_spec (peek c2) "(") as [Hp|_].
  - apply raises_bind; [apply raisesM_find_function|]. intros it c3 E.
    assert (c3 = c2) as -> by (unfold find_function in E; congruence).
    destruct it as [f|].
    + apply raises_bind; [apply raises_Consume_same, Hp|]. intros _ c4 _.
      assert (Hk : raisesM proper (parameter ← S; Consume ")";; mret (f parameter)))
        by raisesM_go.
      apply Hk.
    + assert (Hk : raisesM proper
                     (@throw_ParseError float (unknown_function symbol)))
        by raisesM_go.
      apply Hk.
  - assert (Hk : raisesM proper
                   (it ← find_constant symbol;
                    match it with
                    | Some v => mret v
                    | None => throw_ParseError (unknown_symbol symbol)
                    end))
      by raisesM_go.
    apply Hk.
Qed.

Lemma raises_ParseTerm_body (fuel : nat) (S I : M float) :
  raisesM proper S ->
  (forall c, ctype.isalpha (peek c) = true -> raises proper I c) ->
  raisesM proper (ParseTerm_body fuel S I).
Proof.
  intros HS HI c. unfold ParseTerm_body.
  apply raises_bind; [apply raisesM_SkipWhite|]. intros [] c1 _.
  apply raises_peek. destruct (Ascii.eqb (peek c1) "(").
  - assert (Hk : raisesM proper
                   (GetChar;; result ← S; SkipWhite fuel;; Consume ")";; mret result))
      by raisesM_go.
    apply Hk.
  - destruct (IsFirstCharOfDouble (peek c1)); [apply raisesM_GetConstant|].
    destruct (ctype.isalpha (peek c1)) eqn:Ha; [apply HI, Ha|].
    assert (Hk : raisesM proper
                   (@throw_ParseError float
                      "Expected a number, symbol or parenthesized expression."))
      by raisesM_go.
    apply Hk.
Qed.

Lemma raises_Parse (fuel : nat) :
  raisesM proper (ParseSum fuel) /\ raisesM proper (ParseProduct fuel)
  /\ raisesM proper (ParseTerm fuel)
  /\ (forall c, ctype.isalpha (peek c) = true ->
        raises proper (ParseIdentifier fuel) c).
Proof.
  induction fuel as [|n (HS & HP & HT & HI)].
  - split; [|split; [|split]]; try apply raisesM_out_of_fuel. intros c _. exact I.
  - split; [|split; [|split]].
    + apply (raisesM_ParseSum_body (S n)), HP.
    + apply (raisesM_ParseProduct_body (S n)); assumption.
    + apply (raises_ParseTerm_body (S n)); assumption.
    + intros c Ha. apply (raises_ParseIdentifier_body (S n)); assumption.
Qed.

Lemma raisesM_Evaluate (fuel : nat) : raisesM proper (Evaluate fuel).
Proof.
  unfold Evaluate, ParseExpression.
  pose proof (proj1 (raises_Parse fuel)) as HS.
  apply raisesM_bind; [exact HS|]. intros x. raisesM_go.
Qed.

(** An error of [Evaluate] on a source: one of the seven messages, at the
    position of the cursor, which is in the text or just after it. *)
Lemma Evaluate_source_error (L : libm) (src what : string) (pos : nat) :
  Evaluate_source L src = Throw (ParseError what pos) ->
  reported what /\ pos <= String.length src.
Proof.
  unfold Evaluate_source. intros H.
  pose proof (raisesM_Evaluate (fuel_for src) (Calc L src)) as Hr.
  pose proof (stepM_Evaluate (fuel_for src) (Calc L src)) as Hs.
  unfold raises in Hr.
  destruct (Evaluate (fuel_for src) (Calc L src)) as [r c']. simpl in *. subst r.
  destruct Hr as [Hrep ->]. split; [exact Hrep|].
  pose proof (step_inv _ _ Hs) as Hinv. unfold cursor_inv in Hinv. simpl in Hinv.
  rewrite (step_src _ _ Hs) in Hinv. simpl in Hinv. apply Hinv. lia.
Qed.

Lemma not_reported_alpha :
  ~ reported "Expected alpha character at beginning of symbol.".
Proof.
  unfold reported, unknown_function, unknown_symbol.
  intros [H|[H|[H|[H|[H|[[s H]|[s H]]]]]]]; discriminate H.
Qed.

Lemma not_reported_open : ~ reported "Expected '('.".
Proof.
  unfold reported, unknown_function, unknown_symbol.
  intros [H|[H|[H|[H|[H|[[s H]|[s H]]]]]]]; discriminate H.
Qed.

(** X12.  The position of a [ParseError] is an offset into the source,
    or the length of the source. *)
Theorem X12_error_position_within_source (L : libm) (src what : string) (pos : nat) :
  Evaluate_source L src = Throw (ParseError what pos) ->
  pos <= String.length src.
Proof. intros H. apply (Evaluate_source_error L src what pos H). Qed.

Lemma X12_witness : 3 <= String.length "1+2+3".
Proof.
  apply (X12_error_position_within_source series_libm "1+2+3" "Syntax error." 3).
  vm_compute. reflexivity.
Defined.

(** X13.  What an evaluation throws is the [out_of_range] of [stod] or
    a [ParseError] with one of seven messages.  "Expected alpha character
    at beginning of symbol." and "Expected '('." are not among them:
    [GetSymbol] is called before a letter only, and [Consume('(')] before
    an opening parenthesis only. *)
Theorem X13_error_messages (L : libm) (src : string) (e : exception) :
  Evaluate_source L src = Throw e ->
  e = std_out_of_range
  \/ exists (what : string) (pos : nat),
       e = ParseError what pos
       /\ reported what
       /\ what <> "Expected alpha character at beginning of symbol."
       /\ what <> "Expected '('.".
Proof.
  intros H. destruct e as [what pos|]; [right | left; reflexivity].
  destruct (Evaluate_source_error L src what pos H) as [Hr _].
  exists what, pos. split; [reflexivity|]. split; [exact Hr|].
  split; intros ->.
  - apply not_reported_alpha, Hr.
  - apply not_reported_open, Hr.
Qed.

Lemma X13_witness :
  ParseError (unknown_symbol "x") 3 = std_out_of_range
  \/ exists (what : string) (pos : nat),
       ParseError (unknown_symbol "x") 3 = ParseError what pos
       /\ reported what
       /\ what <> "Expected alpha character at beginning of symbol."
       /\ what <> "Expected '('.".
Proof.
  apply (X13_error_messages series_libm "2*x" (ParseError (unknown_symbol "x") 3)).
  vm_compute. reflexivity.
Defined.

(** ** A numeral too large for a [double] *)

(** X14.  The handler in [GetConstant] catches [invalid_argument] and
    nothing else: when [stod] throws [out_of_range] for the text gathered,
    [GetConstant] throws it, and [Evaluate] throws it for a source that
    begins with such a numeral.  It is no [ParseError]. *)
Theorem X14_numeral_overflow_escapes :
  (forall (fuel : nat) (c : state) (s : string) (c' : state),
      GetConstant_gather fuel c = (Ok s, c') -> stod s = stod_out_of_range ->
      GetConstant fuel c = (Throw std_out_of_range, c'))
  /\ (forall (L : libm) (src : string) (fuel : nat) (s : string) (c' : state),
         String.length src < fuel ->
         IsFirstCharOfDouble (head (span ctype.isspace src).2) = true ->
         GetConstant_gather fuel (Calc L src) = (Ok s, c') ->
         stod s = stod_out_of_range ->
         Evaluate_source L src = Throw std_out_of_range).
Proof.
  split.
  - intros fuel c s c' HG Hs. unfold GetConstant.
    rewrite (bind_Ok _ _ _ _ _ HG), Hs. reflexivity.
  - intros L src fuel s c' Hlen Hfirst HG Hs.
    destruct (gather_lex fuel _ EmptyString src s c' (at_cursor_start L src) Hlen HG)
      as [[t' Hlex] _].
    apply Evaluate_source_numeral_Throw; [exact Hfirst|].
    rewrite (GetConstant_start L src) by lia. rewrite Hlex, Hs. reflexivity.
Qed.

Lemma X14_witness :
  GetConstant 9 (skip 2 (Calc series_libm "2*1e999"))
  = (Throw std_out_of_range, skip 7 (Calc series_libm "2*1e999"))
  /\ Evaluate_source series_libm " 1e999" = Throw std_out_of_range.
Proof.
  split.
  - apply (proj1 X14_numeral_overflow_escapes 9 (skip 2 (Calc series_libm "2*1e999"))
             "1e999"); vm_compute; reflexivity.
  - apply (proj2 X14_numeral_overflow_escapes series_libm " 1e999" 9 "1e999"
             (skip 6 (Calc series_libm " 1e999")));
      try (vm_compute; reflexivity). vm_compute. lia.
Defined.

(** ** A second call on the same object *)

(** X15.  [Evaluate] does not rewind the cursor: called again on an
    object on which it has returned, it fails with "Expected a number,
    symbol or parenthesized expression." at the position where the first
    call stopped. *)
Theorem X15_Evaluate_single_use (n n' : nat) (c : state) (v : float) (c' : state) :
  Evaluate n c = (Ok v, c') -> 3 <= n' ->
  Evaluate n' c'
  = (Throw (ParseError "Expected a number, symbol or parenthesized expression."
              (m_currentPosition c')), c').
Proof.
  intros HE Hn. apply Evaluate_Ok_iff in HE as [_ Hz].
  destruct n' as [|[|[|k]]]; try lia.
  apply Evaluate_first_term_Throw. rewrite ParseTerm_S. unfold ParseTerm_body.
  rewrite (bind_Ok _ _ _ _ _
             (SkipWhite_at_text (S k) c' ltac:(now rewrite Hz) ltac:(lia))).
  rewrite (bind_Ok _ _ _ _ _ (PeekChar_peek c')), Hz. reflexivity.
Qed.

Lemma X15_witness :
  Evaluate 3 (skip 3 (Calc series_libm "1+2"))
  = (Throw (ParseError "Expected a number, symbol or parenthesized expression." 3),
     skip 3 (Calc series_libm "1+2")).
Proof.
  apply (X15_Evaluate_single_use 17 3 (Calc series_libm "1+2") 3%float
           (skip 3 (Calc series_libm "1+2"))); [vm_compute; reflexivity | lia].
Defined.

(** ** The tests and the loop of [main] *)

Lemma Test_fold (L : libm) (show : float -> string) (l : list (string * float))
    (acc : string * bool) :
  (fold_left
     (fun acc case =>
        let '(out, ok) := TestCase_Run L show case.1 case.2 in
        (acc.1 +:+ out, acc.2 && ok)) l acc).2
  = acc.2 && forallb (fun case => (TestCase_Run L show case.1 case.2).2) l.
Proof.
  revert acc. induction l as [|case l IH]; intros acc; simpl.
  - now rewrite andb_true_r.
  - rewrite IH. destruct (TestCase_Run L show case.1 case.2) as [out ok].
    simpl. now rewrite andb_assoc.
Qed.

Lemma TestCase_Run_result (L : libm) (show : float -> string) (input : string)
    (expected : float) :
  (TestCase_Run L show input expected).2
  = match Evaluate_source L input with
    | Ok result => (result =? expected)%float
    | _ => false
    end.
Proof.
  unfold TestCase_Run. destruct (Evaluate_source L input) as [r|e|]; try reflexivity.
  destruct (r =? expected)%float; reflexivity.
Qed.

Lemma spaces_app (a b : nat) : spaces a +:+ spaces b = spaces (a + b).
Proof.
  induction a as [|a IH]; [reflexivity|]. simpl. rewrite append_cons. now rewrite IH.
Qed.

Lemma main_ends_as_loop (L : libm) (show : float -> string) (lines : list string) :
  (main L show lines).2 = (read_eval_print L show lines).2.
Proof.
  unfold main. destruct (Test L show) as [tests success].
  destruct (read_eval_print L show lines) as [out t]. reflexivity.
Qed.

Lemma length_0_empty (s : string) : (String.length s =? 0) = false <-> s <> EmptyString.
Proof. destruct s; simpl; split; congruence. Qed.

Lemma read_eval_print_ParseError (L : libm) (show : float -> string)
    (line : string) (rest : list string) (what : string) (pos : nat) :
  line <> EmptyString ->
  Evaluate_source L line = Throw (ParseError what pos) ->
  read_eval_print L show (line :: rest)
  = (prompt +:+ spaces (String.length prompt + pos) +:+ "^" +:+ endl
     +:+ "Calc error (position = " +:+ print_size_t pos +:+ "): "
     +:+ what +:+ endl +:+ (read_eval_print L show rest).1,
     (read_eval_print L show rest).2).
Proof.
  intros Hne HE. cbn [read_eval_print].
  rewrite (proj2 (length_0_empty line) Hne), HE.
  destruct (read_eval_print L show rest) as [out t]. cbn [fst snd].
  f_equal. unfold print_ParseError.
  rewrite <- spaces_app, !append_assoc. reflexivity.
Qed.

Lemma read_eval_print_returns (L : libm) (show : float -> string)
    (lines : list string) :
  Forall (fun line => Evaluate_source L line <> Throw std_out_of_range) lines ->
  (read_eval_print L show lines).2 = Returned 0.
Proof.
  induction 1 as [|line rest Hline _ IH]; [reflexivity|].
  cbn [read_eval_print]. destruct (String.length line =? 0); [reflexivity|].
  pose proof (fuel_for_enough L line) as Hsafe. unfold safe in Hsafe.
  fold (Evaluate_source L line) in Hsafe.
  destruct (Evaluate_source L line) as [v|[what pos|]|]; try congruence;
    destruct (read_eval_print L show rest) as [out t]; exact IH.
Qed.

Lemma read_eval_print_uncaught (L : libm) (show : float -> string)
    (before : list string) (line : string) (after : list string) :
  Forall (fun l => l <> EmptyString
                   /\ Evaluate_source L l <> Throw std_out_of_range) before ->
  line <> EmptyString ->
  Evaluate_source L line = Throw std_out_of_range ->
  (read_eval_print L show (before ++ line :: after)).2 = Uncaught std_out_of_range
  /\ read_eval_print L show (before ++ line :: after)
     = read_eval_print L show (before ++ line :: nil).
Proof.
  intros Hb Hne HE. induction Hb as [|l before [Hl1 Hl2] _ [IH1 IH2]].
  - cbn [app read_eval_print]. rewrite (proj2 (length_0_empty line) Hne), HE.
    split; reflexivity.
  - cbn [app read_eval_print]. rewrite (proj2 (length_0_empty l) Hl1).
    pose proof (fuel_for_enough L l) as Hsafe. unfold safe in Hsafe.
    fold (Evaluate_source L l) in Hsafe.
    destruct (Evaluate_source L l) as [v|[what pos|]|]; try congruence;
      rewrite IH2;
      destruct (read_eval_print L show (before ++ line :: nil)) as [out t];
      rewrite IH2 in IH1; split; (exact IH1 || reflexivity).
Qed.

(** X16.  [Test] returns true exactly when, for the math library,
    [exp(1)], [atan(1)*4] and [3+exp(1)] are equal to themselves (none is
    a NaN), [cos(atan(1)*4)] is -1 and [sin(0)] is 0: the nineteen other
    cases pass whatever the library.  With the series of this file it
    returns true. *)
Theorem X16_Test_succeeds :
  (forall (L : libm) (show : float -> string),
      (Test L show).2
      = ((libm_exp L 1 =? libm_exp L 1)
         && (libm_atan L 1 * 4 =? libm_atan L 1 * 4)
         && (3 + libm_exp L 1 =? 3 + libm_exp L 1)
         && (libm_cos L (libm_atan L 1 * 4) =? -1)
         && (libm_sin L 0 =? 0))%float)
  /\ (forall show : float -> string, (Test series_libm show).2 = true).
Proof.
  split.
  - intros [exp atan cos sin] show. unfold Test. rewrite Test_fold. cbn [snd andb].
    unfold cases. cbn [forallb fst snd]. rewrite !TestCase_Run_result.
    vm_compute.
    repeat match goal with
           | |- context [PrimFloat.eqb ?x ?y] => destruct (PrimFloat.eqb x y)
           end; reflexivity.
  - intros show. unfold Test. rewrite Test_fold. cbn [snd andb].
    unfold cases. cbn [forallb fst snd]. rewrite !TestCase_Run_result.
    vm_compute. reflexivity.
Qed.

(** X17.  [main] returns 0 when no line makes [Evaluate] throw
    [out_of_range].  The first line that does, when no empty line comes
    before it, ends the program with this exception, which nothing
    catches, and the lines after it are not read. *)
Theorem X17_main_termination (L : libm) (show : float -> string) :
  (forall lines : list string,
      Forall (fun line => Evaluate_source L line <> Throw std_out_of_range) lines ->
      (main L show lines).2 = Returned 0)
  /\ (forall (before : list string) (line : string) (after : list string),
         Forall (fun l => l <> EmptyString
                          /\ Evaluate_source L l <> Throw std_out_of_range) before ->
         line <> EmptyString ->
         Evaluate_source L line = Throw std_out_of_range ->
         (main L show (before ++ line :: after)).2 = Uncaught std_out_of_range
         /\ main L show (before ++ line :: after)
            = main L show (before ++ line :: nil)).
Proof.
  split.
  - intros lines H. rewrite main_ends_as_loop.
    apply read_eval_print_returns, H.
  - intros before line after Hb Hne HE.
    destruct (read_eval_print_uncaught L show before line after Hb Hne HE)
      as [H1 H2].
    split; [now rewrite main_ends_as_loop|].
    unfold main. now rewrite H2.
Qed.

Lemma X17_witness :
  (main series_libm (fun _ => "?") ("1+2" :: "x" :: "" :: "4" :: nil)).2
  = Returned 0
  /\ (main series_libm (fun _ => "?") (("1+2" :: nil) ++ "1e999" :: "3" :: nil)).2
     = Uncaught std_out_of_range
  /\ main series_libm (fun _ => "?") (("1+2" :: nil) ++ "1e999" :: "3" :: nil)
     = main series_libm (fun _ => "?") (("1+2" :: nil) ++ "1e999" :: nil).
Proof.
  split.
  - apply (proj1 (X17_main_termination series_libm (fun _ => "?"))).
    repeat (constructor; [vm_compute; discriminate|]). constructor.
  - apply (proj2 (X17_main_termination series_libm (fun _ => "?"))
             ("1+2" :: nil) "1e999" ("3" :: nil)).
    + repeat (constructor; [split; [discriminate | vm_compute; discriminate]|]).
      constructor.
    + discriminate.
    + vm_compute. reflexivity.
Defined.

(** X18.  For a line on which [Evaluate] throws a [ParseError] the loop
    writes, after the prompt, as many spaces as the prompt is long and as
    the position says, then the caret, then the position and the message
    on a line of their own, and goes on with the next line.  The position
    is at most the length of the line: on a terminal that shows the line
    after the prompt the caret stands under a character of the line or
    just after it. *)
Theorem X18_error_report (L : libm) (show : float -> string) (line : string)
    (rest : list string) (what : string) (pos : nat) :
  line <> EmptyString ->
  Evaluate_source L line = Throw (ParseError what pos) ->
  read_eval_print L show (line :: rest)
  = (prompt +:+ spaces (String.length prompt + pos) +:+ "^" +:+ endl
     +:+ "Calc error (position = " +:+ print_size_t pos +:+ "): "
     +:+ what +:+ endl +:+ (read_eval_print L show rest).1,
     (read_eval_print L show rest).2)
  /\ pos <= String.length line.
Proof.
  intros Hne HE. split.
  - apply read_eval_print_ParseError; assumption.
  - apply (Evaluate_source_error L line what pos HE).
Qed.

Lemma X18_witness :
  read_eval_print series_libm (fun _ => "?") ("1+2+3" :: nil)
  = (prompt +:+ spaces (String.length prompt + 3) +:+ "^" +:+ endl
     +:+ "Calc error (position = " +:+ print_size_t 3 +:+ "): "
     +:+ "Syntax error." +:+ endl
     +:+ (read_eval_print series_libm (fun _ => "?") nil).1,
     (read_eval_print series_libm (fun _ => "?") nil).2)
  /\ 3 <= String.length "1+2+3".
Proof.
  apply (X18_error_report series_libm (fun _ => "?") "1+2+3" nil "Syntax error." 3).
  - discriminate.
  - vm_compute. reflexivity.
Defined.

(** ** What is read is of the language *)

Lemma read_so_far_moved (c : state) :
  read_so_far c -> in_alphabet (peek c) = true -> read_so_far (moved c).
Proof.
  intros H Hp i Hi. simpl in *.
  destruct (Nat.eq_dec i (m_currentPosition c)) as [->|Hne].
  - rewrite <- peek_char_at. exact Hp.
  - apply H. lia.
Qed.

Lemma readsM_ret {A} (a : A) : readsM (mret a : M A).
Proof. intros c H. exact H. Qed.

Lemma readsM_throw {A} (e : exception) : readsM (@throw A e).
Proof. intros c H. exact H. Qed.

Lemma readsM_out_of_fuel {A} : readsM (@out_of_fuel A).
Proof. intros c H. exact H. Qed.

Lemma readsM_throw_ParseError {A} (message : string) :
  readsM (@throw_ParseError A message).
Proof. intros c H. exact H. Qed.

Lemma readsM_find_function (symbol : string) : readsM (find_function symbol).
Proof. intros c H. exact H. Qed.

Lemma readsM_find_constant (symbol : string) : readsM (find_constant symbol).
Proof. intros c H. exact H. Qed.

Lemma readsM_bind {A B} (m : M A) (k : A -> M B) :
  readsM m -> (forall a, readsM (k a)) -> readsM (m ≫= k).
Proof.
  intros Hm Hk c H. rewrite bind_eq. specialize (Hm c H).
  destruct (m c) as [[a|e|] c']; simpl in *; auto. apply Hk, Hm.
Qed.

(** [if (test(PeekChar())) { GetChar(); ... } else ...] *)
Lemma readsM_guard {A} (test : ascii -> bool) (k1 : ascii -> M A) (k2 : ascii -> M A) :
  lexical test -> (forall ch, readsM (k1 ch)) -> (forall ch, readsM (k2 ch)) ->
  readsM (next ← PeekChar; if test next then ch ← GetChar; k1 ch else k2 next).
Proof.
  intros Ht H1 H2 c H. rewrite (bind_Ok _ _ _ _ _ (PeekChar_peek c)).
  destruct (test (peek c)) eqn:E; [|apply H2, H].
  rewrite (bind_Ok _ _ _ _ _ (GetChar_eq c _ (PeekChar_peek c))).
  apply H1. destruct (Ascii.eqb (peek c) NUL); [exact H|].
  apply read_so_far_moved; [exact H | apply Ht, E].
Qed.

Lemma readsM_PeekChar : readsM PeekChar.
Proof. intros c H. now rewrite PeekChar_peek. Qed.

Lemma readsM_Consume (ch : ascii) : in_alphabet ch = true -> readsM (Consume ch).
Proof.
  intros Hch c H. rewrite (Consume_eq ch c _ (PeekChar_peek c)).
  destruct (Ascii.eqb_spec (peek c) ch) as [E|_]; [|exact H]. simpl.
  destruct (Ascii.eqb (peek c) NUL); [exact H|].
  apply read_so_far_moved; [exact H | now rewrite E].
Qed.

Lemma readsM_while_peek {A} (fuel : nat) (test : ascii -> bool)
    (f : A -> ascii -> A) (acc : A) :
  lexical test -> readsM (while_peek fuel test f acc).
Proof.
  intros Ht. revert acc. induction fuel as [|fuel IH]; intros acc; simpl.
  - apply readsM_out_of_fuel.
  - apply (readsM_guard test (fun ch => while_peek fuel test f (f acc ch))
             (fun _ => mret acc)); [exact Ht | intros ch; apply IH |].
    intros _. apply readsM_ret.
Qed.

Ltac lexical_cases :=
  let ch := fresh "ch" in
  intros ch; destruct ch as [[] [] [] [] [] [] [] []]; vm_compute; congruence.

Lemma readsM_SkipWhite (fuel : nat) : readsM (SkipWhite fuel).
Proof. apply readsM_while_peek. lexical_cases. Qed.

Create HintDb readsM.

#[local] Hint Resolve readsM_ret readsM_throw readsM_out_of_fuel
  readsM_throw_ParseError readsM_find_function readsM_find_constant
  readsM_PeekChar readsM_SkipWhite : readsM.

Ltac readsM_go :=
  repeat first
    [ solve [auto 1 with readsM nocore]
    | apply readsM_Consume; reflexivity
    | apply readsM_while_peek; lexical_cases
    | apply readsM_guard; [lexical_cases | intros ? | intros ?]
    | apply readsM_bind; [|intros ?]
    | match goal with
      | |- readsM (match ?x with _ => _ end) => destruct x
      | |- readsM (if ?x then _ else _) => destruct x
      end ].

Lemma readsM_GetSymbol (fuel : nat) : readsM (GetSymbol fuel).
Proof. unfold GetSymbol. readsM_go. Qed.

Lemma readsM_GetConstant (fuel : nat) : readsM (GetConstant fuel).
Proof.
  unfold GetConstant, GetConstant_gather, GetConstant_exponent,
    GetConstant_fraction, GetConstant_sign.
  readsM_go.
Qed.

#[local] Hint Resolve readsM_GetSymbol readsM_GetConstant : readsM.

Lemma readsM_ParseSum_body (fuel : nat) (P : M float) :
  readsM P -> readsM (ParseSum_body fuel P).
Proof. intros HP. unfold ParseSum_body. readsM_go. Qed.

Lemma readsM_ParseProduct_body (fuel : nat) (T S : M float) :
  readsM T -> readsM S -> readsM (ParseProduct_body fuel T S).
Proof. intros HT HS. unfold ParseProduct_body. readsM_go. Qed.

Lemma readsM_ParseTerm_body (fuel : nat) (S I : M float) :
  readsM S -> readsM I -> readsM (ParseTerm_body fuel S I).
Proof. intros HS HI. unfold ParseTerm_body. readsM_go. Qed.

Lemma readsM_ParseIdentifier_body (fuel : nat) (S : M float) :
  readsM S -> readsM (ParseIdentifier_body fuel S).
Proof. intros HS. unfold ParseIdentifier_body. readsM_go. Qed.

Lemma readsM_Parse (fuel : nat) :
  readsM (ParseSum fuel) /\ readsM (ParseProduct fuel)
  /\ readsM (ParseTerm fuel) /\ readsM (ParseIdentifier fuel).
Proof.
  induction fuel as [|n (HS & HP & HT & HI)].
  - split; [|split; [|split]]; apply readsM_out_of_fuel.
  - split; [|split; [|split]].
    + apply (readsM_ParseSum_body (S n)), HP.
    + apply (readsM_ParseProduct_body (S n)); assumption.
    + apply (readsM_ParseTerm_body (S n)); assumption.
    + apply (readsM_ParseIdentifier_body (S n)), HS.
Qed.

Lemma readsM_Evaluate (fuel : nat) : readsM (Evaluate fuel).
Proof.
  unfold Evaluate, ParseExpression. pose proof (proj1 (readsM_Parse fuel)) as HS.
  readsM_go.
Qed.

Lemma every_char_at (P : ascii -> bool) (s : string) :
  (forall i, i < String.length s -> P (char_at i s) = true) -> every P s = true.
Proof.
  induction s as [|ch s IH]; intros H; [reflexivity|].
  cbn [every]. apply andb_true_iff. split.
  - apply (H 0). simpl. lia.
  - apply IH. intros i Hi. apply (H (S i)). simpl. lia.
Qed.

(** X19.  A source that evaluates is written in the characters of the
    language.  If [Evaluate] returns a value for a source without NUL,
    every character of the source is white space, a letter, a digit or
    one of [+ - . * / ( )]. *)
Theorem X19_accepted_alphabet (L : libm) (src : string) (v : float) :
  Evaluate_source L src = Ok v -> no_NUL src = true ->
  every in_alphabet src = true.
Proof.
  intros HE Hnn. unfold Evaluate_source in HE.
  pose proof (readsM_Evaluate (fuel_for src) (Calc L src)) as Hr.
  pose proof (stepM_Evaluate (fuel_for src) (Calc L src)) as Hs.
  destruct (Evaluate (fuel_for src) (Calc L src)) as [r c'] eqn:E.
  simpl in HE, Hr, Hs. subst r. apply Evaluate_Ok_iff in E as [_ Hz].
  assert (Hsrc : m_src c' = src) by apply Hs.
  assert (Hpos : m_currentPosition c' = String.length (m_src c')).
  { apply no_NUL_end; [now rewrite Hsrc | | exact Hz].
    apply (step_inv _ _ Hs). unfold cursor_inv. simpl. lia. }
  apply every_char_at. intros i Hi. rewrite <- Hsrc. apply Hr.
  - intros j Hj. simpl in Hj. lia.
  - rewrite Hpos, Hsrc. exact Hi.
Qed.

Lemma X19_witness : every in_alphabet "sqrt( 2.5e1 ) - 1/4" = true.
Proof.
  apply (X19_accepted_alphabet series_libm "sqrt( 2.5e1 ) - 1/4" 4.75%float);
    vm_compute; reflexivity.
Defined.

(** ** Parentheses are balanced *)

Lemma opened_S (n : nat) (s : string) :
  n < String.length s ->
  opened (S n) s = (opened n s + weight (char_at n s))%Z.
Proof.
  revert n. induction s as [|ch s IH]; intros n Hn; simpl in Hn; [lia|].
  destruct n as [|n].
  - change (char_at 0 (String ch s)) with ch.
    assert (H0 : forall t, opened 0 t = 0%Z) by (intros []; reflexivity).
    change (opened 1 (String ch s)) with (weight ch + opened 0 s)%Z.
    rewrite !H0. lia.
  - change (opened (S (S n)) (String ch s)) with (weight ch + opened (S n) s)%Z.
    rewrite (IH n ltac:(lia)).
    change (opened (S n) (String ch s)) with (weight ch + opened n s)%Z.
    change (char_at (S n) (String ch s)) with (char_at n s). lia.
Qed.

Lemma opened_all (s : string) :
  opened (String.length s) s
  = (Z.of_nat (count_of "(" s) - Z.of_nat (count_of ")" s))%Z.
Proof.
  induction s as [|ch s IH]; [reflexivity|].
  change (opened (String.length (String ch s)) (String ch s))
    with (weight ch + opened (String.length s) s)%Z.
  rewrite IH. cbn [count_of]. unfold weight. rewrite !Nat2Z.inj_add.
  destruct (Ascii.eqb_spec ch "(") as [H1|H1], (Ascii.eqb_spec ch ")") as [H2|H2];
    try lia.
  rewrite H1 in H2. discriminate H2.
Qed.

Lemma level_moved (c : state) :
  peek c <> NUL -> level (moved c) = (level c + weight (peek c))%Z.
Proof.
  intros Hnz. unfold level. simpl. rewrite peek_char_at. apply opened_S.
  apply (PeekChar_not_NUL c (peek c) (PeekChar_peek c) Hnz).
Qed.

Lemma level_GetChar (c : state) (ch : ascii) (c' : state) :
  GetChar c = (Ok ch, c') -> ch = peek c /\ level c' = (level c + weight ch)%Z.
Proof.
  rewrite (GetChar_eq c _ (PeekChar_peek c)). intros H.
  assert (ch = peek c) as -> by congruence. split; [reflexivity|].
  apply (f_equal snd) in H. simpl in H. subst c'.
  destruct (Ascii.eqb_spec (peek c) NUL) as [E|Hnz].
  - rewrite E. unfold weight. simpl. lia.
  - apply level_moved, Hnz.
Qed.

Lemma level_Consume (ch : ascii) (c c' : state) :
  Consume ch c = (Ok tt, c') -> level c' = (level c + weight ch)%Z.
Proof.
  rewrite (Consume_eq ch c _ (PeekChar_peek c)).
  destruct (Ascii.eqb_spec (peek c) ch) as [E|_]; [|discriminate].
  intros H. apply (f_equal snd) in H. simpl in H. subst c' ch.
  destruct (Ascii.eqb_spec (peek c) NUL) as [E|Hnz].
  - rewrite E. unfold weight. simpl. lia.
  - apply level_moved, Hnz.
Qed.

Lemma levelM_ret {A} (a : A) : levelM (mret a : M A).
Proof. intros c a' c' H. apply (f_equal snd) in H. simpl in H. now subst c'. Qed.

Lemma levelM_throw {A} (e : exception) : levelM (@throw A e).
Proof. intros c a c' H. discriminate H. Qed.

Lemma levelM_out_of_fuel {A} : levelM (@out_of_fuel A).
Proof. intros c a c' H. discriminate H. Qed.

Lemma levelM_throw_ParseError {A} (message : string) :
  levelM (@throw_ParseError A message).
Proof. intros c a c' H. discriminate H. Qed.

Lemma levelM_find_function (symbol : string) : levelM (find_function symbol).
Proof. intros c a c' H. apply (f_equal snd) in H. simpl in H. now subst c'. Qed.

Lemma levelM_find_constant (symbol : string) : levelM (find_constant symbol).
Proof. intros c a c' H. apply (f_equal snd) in H. simpl in H. now subst c'. Qed.

Lemma levelM_PeekChar : levelM PeekChar.
Proof.
  intros c a c' H. rewrite PeekChar_peek in H.
  apply (f_equal snd) in H. simpl in H. now subst c'.
Qed.

Lemma levelM_bind {A B} (m : M A) (k : A -> M B) :
  levelM m -> (forall a, levelM (k a)) -> levelM (m ≫= k).
Proof.
  intros Hm Hk c b c' H. apply bind_Ok_inv in H as (a & c1 & H1 & H2).
  rewrite (Hk a _ _ _ H2). apply (Hm _ _ _ H1).
Qed.

(** [if (test(PeekChar())) { GetChar(); ... } else ...] *)
Lemma levelM_guard {A} (test : ascii -> bool) (k1 : ascii -> M A)
    (k2 : ascii -> M A) :
  flat test -> (forall ch, levelM (k1 ch)) -> (forall ch, levelM (k2 ch)) ->
  levelM (next ← PeekChar; if test next then ch ← GetChar; k1 ch else k2 next).
Proof.
  intros Ht H1 H2 c a c' H. rewrite (bind_Ok _ _ _ _ _ (PeekChar_peek c)) in H.
  destruct (test (peek c)) eqn:E; [|apply (H2 _ _ _ _ H)].
  apply bind_Ok_inv in H as (ch & c1 & HG & H).
  destruct (level_GetChar _ _ _ HG) as [-> Hl].
  rewrite (H1 _ _ _ _ H), Hl, (Ht _ E). lia.
Qed.

Lemma levelM_while_peek {A} (fuel : nat) (test : ascii -> bool)
    (f : A -> ascii -> A) (acc : A) :
  flat test -> levelM (while_peek fuel test f acc).
Proof.
  intros Ht. revert acc. induction fuel as [|fuel IH]; intros acc; simpl.
  - apply levelM_out_of_fuel.
  - apply (levelM_guard test (fun ch => while_peek fuel test f (f acc ch))
             (fun _ => mret acc)); [exact Ht | intros ch; apply IH |].
    intros _. apply levelM_ret.
Qed.

Ltac flat_cases :=
  let ch := fresh "ch" in
  intros ch; destruct ch as [[] [] [] [] [] [] [] []]; vm_compute; congruence.

Lemma levelM_SkipWhite (fuel : nat) : levelM (SkipWhite fuel).
Proof. apply levelM_while_peek. flat_cases. Qed.

Create HintDb levelM.

#[local] Hint Resolve levelM_ret levelM_throw levelM_out_of_fuel
  levelM_throw_ParseError levelM_find_function levelM_find_constant
  levelM_PeekChar levelM_SkipWhite : levelM.

Ltac levelM_go :=
  repeat first
    [ solve [auto 1 with levelM nocore]
    | apply levelM_while_peek; flat_cases
    | apply levelM_guard; [flat_cases | intros ? | intros ?]
    | apply levelM_bind; [|intros ?]
    | match goal with
      | |- levelM (match ?x with _ => _ end) => destruct x
      | |- levelM (if ?x then _ else _) => destruct x
      end ].

Lemma levelM_GetSymbol (fuel : nat) : levelM (GetSymbol fuel).
Proof. unfold GetSymbol. levelM_go. Qed.

Lemma levelM_GetConstant (fuel : nat) : levelM (GetConstant fuel).
Proof.
  unfold GetConstant, GetConstant_gather, GetConstant_exponent,
    GetConstant_fraction, GetConstant_sign.
  levelM_go.
Qed.

#[local] Hint Resolve levelM_GetSymbol levelM_GetConstant : levelM.

Lemma levelM_ParseSum_body (fuel : nat) (P : M float) :
  levelM P -> levelM (ParseSum_body fuel P).
Proof. intros HP. unfold ParseSum_body. levelM_go. Qed.

Lemma levelM_ParseProduct_body (fuel : nat) (T S : M float) :
  levelM T -> levelM S -> levelM (ParseProduct_body fuel T S).
Proof. intros HT HS. unfold ParseProduct_body. levelM_go. Qed.

(** What [(] opens, [Consume(')')] closes. *)
Lemma level_opened (c : state) :
  peek c = "("%char -> level (moved c) = (level c + 1)%Z.
Proof.
  intros Hp. rewrite level_moved by (rewrite Hp; not_NUL). now rewrite Hp.
Qed.

Lemma level_closed (c c' : state) :
  Consume ")" c = (Ok tt, c') -> level c' = (level c - 1)%Z.
Proof. intros H. now rewrite (level_Consume _ _ _ H). Qed.

Lemma levelM_ParseTerm_body (fuel : nat) (S I : M float) :
  levelM S -> levelM I -> levelM (ParseTerm_body fuel S I).
Proof.
  intros HS HI. unfold ParseTerm_body. apply levelM_bind; [apply levelM_SkipWhite|].
  intros _ c a c' H. rewrite (bind_Ok _ _ _ _ _ (PeekChar_peek c)) in H.
  destruct (Ascii.eqb_spec (peek c) "(") as [Hp|_].
  - assert (Hnz : peek c <> NUL) by (rewrite Hp; not_NUL).
    rewrite (bind_Ok _ _ _ _ _ (GetChar_moves c _ (PeekChar_peek c) Hnz)) in H.
    apply bind_Ok_inv in H as (result & c1 & H1 & H).
    apply bind_Ok_inv in H as ([] & c2 & H2 & H).
    apply bind_Ok_inv in H as ([] & c3 & H3 & H).
    rewrite (levelM_ret _ _ _ _ H), (level_closed _ _ H3),
      (levelM_SkipWhite _ _ _ _ H2), (HS _ _ _ H1), (level_opened c Hp). lia.
  - destruct (IsFirstCharOfDouble (peek c)); [apply (levelM_GetConstant _ _ _ _ H)|].
    destruct (ctype.isalpha (peek c)); [apply (HI _ _ _ H) | discriminate H].
Qed.

Lemma levelM_ParseIdentifier_body (fuel : nat) (S : M float) :
  levelM S -> levelM (ParseIdentifier_body fuel S).
Proof.
  intros HS. unfold ParseIdentifier_body.
  apply levelM_bind; [apply levelM_GetSymbol|]. intros symbol.
  apply levelM_bind; [apply levelM_SkipWhite|].
  intros _ c a c' H. rewrite (bind_Ok _ _ _ _ _ (PeekChar_peek c)) in H.
  destruct (Ascii.eqb_spec (peek c) "(") as [Hp|_].
  - rewrite (bind_Ok (find_function symbol) _ c _ c eq_refl) in H.
    destruct (m_functions c !! symbol) as [f|]; [|discriminate H].
    assert (Hnz : peek c <> NUL) by (rewrite Hp; not_NUL).
    assert (HC : Consume "(" c = (Ok tt, moved c)).
    { rewrite (Consume_eq _ c _ (PeekChar_peek c)), Hp. reflexivity. }
    rewrite (bind_Ok _ _ _ _ _ HC) in H.
    apply bind_Ok_inv in H as (parameter & c1 & H1 & H).
    apply bind_Ok_inv in H as ([] & c2 & H2 & H).
    rewrite (levelM_ret _ _ _ _ H), (level_closed _ _ H2), (HS _ _ _ H1),
      (level_opened c Hp). lia.
  - revert c a c' H.
    change (levelM (it ← find_constant symbol;
                    match it with
                    | Some v => mret v
                    | None => throw_ParseError (unknown_symbol symbol)
                    end)).
    levelM_go.
Qed.

Lemma levelM_Parse (fuel : nat) :
  levelM (ParseSum fuel) /\ levelM (ParseProduct fuel)
  /\ levelM (ParseTerm fuel) /\ levelM (ParseIdentifier fuel).
Proof.
  induction fuel as [|n (HS & HP & HT & HI)].
  - split; [|split; [|split]]; apply levelM_out_of_fuel.
  - split; [|split; [|split]].
    + apply (levelM_ParseSum_body (S n)), HP.
    + apply (levelM_ParseProduct_body (S n)); assumption.
    + apply (levelM_ParseTerm_body (S n)); assumption.
    + apply (levelM_ParseIdentifier_body (S n)), HS.
Qed.

(** X20.  A source that evaluates has its parentheses balanced.  If
    [Evaluate] returns a value for a source without NUL, the source has
    as many [(] as [)]. *)
Theorem X20_accepted_balanced (L : libm) (src : string) (v : float) :
  Evaluate_source L src = Ok v -> no_NUL src = true ->
  count_of "(" src = count_of ")" src.
Proof.
  intros HE Hnn. unfold Evaluate_source in HE.
  pose proof (stepM_Evaluate (fuel_for src) (Calc L src)) as Hs.
  destruct (Evaluate (fuel_for src) (Calc L src)) as [r c'] eqn:E.
  simpl in HE, Hs. subst r. apply Evaluate_Ok_iff in E as [HS Hz].
  assert (Hsrc : m_src c' = src) by apply Hs.
  assert (Hpos : m_currentPosition c' = String.length (m_src c')).
  { apply no_NUL_end; [now rewrite Hsrc | | exact Hz].
    apply (step_inv _ _ Hs). unfold cursor_inv. simpl. lia. }
  pose proof (proj1 (levelM_Parse (fuel_for src)) _ _ _ HS) as Hl.
  unfold level in Hl. rewrite Hpos, Hsrc, opened_all in Hl. simpl in Hl. lia.
Qed.

Lemma X20_witness : count_of "(" "sqrt((3+4)*(2+3))" = count_of ")" "sqrt((3+4)*(2+3))".
Proof.
  apply (X20_accepted_balanced series_libm "sqrt((3+4)*(2+3))" (PrimFloat.sqrt 35));
    vm_compute; reflexivity.
Defined.

(** ** What a call leaves as it is *)

(** X21.  [Evaluate] moves the cursor and nothing else.  Whatever the
    outcome, the source text and the two tables are afterwards what they
    were: a name is looked up with [find] and one that is not known is
    not entered. *)
Theorem X21_Evaluate_frame (fuel : nat) (c : state) :
  m_src (Evaluate fuel c).2 = m_src c
  /\ m_constants (Evaluate fuel c).2 = m_constants c
  /\ m_functions (Evaluate fuel c).2 = m_functions c.
Proof.
  destruct (stepM_Evaluate fuel c) as [Hsrc Hk Hf _ _]. auto.
Qed.
